(** * XLA Python local client: transfers, device buffers, replicated execution

    A shallow embedding of [tensorflow/compiler/xla/python/local_client.cc]:
    the host-to-device transfer pipeline ([TransferHostToDeviceAsync],
    [FromPython], [FromPythonValues]), the device buffer ([Release],
    [ToPython], [DestructureTuple]) and the executable ([Execute],
    [ExecutePerReplica], [Compile]).

    C++ objects become records, [StatusOr<T>] a sum, and the device (allocator,
    streams, memory) an explicit [World] threaded through a small monad whose
    outcomes also cover what C++ can do besides returning: throw, run into
    undefined behaviour, abort the process, or block for ever. *)

From stdpp Require Import gmap strings list fin_maps pretty.
From Stdlib Require Import ZArith Lia Permutation.

Open Scope string_scope.
Open Scope list_scope.
Open Scope Z_scope.

(** ** Status and StatusOr *)

Inductive Code :=
| OK
| CANCELLED
| UNKNOWN
| INVALID_ARGUMENT
| NOT_FOUND
| RESOURCE_EXHAUSTED
| FAILED_PRECONDITION
| UNIMPLEMENTED
| INTERNAL
| UNAVAILABLE.

Record Status := mkStatus { code : Code; error_message : string }.

Definition Status_OK : Status := mkStatus OK "".

Definition ok (s : Status) : bool :=
  match code s with OK => true | _ => false end.

Inductive StatusOr (A : Type) :=
| Value (a : A)
| Failure (s : Status).
Arguments Value {A} a.
Arguments Failure {A} s.

Definition statusor_ok {A} (r : StatusOr A) : bool :=
  match r with Value _ => true | Failure _ => false end.

(** [StatusOr<T>()] holds an UNKNOWN error until it is assigned. *)
Definition StatusOr_default {A} : StatusOr A := Failure (mkStatus UNKNOWN "").

Definition InvalidArgument (message : string) : Status :=
  mkStatus INVALID_ARGUMENT message.

Definition InternalError (message : string) : Status :=
  mkStatus INTERNAL message.

(** Modelled from the spec: [AppendStatus] (xla/util.cc) is not part of the
    file; the error keeps its code and the context is appended to the
    message ("annotated with which replica failed"). *)
Definition AppendStatus (prior : Status) (context : string) : Status :=
  mkStatus (code prior) (error_message prior +:+ ": " +:+ context).

(** ** Shapes and shape trees *)

Inductive PrimitiveType := PRED | S32 | S64 | F32 | F64.

(** A layout is its minor-to-major dimension order. *)
Definition Layout := list Z.

Inductive Shape :=
| ArrayShape (element_type : PrimitiveType) (dimensions : list Z)
             (layout : option Layout)
| TupleShape (tuple_shapes : list Shape).

Definition ShapeIndex := list nat.

Definition IsTuple (s : Shape) : bool :=
  match s with TupleShape _ => true | ArrayShape _ _ _ => false end.

Definition IsArray (s : Shape) : bool :=
  match s with ArrayShape _ _ _ => true | TupleShape _ => false end.

Definition has_layout (s : Shape) : bool :=
  match s with ArrayShape _ _ (Some _) => true | _ => false end.

Definition TupleElementCount (s : Shape) : nat :=
  match s with TupleShape ts => length ts | ArrayShape _ _ _ => 0%nat end.

Definition push_front (i : nat) (p : ShapeIndex * Shape) : ShapeIndex * Shape :=
  (i :: p.1, p.2).

(** [ShapeUtil::ForEachSubshape] visits the subshapes in pre-order; this is
    the list of its visits. *)
Fixpoint subshapes (s : Shape) : list (ShapeIndex * Shape) :=
  ([], s) ::
  match s with
  | ArrayShape _ _ _ => []
  | TupleShape ts =>
      (fix each (i : nat) (ts : list Shape) : list (ShapeIndex * Shape) :=
         match ts with
         | [] => []
         | t :: ts' => (push_front i <$> subshapes t) ++ each (S i) ts'
         end) 0%nat ts
  end.

Fixpoint subshapes_from (i : nat) (ts : list Shape) : list (ShapeIndex * Shape) :=
  match ts with
  | [] => []
  | t :: ts' => (push_front i <$> subshapes t) ++ subshapes_from (S i) ts'
  end.

Definition indices (s : Shape) : list ShapeIndex := (subshapes s).*1.

(** [ShapeUtil::GetSubshape(shape, {i})]. *)
Definition GetSubshape1 (s : Shape) (i : nat) : option Shape :=
  match s with TupleShape ts => ts !! i | ArrayShape _ _ _ => None end.

Record IndexedShape := mkIndexedShape { index : ShapeIndex; ishape : Shape }.

(** [ShapeUtil::GetLeafShapes]: the subshapes that are not tuples. *)
Definition GetLeafShapes (s : Shape) : list IndexedShape :=
  (λ p, mkIndexedShape p.1 p.2) <$> filter (λ p, IsTuple p.2 = false) (subshapes s).

(** [ShapeTree<T>] keeps its nodes in pre-order, each with its index. *)
Definition ShapeTree (T : Type) := list (ShapeIndex * T).

Definition ShapeTree_new {T} (s : Shape) (init : T) : ShapeTree T :=
  (λ p, (p.1, init)) <$> subshapes s.

Fixpoint element {T} (t : ShapeTree T) (i : ShapeIndex) : option T :=
  match t with
  | [] => None
  | (j, x) :: t' => if decide (j = i) then Some x else element t' i
  end.

(** [*t.mutable_element(i) = x] *)
Fixpoint set_element {T} (t : ShapeTree T) (i : ShapeIndex) (x : T) : ShapeTree T :=
  match t with
  | [] => []
  | (j, y) :: t' =>
      if decide (j = i) then (j, x) :: t' else (j, y) :: set_element t' i x
  end.

(** ** Device memory *)

Record DeviceMemoryBase := mkDeviceMemory { opaque : N; mem_size : N }.

(** [se::DeviceMemoryBase()] *)
Definition null_memory : DeviceMemoryBase := mkDeviceMemory 0 0.

Definition is_null (m : DeviceMemoryBase) : bool := (opaque m =? 0)%N.

Record ShapedBuffer := mkShapedBuffer {
  on_host_shape : Shape;
  on_device_shape : Shape;
  platform : string;
  device_ordinal : Z;
  buffers : ShapeTree DeviceMemoryBase;
}.

(** A [ScopedShapedBuffer] is a [ShapedBuffer] that owns its regions: they
    are given back to the allocator when it is destroyed. *)
Definition ScopedShapedBuffer := ShapedBuffer.

(** The addresses a buffer holds, in pre-order, null entries left out. *)
Definition regions (t : ShapeTree DeviceMemoryBase) : list N :=
  opaque <$> filter (λ m, is_null m = false) t.*2.

Definition set_buffer (b : ShapedBuffer) (m : DeviceMemoryBase) (i : ShapeIndex)
  : ShapedBuffer :=
  mkShapedBuffer (on_host_shape b) (on_device_shape b) (platform b)
                 (device_ordinal b) (set_element (buffers b) i m).

(** ** Host values *)

Record BorrowingLiteral := mkBorrowingLiteral {
  literal_shape : Shape;
  literal_data : list Z;
}.

Record PythonBufferTree := mkPythonBufferTree {
  shape : Shape;
  leaves : list BorrowingLiteral;
}.

(** A (possibly tuple-shaped) literal: its shape and its array leaves. *)
Record Literal := mkLiteral {
  lshape : Shape;
  lleaves : list BorrowingLiteral;
}.

(** ** The device world *)

Inductive StreamOp :=
| WriteTupleIndexTables (buffer : ShapedBuffer)
| WriteLiteral (literal : BorrowingLiteral) (dest : DeviceMemoryBase).

Inductive Event :=
| EvBorrowStream (ordinal : Z) (stream : nat)
| EvAllocate (ordinal : Z) (mem : DeviceMemoryBase)
| EvDeallocate (address : N)
| EvEnqueue (stream : nat) (op : StreamOp)
| EvBlockHostUntilDone (stream : nat)
| EvRun (ordinal : Z) (arguments : list ShapedBuffer).

Record World := mkWorld {
  next_address : N;                    (* allocator: the next fresh address *)
  next_stream : nat;                   (* stream pool: the next fresh stream *)
  live : gset N;                       (* regions currently allocated *)
  memory : gmap N (list Z);            (* contents of device memory *)
  pending : gmap nat (list StreamOp);  (* work enqueued on a stream, not yet done *)
  trace : list Event;                  (* what the host asked of the device *)
}.

Definition log (e : Event) (w : World) : World :=
  mkWorld (next_address w) (next_stream w) (live w) (memory w) (pending w)
          (trace w ++ [e]).

Definition pending_on (w : World) (stream : nat) : list StreamOp :=
  default [] (pending w !! stream).

(** ** Outcomes of a call *)

Inductive Exception := bad_optional_access | out_of_range | length_error.

Inductive Outcome (A : Type) :=
| Returns (a : A)
| Throws (e : Exception)
| Undefined
| Aborts (message : string)
| Blocks.
Arguments Returns {A} a.
Arguments Throws {A} e.
Arguments Undefined {A}.
Arguments Aborts {A} message.
Arguments Blocks {A}.

Definition M (A : Type) := World → Outcome (A * World).

Definition ret {A} (a : A) : M A := λ w, Returns (a, w).

Definition bind {A B} (m : M A) (k : A → M B) : M B :=
  λ w, match m w with
       | Returns (a, w') => k a w'
       | Throws e => Throws e
       | Undefined => Undefined
       | Aborts msg => Aborts msg
       | Blocks => Blocks
       end.

Notation "x <~ m ;; k" := (bind m (λ x, k))
  (at level 100, m at next level, right associativity).
Notation "m ;;; k" := (bind m (λ _, k))
  (at level 100, right associativity).

Definition modify (f : World → World) : M unit := λ w, Returns (tt, f w).

(** A failed [CHECK] inside the XLA libraries ends the process. *)
Definition check_failed {A} : M A := λ _, Aborts "Check failed".

(** ** The services behind [client->client()]

    The transfer manager, the allocator, the compiler and the placer are not
    part of the file: each is a parameter that decides what the service
    answers; what a granted request does to the [World] is written out
    below. *)

Record ExecutableBuildOptions := mkBuildOptions {
  result_layout : option Shape;
  num_replicas_option : Z;
}.

Record ExecutableRunOptions := mkRunOptions {
  run_device_ordinal : Z;
  run_device_assignment : list (list Z);
}.

Definition DeviceAssignment := list (list Z).

Record LocalExecutable := mkLocalExecutable {
  build_options : ExecutableBuildOptions;
  Run : list ShapedBuffer → ExecutableRunOptions → StatusOr ScopedShapedBuffer;
}.

Record ProgramShape := mkProgramShape {
  parameters : list Shape;
  program_result : Shape;
}.

Record XlaComputation := mkXlaComputation {
  GetProgramShape : StatusOr ProgramShape;
}.

Class LocalClient := {
  device_count : Z;
  client_platform : string;
  ChooseCompactLayoutForShape : Shape → StatusOr Shape;
  HostShapeToDeviceShape : Shape → Shape;
  GetByteSizeRequirement : Shape → N;
  allocation_status : Shape → Z → World → Status;
  tuple_tables_status : nat → ShapedBuffer → Status;
  transfer_status : nat → BorrowingLiteral → ShapedBuffer → Status;
  readback_status : ShapedBuffer → Status;
  client_Compile :
    XlaComputation → list Shape → ExecutableBuildOptions → StatusOr LocalExecutable;
  AssignDevices : Z → Z → StatusOr DeviceAssignment;
}.

(** The host-language side: flattening a Python value into a buffer tree and
    building a Python value from a literal (xla/python/types.cc). *)
Class HostLanguage := {
  PyObject : Type;
  GetPythonBufferTree : PyObject → StatusOr PythonBufferTree;
  LiteralToPython : Literal → StatusOr PyObject;
}.

(** ** Allocator, streams and transfers, as the file uses them *)

Section Device.
Context `{client : LocalClient}.

(** Modelled from the spec: [Backend::BorrowStream] is not part of the
    file; it "fails if the ordinal is out of range" and otherwise hands
    out a stream with no work on it. *)
Definition BorrowStream (ordinal : Z) : M (StatusOr nat) :=
  λ w,
    if decide (0 ≤ ordinal < device_count) then
      let s := next_stream w in
      Returns (Value s,
               mkWorld (next_address w) (S s) (live w) (memory w)
                       (<[s := []]> (pending w))
                       (trace w ++ [EvBorrowStream ordinal s]))
    else
      Returns (Failure (InvalidArgument
                 ("Invalid device ordinal " +:+ pretty ordinal)), w).

Definition allocate_region (ordinal : Z) (bytes : N) (w : World)
  : DeviceMemoryBase * World :=
  let m := mkDeviceMemory (N.succ (next_address w)) bytes in
  (m, mkWorld (N.succ (next_address w)) (next_stream w)
              ({[opaque m]} ∪ live w) (memory w) (pending w)
              (trace w ++ [EvAllocate ordinal m])).

Fixpoint allocate_nodes (ordinal : Z) (nodes : list (ShapeIndex * Shape))
         (w : World) : ShapeTree DeviceMemoryBase * World :=
  match nodes with
  | [] => ([], w)
  | (i, s) :: rest =>
      let '(m, w1) := allocate_region ordinal (GetByteSizeRequirement s) w in
      let '(t, w2) := allocate_nodes ordinal rest w1 in
      ((i, m) :: t, w2)
  end.

(** Modelled from the spec: [TransferManager::AllocateScopedShapedBuffer]
    is not part of the file; step (2) of the single transfer, "allocate a
    DeviceBuffer with that shape": one fresh region for every subshape of
    the device shape, unless the allocator refuses. *)
Definition AllocateScopedShapedBuffer (s : Shape) (ordinal : Z)
  : M (StatusOr ScopedShapedBuffer) :=
  λ w,
    let st := allocation_status s ordinal w in
    if ok st then
      let device_shape := HostShapeToDeviceShape s in
      let '(t, w') := allocate_nodes ordinal (subshapes device_shape) w in
      Returns (Value (mkShapedBuffer s device_shape client_platform ordinal t), w')
    else Returns (Failure st, w).

Definition deallocate (w : World) (a : N) : World :=
  mkWorld (next_address w) (next_stream w) (live w ∖ {[a]}) (memory w)
          (pending w) (trace w ++ [EvDeallocate a]).

(** [~ScopedShapedBuffer]: every region is given back once, also one that
    appears at several indices. *)
Definition destroy_ScopedShapedBuffer (b : ScopedShapedBuffer) (w : World)
  : World :=
  foldl deallocate w (remove_dups (regions (buffers b))).

Definition enqueue (stream : nat) (op : StreamOp) (w : World) : World :=
  mkWorld (next_address w) (next_stream w) (live w) (memory w)
          (<[stream := pending_on w stream ++ [op]]> (pending w))
          (trace w ++ [EvEnqueue stream op]).

(** Modelled from the spec: [TransferManager::WriteTupleIndexTablesAsync]
    is not part of the file; step (3), "write any internal index metadata
    needed for tuple structure", as work enqueued on the stream. *)
Definition WriteTupleIndexTablesAsync (stream : nat) (b : ShapedBuffer)
  : M Status :=
  λ w,
    let st := tuple_tables_status stream b in
    if ok st then Returns (st, enqueue stream (WriteTupleIndexTables b) w)
    else Returns (st, w).

(** Modelled from the spec: [TransferManager::TransferLiteralToDeviceAsync]
    is not part of the file; step (4), "submit an asynchronous copy of the
    corresponding leaf host value into the matching device memory
    region". *)
Definition TransferLiteralToDeviceAsync (stream : nat)
           (literal : BorrowingLiteral) (leaf : ShapedBuffer) : M Status :=
  λ w,
    let st := transfer_status stream literal leaf in
    if ok st then
      match element (buffers leaf) [] with
      | Some dest => Returns (st, enqueue stream (WriteLiteral literal dest) w)
      | None => Aborts "Check failed"
      end
    else Returns (st, w).

Definition apply_op (mem : gmap N (list Z)) (op : StreamOp) : gmap N (list Z) :=
  match op with
  | WriteTupleIndexTables _ => mem
  | WriteLiteral literal dest => <[opaque dest := literal_data literal]> mem
  end.

(** [stream->BlockHostUntilDone()]: the work enqueued on the stream has
    been done when the call returns. The device may do enqueued work at any
    time after it is enqueued; [memory] shows it from the moment the host
    has waited for it, which is the only moment at which the program knows
    it to be done. What a region holds while work on it is pending is not
    determined by the program, and no property below reads it. *)
Definition BlockHostUntilDone (stream : nat) : M unit :=
  λ w,
    Returns (tt,
             mkWorld (next_address w) (next_stream w) (live w)
                     (foldl apply_op (memory w) (pending_on w stream))
                     (<[stream := []]> (pending w))
                     (trace w ++ [EvBlockHostUntilDone stream])).

Fixpoint strip_base (base i : ShapeIndex) : option ShapeIndex :=
  match base, i with
  | [], _ => Some i
  | b :: base', j :: i' => if decide (b = j) then strip_base base' i' else None
  | _ :: _, [] => None
  end.

(** [ShapeTree::CopySubtreeFrom]: every element under [target_base] takes
    the value of the corresponding element of [other] under [source_base];
    [None] when [other] has no such element (a failed CHECK). *)
Fixpoint CopySubtreeFrom {T} (this other : ShapeTree T)
         (source_base target_base : ShapeIndex) : option (ShapeTree T) :=
  match this with
  | [] => Some []
  | (i, x) :: rest =>
      match strip_base target_base i with
      | None => cons (i, x) <$> CopySubtreeFrom rest other source_base target_base
      | Some suffix =>
          match element other (source_base ++ suffix) with
          | None => None
          | Some y =>
              cons (i, y) <$> CopySubtreeFrom rest other source_base target_base
          end
      end
  end.
End Device.

(** ** PyLocalBuffer and the transfer pipeline *)

(** [shaped_buffer_] is an [absl::optional]; [client_] is the ambient
    client. *)
Record PyLocalBuffer := mkPyLocalBuffer {
  shaped_buffer_ : option ScopedShapedBuffer;
}.

(** [PyLocalBuffer()], the element a sized vector is filled with: no
    buffer (and no client, which the record does not carry; the code
    overwrites these elements before it hands them out). *)
Definition PyLocalBuffer_default : PyLocalBuffer := mkPyLocalBuffer None.

Record H2DTransfer := mkH2DTransfer {
  h2d_tree : PythonBufferTree;
  h2d_stream : nat;
  h2d_buffer : StatusOr PyLocalBuffer;
}.

(** [static_cast<int>] of a [size_t]. *)
Definition static_cast_int (n : nat) : Z :=
  (Z.of_nat n + 2 ^ 31) mod 2 ^ 32 - 2 ^ 31.

Section Transfer.
Context `{client : LocalClient} `{host : HostLanguage}.

Definition destroy_PyLocalBuffer (b : PyLocalBuffer) (w : World) : World :=
  match shaped_buffer_ b with
  | Some sb => destroy_ScopedShapedBuffer sb w
  | None => w
  end.

Definition make_leaf (buffer : ScopedShapedBuffer) (indexed_shape : IndexedShape)
           (ordinal : Z) : option ShapedBuffer :=
  let device_shape := HostShapeToDeviceShape (ishape indexed_shape) in
  mkShapedBuffer (ishape indexed_shape) device_shape client_platform ordinal
    <$> CopySubtreeFrom (ShapeTree_new device_shape null_memory)
                        (buffers buffer) (index indexed_shape) [].

(** The loop over [ShapeUtil::GetLeafShapes(shape)], [it] running through
    [tree.leaves]. *)
Fixpoint transfer_leaves (stream : nat) (buffer : ScopedShapedBuffer)
         (ordinal : Z) (leaf_shapes : list IndexedShape)
         (it : list BorrowingLiteral) : M Status :=
  match leaf_shapes with
  | [] => ret Status_OK
  | indexed_shape :: rest =>
      match it with
      | [] => ret (InternalError "RET_CHECK failure: it != tree.leaves.end()")
      | literal :: it' =>
          match make_leaf buffer indexed_shape ordinal with
          | None => check_failed
          | Some leaf =>
              st <~ TransferLiteralToDeviceAsync stream literal leaf ;;
              if ok st then transfer_leaves stream buffer ordinal rest it'
              else ret st
          end
      end
  end.

Definition TransferHostToDeviceAsync (tree : PythonBufferTree) (ordinal : Z)
           (stream : nat) : M (StatusOr PyLocalBuffer) :=
  match ChooseCompactLayoutForShape (shape tree) with
  | Failure s => ret (Failure s)
  | Value compact =>
      r <~ AllocateScopedShapedBuffer compact ordinal ;;
      match r with
      | Failure s => ret (Failure s)
      | Value buffer =>
          st <~ WriteTupleIndexTablesAsync stream buffer ;;
          if ok st then
            st' <~ transfer_leaves stream buffer ordinal
                     (GetLeafShapes compact) (leaves tree) ;;
            if ok st' then ret (Value (mkPyLocalBuffer (Some buffer)))
            else (modify (destroy_ScopedShapedBuffer buffer) ;;;
                  ret (Failure st'))
          else (modify (destroy_ScopedShapedBuffer buffer) ;;;
                ret (Failure st))
      end
  end.

Definition FromPython (argument : PyObject) (ordinal : Z)
  : M (StatusOr PyLocalBuffer) :=
  match GetPythonBufferTree argument with
  | Failure s => ret (Failure s)
  | Value tree =>
      r <~ BorrowStream ordinal ;;
      match r with
      | Failure s => ret (Failure s)
      | Value stream =>
          b <~ TransferHostToDeviceAsync tree ordinal stream ;;
          match b with
          | Failure s => ret (Failure s)
          | Value buffer =>
              BlockHostUntilDone stream ;;; ret (Value buffer)
          end
      end
  end.

(** First loop of [FromPythonValues]: [transfers[i].tree]. *)
Fixpoint get_trees (arguments : list (PyObject * Z))
  : StatusOr (list PythonBufferTree) :=
  match arguments with
  | [] => Value []
  | a :: rest =>
      match GetPythonBufferTree a.1 with
      | Failure s => Failure s
      | Value tree =>
          match get_trees rest with
          | Failure s => Failure s
          | Value trees => Value (tree :: trees)
          end
      end
  end.

(** Second loop: [transfers[i].stream]. *)
Fixpoint borrow_streams (arguments : list (PyObject * Z))
  : M (StatusOr (list nat)) :=
  match arguments with
  | [] => ret (Value [])
  | a :: rest =>
      r <~ BorrowStream a.2 ;;
      match r with
      | Failure s => ret (Failure s)
      | Value stream =>
          rs <~ borrow_streams rest ;;
          match rs with
          | Failure s => ret (Failure s)
          | Value streams => ret (Value (stream :: streams))
          end
      end
  end.

(** [transfers[i].buffer = transfer_h2d(i)] *)
Definition transfer_h2d (arguments : list (PyObject * Z)) (i : nat)
           (transfers : list H2DTransfer) : M (list H2DTransfer) :=
  match transfers !! i, arguments !! i with
  | Some t, Some a =>
      r <~ TransferHostToDeviceAsync (h2d_tree t) a.2 (h2d_stream t) ;;
      ret (<[i := mkH2DTransfer (h2d_tree t) (h2d_stream t) r]> transfers)
  | _, _ => ret transfers
  end.

(** The transfers run one after the other in the order [schedule], the
    order in which the pool and the calling thread get to them. *)
Fixpoint run_transfers (arguments : list (PyObject * Z)) (schedule : list nat)
         (transfers : list H2DTransfer) : M (list H2DTransfer) :=
  match schedule with
  | [] => ret transfers
  | i :: rest =>
      transfers' <~ transfer_h2d arguments i transfers ;;
      run_transfers arguments rest transfers'
  end.

Fixpoint block_all (transfers : list H2DTransfer) : M unit :=
  match transfers with
  | [] => ret tt
  | t :: rest => BlockHostUntilDone (h2d_stream t) ;;; block_all rest
  end.

(** The buffers the transfers hold. *)
Definition held (transfers : list H2DTransfer) : list PyLocalBuffer :=
  omap (λ t, match h2d_buffer t with Value b => Some b | Failure _ => None end)
       transfers.

Definition destroy_all (bs : list PyLocalBuffer) (w : World) : World :=
  foldl (λ w b, destroy_PyLocalBuffer b w) w bs.

(** Last loop: [outputs[i]] takes [transfers[i].buffer]; at the first
    failure the call returns it, and [transfers] and [outputs] are
    destroyed with what they hold. *)
Fixpoint move_outputs (outputs : list PyLocalBuffer)
         (transfers : list H2DTransfer) : M (StatusOr (list PyLocalBuffer)) :=
  match transfers with
  | [] => ret (Value outputs)
  | t :: rest =>
      match h2d_buffer t with
      | Failure s =>
          modify (destroy_all (held rest)) ;;;
          modify (destroy_all outputs) ;;;
          ret (Failure s)
      | Value b => move_outputs (outputs ++ [b]) rest
      end
  end.

Definition FromPythonValues (arguments : list (PyObject * Z))
           (schedule : list nat) : M (StatusOr (list PyLocalBuffer)) :=
  let num_arguments := static_cast_int (length arguments) in
  if decide (num_arguments < 0) then λ _, Throws length_error
  else if decide (num_arguments = 0) then ret (Value [])
  else
    let arguments := take (Z.to_nat num_arguments) arguments in
    match get_trees arguments with
    | Failure s => ret (Failure s)
    | Value trees =>
        r <~ borrow_streams arguments ;;
        match r with
        | Failure s => ret (Failure s)
        | Value streams =>
            let transfers :=
              zip_with (λ tree stream, mkH2DTransfer tree stream StatusOr_default)
                       trees streams in
            transfers <~
              (if decide (num_arguments = 1)
               then transfer_h2d arguments 0 transfers
               else run_transfers arguments schedule transfers) ;;
            block_all transfers ;;;
            move_outputs [] transfers
        end
    end.
End Transfer.

(** ** The device buffer *)

Section Buffer.
Context `{client : LocalClient} `{host : HostLanguage}.

(** [&shaped_buffer_.value()]: [absl::optional::value] throws on an empty
    optional. *)
Definition shaped_buffer (this : PyLocalBuffer) : M ScopedShapedBuffer :=
  match shaped_buffer_ this with
  | Some sb => ret sb
  | None => λ _, Throws bad_optional_access
  end.

(** Moving out of the dereferenced optional does not look whether it holds a
    value: on an empty one the behaviour is undefined. The second component
    is the buffer after the call. *)
Definition Release (this : PyLocalBuffer)
  : M (ScopedShapedBuffer * PyLocalBuffer) :=
  match shaped_buffer_ this with
  | Some result => ret (result, mkPyLocalBuffer None)
  | None => λ _, Undefined
  end.

(** [PyLocalBuffer::shape()] *)
Definition PyLocalBuffer_shape (this : PyLocalBuffer) : M Shape :=
  sb <~ shaped_buffer this ;; ret (on_device_shape sb).

Fixpoint read_leaves (mem : gmap N (list Z)) (t : ShapeTree DeviceMemoryBase)
         (leaf_shapes : list IndexedShape) : option (list BorrowingLiteral) :=
  match leaf_shapes with
  | [] => Some []
  | l :: rest =>
      match element t (index l) with
      | None => None
      | Some m =>
          cons (mkBorrowingLiteral (ishape l) (default [] (mem !! opaque m)))
            <$> read_leaves mem t rest
      end
  end.

(** Modelled from the spec: [LocalClient::ShapedBufferToLiteral] is not
    part of the file; "this buffer's content is copied back into a host
    value tree": the literal has the buffer's host shape and, for every
    array leaf, what device memory holds at the leaf's region. *)
Definition ShapedBufferToLiteral (b : ShapedBuffer) : M (StatusOr Literal) :=
  λ w,
    let st := readback_status b in
    if ok st then
      match read_leaves (memory w) (buffers b) (GetLeafShapes (on_host_shape b)) with
      | Some ls => Returns (Value (mkLiteral (on_host_shape b) ls), w)
      | None => Aborts "Check failed"
      end
    else Returns (Failure st, w).

Definition ToPython (this : PyLocalBuffer) : M (StatusOr PyObject) :=
  sb <~ shaped_buffer this ;;
  r <~ ShapedBufferToLiteral sb ;;
  match r with
  | Failure s => ret (Failure s)
  | Value literal => ret (LiteralToPython literal)
  end.

(** The body handed to [ShapeUtil::ForEachSubshape(subshape, ...)] for tuple
    element [i], run over the visits of [subshape]: the region at
    [i :: index] of the tuple moves to [index] of the element's buffer and
    is cleared in the tuple. [None]: [mutable_element] was asked for an
    index the tree does not have (a failed CHECK). *)
Fixpoint move_subtree (i : nat) (visits : list (ShapeIndex * Shape))
         (shape_tree : ShapeTree DeviceMemoryBase) (child : ShapedBuffer)
  : option (ShapeTree DeviceMemoryBase * ShapedBuffer) :=
  match visits with
  | [] => Some (shape_tree, child)
  | (idx, _) :: rest =>
      let original := i :: idx in
      match element shape_tree original with
      | None => None
      | Some device_memory =>
          move_subtree i rest
            (set_element shape_tree original null_memory)
            (set_buffer child device_memory idx)
      end
  end.

(** The loop over the tuple elements, from element [i] on. *)
Fixpoint destructure_from (i : nat) (elements : list Shape)
         (platform_ : string) (ordinal : Z)
         (shape_tree : ShapeTree DeviceMemoryBase)
  : option (ShapeTree DeviceMemoryBase * list PyLocalBuffer) :=
  match elements with
  | [] => Some (shape_tree, [])
  | subshape :: rest =>
      match move_subtree i (subshapes subshape) shape_tree
              (mkShapedBuffer subshape subshape platform_ ordinal
                              (ShapeTree_new subshape null_memory)) with
      | None => None
      | Some (shape_tree', child) =>
          match destructure_from (S i) rest platform_ ordinal shape_tree' with
          | None => None
          | Some (final, results) =>
              Some (final, mkPyLocalBuffer (Some child) :: results)
          end
      end
  end.

Definition tuple_shapes_of (s : Shape) : list Shape :=
  match s with TupleShape ts => ts | ArrayShape _ _ _ => [] end.

(** The second component is the buffer after the call. When the call
    returns, [tuple_buffer] is destroyed with the regions it still holds.
    The message of the error ends, in the code, with the text of the shape
    ([ShapeUtil::HumanString], not part of the file), which is left out
    here. *)
Definition DestructureTuple (this : PyLocalBuffer)
  : M (StatusOr (list PyLocalBuffer) * PyLocalBuffer) :=
  tuple_shape <~ PyLocalBuffer_shape this ;;
  if negb (IsTuple tuple_shape) then
    ret (Failure (InvalidArgument
           "Attemped to destructure a PyLocalBuffer that did not have a tuple shape"),
         this)
  else
    _allocator <~ shaped_buffer this ;;
    released <~ Release this ;;
    let tuple_buffer := released.1 in
    match destructure_from 0 (tuple_shapes_of tuple_shape)
            (platform tuple_buffer) (device_ordinal tuple_buffer)
            (buffers tuple_buffer) with
    | None => check_failed
    | Some (shape_tree, results) =>
        modify (destroy_ScopedShapedBuffer
                  (mkShapedBuffer (on_host_shape tuple_buffer)
                                  (on_device_shape tuple_buffer)
                                  (platform tuple_buffer)
                                  (device_ordinal tuple_buffer) shape_tree)) ;;;
        ret (Value results, released.2)
    end.
End Buffer.

(** ** The executable *)

Record PyLocalExecutable := mkPyLocalExecutable {
  executable_ : LocalExecutable;
  device_assignment_ : DeviceAssignment;
}.

(** Modelled from the spec: [num_replicas()] is declared in local_client.h,
    which is not part of the file; it is "the executable's declared replica
    count", the one of its build options. *)
Definition num_replicas (this : PyLocalExecutable) : Z :=
  num_replicas_option (build_options (executable_ this)).

(** [device_assignment_(replica, computation)]; reading outside the array
    is undefined. *)
Definition device_assignment_at (a : DeviceAssignment) (replica computation : nat)
  : option Z :=
  row ← a !! replica; row !! computation.

(** An [int] compared with a [size_t] is converted to it. *)
Definition to_size_t (z : Z) : Z := z mod 2 ^ 64.

(** What the replicas share under [mu]; [results] is written by each
    replica at its own index. *)
Record Replicated := mkReplicated {
  results : list (StatusOr ScopedShapedBuffer);
  running : Z;
  failed : Z;
  first_failure_status : Status;
}.

(** What a worker does once its replica has run: it stores the result, and
    under the lock counts itself out and records a failure. *)
Definition account (st : Replicated) (replica : nat)
           (r : StatusOr ScopedShapedBuffer) : Replicated :=
  mkReplicated
    (<[replica := r]> (results st))
    (running st - 1)
    (if statusor_ok r then failed st else failed st + 1)
    (match r with
     | Value _ => first_failure_status st
     | Failure s => if decide (failed st = 0) then s else first_failure_status st
     end).

Definition replica_message (replica : nat) : string :=
  "while running replica " +:+ pretty replica +:+
  " of a replicated computation (other replicas may have failed as well).".

Section Executable.
Context `{client : LocalClient}.

(** [PyLocalClient::PyLocalClient] starts one worker thread per device. *)
Definition execute_threads_size : nat := Z.to_nat device_count.

Fixpoint shaped_buffers (handles : list PyLocalBuffer) : M (list ShapedBuffer) :=
  match handles with
  | [] => ret []
  | handle :: rest =>
      sb <~ shaped_buffer handle ;;
      sbs <~ shaped_buffers rest ;;
      ret (sb :: sbs)
  end.

(** [executable_->Run(argument_buffers, options)]: the answer is the
    executable's; a result owns its regions. *)
Definition run_executable (this : PyLocalExecutable)
           (argument_buffers : list ShapedBuffer) (options : ExecutableRunOptions)
  : M (StatusOr ScopedShapedBuffer) :=
  λ w,
    let r := Run (executable_ this) argument_buffers options in
    Returns (r,
             mkWorld (next_address w) (next_stream w)
                     (match r with
                      | Value sb => list_to_set (regions (buffers sb)) ∪ live w
                      | Failure _ => live w
                      end)
                     (memory w) (pending w)
                     (trace w ++ [EvRun (run_device_ordinal options) argument_buffers])).

Definition Execute (this : PyLocalExecutable)
           (argument_handles : list PyLocalBuffer) : M (StatusOr PyLocalBuffer) :=
  if decide (num_replicas this ≠ 1) then
    ret (Failure (InvalidArgument
           ("Attempted to execute computation with " +:+
            pretty (num_replicas this) +:+ " replicas using Execute()")))
  else
    match device_assignment_at (device_assignment_ this) 0 0 with
    | None => λ _, Undefined
    | Some ordinal =>
        argument_buffers <~ shaped_buffers argument_handles ;;
        result_buffer_status <~
          run_executable this argument_buffers
            (mkRunOptions ordinal (device_assignment_ this)) ;;
        match result_buffer_status with
        | Failure s => ret (Failure s)
        | Value sb => ret (Value (mkPyLocalBuffer (Some sb)))
        end
    end.

(** The [execute] closure of [ExecutePerReplica]. *)
Definition execute (this : PyLocalExecutable)
           (argument_handles : list (list PyLocalBuffer)) (replica : nat)
  : M (StatusOr ScopedShapedBuffer) :=
  match device_assignment_at (device_assignment_ this) replica 0 with
  | None => λ _, Undefined
  | Some ordinal =>
      match argument_handles !! replica with
      | None => λ _, Undefined
      | Some handles =>
          argument_buffers <~ shaped_buffers handles ;;
          run_executable this argument_buffers
            (mkRunOptions ordinal (device_assignment_ this))
      end
  end.

(** An exception that leaves the function of a worker thread ends the
    process. *)
Definition on_worker {A} (m : M A) : M A :=
  λ w, match m w with
       | Throws _ => Aborts "terminate called"
       | o => o
       end.

(** What replica [replica]'s worker runs: the execution, then the update
    of the shared state under the lock. *)
Definition replica_task (this : PyLocalExecutable)
           (argument_handles : list (list PyLocalBuffer)) (replica : nat)
           (st : Replicated) : M Replicated :=
  r <~ on_worker (execute this argument_handles replica) ;;
  ret (account st replica r).

(** The workers finish in the order [schedule]; a replica that is not in
    [schedule] does not finish in time. *)
Fixpoint run_replicas (this : PyLocalExecutable)
         (argument_handles : list (list PyLocalBuffer)) (schedule : list nat)
         (st : Replicated) : M Replicated :=
  match schedule with
  | [] => ret st
  | replica :: rest =>
      st' <~ replica_task this argument_handles replica st ;;
      run_replicas this argument_handles rest st'
  end.

(** [mu.Await(done_running_or_failed)], then, after a failure,
    [mu.AwaitWithTimeout(done_running, 10 s)] and [LOG(FATAL)]. *)
Definition await_replicas (st : Replicated) : M unit :=
  if decide (running st = 0 ∨ failed st > 0) then
    if decide (failed st > 0) then
      if decide (running st = 0) then ret tt
      else λ _, Aborts
             ("Replicated computation launch failed, but not all replicas " +:+
              "terminated. Aborting process to work around deadlock. Failure " +:+
              "message (there may have been multiple failures, see the " +:+
              "error log for all failures): 

" +:+
              error_message (first_failure_status st))
    else ret tt
  else λ _, Blocks.

(** The buffers that [results] still holds. *)
Definition held_results (rs : list (StatusOr ScopedShapedBuffer))
  : list ScopedShapedBuffer :=
  omap (λ r, match r with Value sb => Some sb | Failure _ => None end) rs.

Definition destroy_buffers (bs : list ScopedShapedBuffer) (w : World) : World :=
  foldl (λ w b, destroy_ScopedShapedBuffer b w) w bs.

(** The last loop: the results are wrapped in replica order; the first
    failure is returned, and what was wrapped and what [results] still
    holds is destroyed. *)
Fixpoint wrap_results (replica : nat) (wrapped : list PyLocalBuffer)
         (rs : list (StatusOr ScopedShapedBuffer))
  : M (StatusOr (list PyLocalBuffer)) :=
  match rs with
  | [] => ret (Value wrapped)
  | Failure s :: rest =>
      modify (destroy_all wrapped) ;;;
      modify (destroy_buffers (held_results rest)) ;;;
      ret (Failure (AppendStatus s (replica_message replica)))
  | Value sb :: rest =>
      wrap_results (S replica) (wrapped ++ [mkPyLocalBuffer (Some sb)]) rest
  end.

Definition ExecutePerReplica (this : PyLocalExecutable)
           (argument_handles : list (list PyLocalBuffer)) (schedule : list nat)
  : M (StatusOr (list PyLocalBuffer)) :=
  let num_devices := device_count in
  let size := Z.of_nat (length argument_handles) in
  if decide (size ≠ to_size_t (num_replicas this)) then
    ret (Failure (InvalidArgument
           ("Attempted to execute with " +:+ pretty size +:+
            " replicas when replica count is " +:+ pretty num_devices)))
  else if decide (size > to_size_t num_devices) then
    ret (Failure (InvalidArgument
           ("Attempted to execute with " +:+ pretty size +:+
            " replicas when device count is " +:+ pretty num_devices)))
  else if decide (num_replicas this < 0) then λ _, Throws length_error
  else
    let n := Z.to_nat (num_replicas this) in
    let results0 := replicate n (@StatusOr_default ScopedShapedBuffer) in
    rs <~
      (if decide (num_replicas this = 1) then
         r <~ execute this argument_handles 0 ;;
         ret (<[0%nat := r]> results0)
       else if decide (n ≤ execute_threads_size)%nat then
         st <~ run_replicas this argument_handles schedule
                 (mkReplicated results0 (num_replicas this) 0 Status_OK) ;;
         await_replicas st ;;;
         ret (results st)
       else λ _, Throws out_of_range) ;;
    wrap_results 0 [] rs.
End Executable.

(** ** Compilation *)

(** [LayoutUtil::SetToDefaultLayout] on an array: major-to-minor order. *)
Definition default_layout (dimensions : list Z) : Layout :=
  reverse (Z.of_nat <$> seq 0 (length dimensions)).

Fixpoint ClearLayout (s : Shape) : Shape :=
  match s with
  | ArrayShape ty dims _ => ArrayShape ty dims None
  | TupleShape ts => TupleShape (ClearLayout <$> ts)
  end.

(** [ExecutableBuildOptions()] *)
Definition ExecutableBuildOptions_default : ExecutableBuildOptions :=
  mkBuildOptions None 1.

Definition set_result_layout (options : ExecutableBuildOptions) (s : Shape)
  : ExecutableBuildOptions :=
  mkBuildOptions (Some s) (num_replicas_option options).

Section Compilation.
Context `{client : LocalClient}.

(** The visitor of [assign_layouts] on one subshape: the status it returns
    and the subshape as it leaves it. *)
Definition assign_layout (subshape : Shape) : Status * Shape :=
  match subshape with
  | ArrayShape ty dims None =>
      let defaulted := ArrayShape ty dims (Some (default_layout dims)) in
      match ChooseCompactLayoutForShape defaulted with
      | Value compact => (Status_OK, compact)
      | Failure s => (s, defaulted)
      end
  | _ => (Status_OK, subshape)
  end.

(** [assign_layouts]: [ShapeUtil::ForEachMutableSubshapeWithStatus] runs
    the visitor in pre-order and stops at the first error; the status and
    the shape as the traversal leaves it. (The layout service is taken to
    answer an array shape with an array shape.) *)
Fixpoint assign_layouts (s : Shape) : Status * Shape :=
  match s with
  | ArrayShape _ _ _ => assign_layout s
  | TupleShape ts =>
      let r :=
        (fix each (ts : list Shape) : Status * list Shape :=
           match ts with
           | [] => (Status_OK, [])
           | t :: rest =>
               let r := assign_layouts t in
               if ok r.1 then
                 let r' := each rest in (r'.1, r.2 :: r'.2)
               else (r.1, r.2 :: rest)
           end) ts in
      (r.1, TupleShape r.2)
  end.

(** [argument_layout_pointers] point into [argument_layouts]; the status
    that [assign_layouts] returns is not looked at. *)
Definition Compile (computation : XlaComputation) (argument_layouts : list Shape)
           (build_options : option ExecutableBuildOptions)
  : StatusOr PyLocalExecutable :=
  let argument_layouts := (λ layout, (assign_layouts layout).2) <$> argument_layouts in
  let options := default ExecutableBuildOptions_default build_options in
  match
    match result_layout options with
    | Some l => Value l
    | None =>
        match GetProgramShape computation with
        | Failure s => Failure s
        | Value program_shape => Value (ClearLayout (program_result program_shape))
        end
    end
  with
  | Failure s => Failure s
  | Value result_layout =>
      let result_layout := (assign_layouts result_layout).2 in
      let options := set_result_layout options result_layout in
      match client_Compile computation argument_layouts options with
      | Failure s => Failure s
      | Value local_executable =>
          match AssignDevices (num_replicas_option options) 1 with
          | Failure s => Failure s
          | Value device_assignment =>
              Value (mkPyLocalExecutable local_executable device_assignment)
          end
      end
  end.
End Compilation.

(** ** A small platform to run the definitions on *)

Fixpoint compact_layout (s : Shape) : Shape :=
  match s with
  | ArrayShape ty dims _ => ArrayShape ty dims (Some (default_layout dims))
  | TupleShape ts => TupleShape (compact_layout <$> ts)
  end.

Fixpoint valid_dimensions (s : Shape) : bool :=
  match s with
  | ArrayShape _ dims _ => forallb (λ d, 0 <=? d) dims
  | TupleShape ts => forallb valid_dimensions ts
  end.

Definition empty_world : World := mkWorld 0 0 ∅ ∅ ∅ [].

Definition scalar (ty : PrimitiveType) : Shape := ArrayShape ty [] None.

Definition vector_shape (ty : PrimitiveType) (n : Z) : Shape :=
  ArrayShape ty [n] None.

(** An executable whose run fails on device 1 and on device 3, and
    elsewhere answers with a scalar at address [100 + device]. *)
Definition example_Run (arguments : list ShapedBuffer)
           (options : ExecutableRunOptions) : StatusOr ScopedShapedBuffer :=
  let d := run_device_ordinal options in
  if decide (d = 1 ∨ d = 3) then
    Failure (mkStatus INTERNAL ("device " +:+ pretty d +:+ " failed"))
  else
    Value (mkShapedBuffer (scalar F32) (scalar F32) "Host" d
             [([], mkDeviceMemory (Z.to_N (100 + d)) 4)]).

Definition example_client : LocalClient := {|
  device_count := 4;
  client_platform := "Host";
  ChooseCompactLayoutForShape s :=
    if valid_dimensions s then Value (compact_layout s)
    else Failure (InvalidArgument "shape has a negative dimension");
  HostShapeToDeviceShape s := s;
  GetByteSizeRequirement _ := 8%N;
  allocation_status _ _ _ := Status_OK;
  tuple_tables_status _ _ := Status_OK;
  transfer_status _ _ _ := Status_OK;
  readback_status _ := Status_OK;
  client_Compile _ _ options := Value (mkLocalExecutable options example_Run);
  AssignDevices replicas _ :=
    Value ((λ r, [Z.of_nat r]) <$> seq 0 (Z.to_nat replicas));
|}.

(** The host language with buffer trees for values. *)
Definition example_host : HostLanguage := {|
  PyObject := PythonBufferTree;
  GetPythonBufferTree t := Value t;
  LiteralToPython l := Value (mkPythonBufferTree (lshape l) (lleaves l));
|}.

Definition example_executable (replicas : nat) : PyLocalExecutable :=
  mkPyLocalExecutable
    (mkLocalExecutable (mkBuildOptions None (Z.of_nat replicas)) example_Run)
    ((λ r, [Z.of_nat r]) <$> seq 0 replicas).

Definition good_tree : PythonBufferTree :=
  mkPythonBufferTree
    (TupleShape [vector_shape S32 2; scalar S32])
    [mkBorrowingLiteral (vector_shape S32 2) [7; 8];
     mkBorrowingLiteral (scalar S32) [9]].

Definition bad_tree : PythonBufferTree :=
  mkPythonBufferTree (vector_shape S32 (-1)) [mkBorrowingLiteral (vector_shape S32 (-1)) []].



Definition is_block (e : Event) : bool :=
  match e with EvBlockHostUntilDone _ => true | _ => false end.

Definition is_run (e : Event) : bool :=
  match e with EvRun _ _ => true | _ => false end.

(** ** Vocabulary of the properties *)

(** What [ExecutePerReplica] makes of the outcome of [Execute] on the same
    arguments. *)
Definition per_replica_of (o : Outcome (StatusOr PyLocalBuffer * World))
  : Outcome (StatusOr (list PyLocalBuffer) * World) :=
  match o with
  | Returns (Value b, w) => Returns (Value [b], w)
  | Returns (Failure s, w) =>
      Returns (Failure (AppendStatus s (replica_message 0)), w)
  | Throws e => Throws e
  | Undefined => Undefined
  | Aborts m => Aborts m
  | Blocks => Blocks
  end.

(** [Execute] and [ExecutePerReplica] "produce identical results": the same
    single buffer, the same error, or the same way of not returning. *)
Definition same_result (o1 : Outcome (StatusOr PyLocalBuffer * World))
           (o2 : Outcome (StatusOr (list PyLocalBuffer) * World)) : Prop :=
  match o1, o2 with
  | Returns (Value b, _), Returns (Value bs, _) => bs = [b]
  | Returns (Failure s, _), Returns (Failure s', _) => s = s'
  | Throws e, Throws e' => e = e'
  | Undefined, Undefined => True
  | Aborts m, Aborts m' => m = m'
  | Blocks, Blocks => True
  | _, _ => False
  end.

(** One replica, placed on device 1, where the example run fails. *)
Definition failing_executable : PyLocalExecutable :=
  mkPyLocalExecutable
    (mkLocalExecutable (mkBuildOptions None 1) example_Run) [[1]].

(** [this'] is [this] after it was released or destructured. *)
Definition consumed_by (this this' : PyLocalBuffer) : Prop :=
  (∃ w sb w', Release this w = Returns ((sb, this'), w'))
  ∨ (∃ w rs w', DestructureTuple this w = Returns ((Value rs, this'), w')).

(** A call "fails with an error": it throws, or returns an error status. *)
Definition throws {A} (o : Outcome A) : Prop := ∃ e, o = Throws e.

Definition fails_with_error {A} (o : Outcome (StatusOr A * World)) : Prop :=
  throws o ∨ ∃ s w, o = Returns (Failure s, w).

Definition intact_scalar : PyLocalBuffer :=
  mkPyLocalBuffer
    (Some (mkShapedBuffer (scalar F32) (scalar F32) "Host" 0
             [([], mkDeviceMemory 5 4)])).

Definition example_computation : XlaComputation :=
  mkXlaComputation (Value (mkProgramShape [vector_shape F32 (-1)] (scalar F32))).

(** The answer of a replica's run: the executable's, on the buffers of the
    replica's arguments and the replica's device. [None] when the replica has
    no device or no arguments, or an argument was consumed. *)
Definition replica_result (this : PyLocalExecutable)
           (argument_handles : list (list PyLocalBuffer)) (replica : nat)
  : option (StatusOr ScopedShapedBuffer) :=
  ordinal ← device_assignment_at (device_assignment_ this) replica 0;
  handles ← argument_handles !! replica;
  argument_buffers ← mapM shaped_buffer_ handles;
  Some (Run (executable_ this) argument_buffers
            (mkRunOptions ordinal (device_assignment_ this))).

(** The shared state once the replicas of [schedule] have finished. *)
Definition finished (this : PyLocalExecutable)
           (argument_handles : list (list PyLocalBuffer))
           (schedule : list nat) (st : Replicated) : Replicated :=
  foldl (λ st replica,
           account st replica
             (default StatusOr_default
                      (replica_result this argument_handles replica)))
        st schedule.

(** The host asked for a run on the replica's device. *)
Definition ran_on (this : PyLocalExecutable) (replica : nat) (w : World) : Prop :=
  ∃ ordinal argument_buffers,
    device_assignment_at (device_assignment_ this) replica 0 = Some ordinal
    ∧ EvRun ordinal argument_buffers ∈ trace w.

(** The host has asked of the device in [w'] what it had asked in [w], and
    possibly more. *)
Definition extends (w w' : World) : Prop := ∃ evs, trace w' = trace w ++ evs.

(** The buffers of the tuple elements, read off the nodes below the root of
    the tuple's tree: element after element, each with as many nodes as its
    shape has subshapes. *)
Fixpoint split_children (elements : list Shape) (platform_ : string) (ordinal : Z)
         (chunks : ShapeTree DeviceMemoryBase) : list ShapedBuffer :=
  match elements with
  | [] => []
  | s :: rest =>
      let n := length (subshapes s) in
      mkShapedBuffer s s platform_ ordinal
                     ((λ e, (tail e.1, e.2)) <$> take n chunks)
      :: split_children rest platform_ ordinal (drop n chunks)
  end.

Definition cleared (t : ShapeTree DeviceMemoryBase) : ShapeTree DeviceMemoryBase :=
  (λ e, (e.1, null_memory)) <$> t.

(** The regions a buffer owns. *)
Definition owned (b : PyLocalBuffer) : list N :=
  match shaped_buffer_ b with
  | Some sb => regions (buffers sb)
  | None => []
  end.

Definition example_tuple : PyLocalBuffer :=
  mkPyLocalBuffer
    (Some (mkShapedBuffer
             (TupleShape [vector_shape S32 2; scalar S32])
             (TupleShape [vector_shape S32 2; scalar S32]) "Host" 0
             [([], mkDeviceMemory 1 16);
              ([0%nat], mkDeviceMemory 2 8);
              ([1%nat], mkDeviceMemory 3 4)])).

(** From [w] to [w'] the host has enqueued [ops] on [stream] and has not
    waited for any stream: device memory is as it was. *)
Definition submits (stream : nat) (ops : list StreamOp) (w w' : World) : Prop :=
  memory w' = memory w
  ∧ next_stream w' = next_stream w
  ∧ (∀ k, pending_on w' k
          = if decide (k = stream) then pending_on w stream ++ ops
            else pending_on w k)
  ∧ ∃ evs, trace w' = trace w ++ evs ∧ Forall (λ e, is_block e = false) evs.

(** The writes that the loop over the leaves enqueues: leaf after leaf,
    the host value into the region at the leaf's index. *)
Fixpoint leaf_writes (t : ShapeTree DeviceMemoryBase)
         (leaf_shapes : list IndexedShape) (it : list BorrowingLiteral)
  : list StreamOp :=
  match leaf_shapes, it with
  | l :: leaf_shapes', literal :: it' =>
      match element t (index l) with
      | Some m => WriteLiteral literal m :: leaf_writes t leaf_shapes' it'
      | None => []
      end
  | _, _ => []
  end.

Definition scalar_tree : PythonBufferTree :=
  mkPythonBufferTree (scalar S32) [mkBorrowingLiteral (scalar S32) [9]].

(** The buffer and the world that [FromPython] leaves for [scalar_tree] on
    device 0, from the empty world. *)
Definition scalar_buffer : PyLocalBuffer :=
  mkPyLocalBuffer
    (Some (mkShapedBuffer (ArrayShape S32 [] (Some [])) (ArrayShape S32 [] (Some []))
                          "Host" 0 [([], mkDeviceMemory 1 8)])).

Definition scalar_world : World :=
  mkWorld 1 1 {[1%N]} {[1%N := [9]]} {[0%nat := []]}
    [EvBorrowStream 0 0;
     EvAllocate 0 (mkDeviceMemory 1 8);
     EvEnqueue 0 (WriteTupleIndexTables
                    (mkShapedBuffer (ArrayShape S32 [] (Some []))
                                    (ArrayShape S32 [] (Some [])) "Host" 0
                                    [([], mkDeviceMemory 1 8)]));
     EvEnqueue 0 (WriteLiteral (mkBorrowingLiteral (scalar S32) [9])
                               (mkDeviceMemory 1 8));
     EvBlockHostUntilDone 0].



(** The leaves of a host value tree are the array leaves of its shape. *)
Definition well_formed (t : PythonBufferTree) : Prop :=
  literal_shape <$> leaves t = ishape <$> GetLeafShapes (shape t).

(** Two array values are equal when they have the same shape, whatever its
    layout, and the same elements. *)
Definition same_array (a b : BorrowingLiteral) : Prop :=
  ClearLayout (literal_shape a) = ClearLayout (literal_shape b)
  ∧ literal_data a = literal_data b.

(** The literal is a value equal to the tree: the same shape up to layout,
    and equal leaves. *)
Definition same_value (t : PythonBufferTree) (l : Literal) : Prop :=
  ClearLayout (shape t) = ClearLayout (lshape l)
  ∧ Forall2 same_array (leaves t) (lleaves l).

(** What is read back for the leaves [leaf_shapes] after the literals [it]
    were written to them. *)
Definition read_back (leaf_shapes : list IndexedShape) (it : list BorrowingLiteral)
  : list BorrowingLiteral :=
  zip_with (λ l literal, mkBorrowingLiteral (ishape l) (literal_data literal))
           leaf_shapes it.

(** ** The rest of the file: the custom call registry, the client, the
    device ordinals *)

(** A [py::capsule]: its name, if it has one, and the pointer it holds. *)
Record capsule := mkCapsule {
  capsule_name : option string;
  capsule_pointer : N;
}.

Definition kName : string := "xla._CPU_CUSTOM_CALL_TARGET".

(** Modelled from the spec: [cpu::CustomCallTargetRegistry] is not part of
    the file; it is "a simple name→function-pointer table", and
    [Register] sets the entry of a name. *)
Definition Register (symbol : string) (address : N) (registry : gmap string N)
  : gmap string N :=
  <[symbol := address]> registry.

(** The registry is [CustomCallTargetRegistry::Global()]; an
    [absl::string_view] of a null name is empty. *)
Definition RegisterCpuCustomCallTarget (fn_name : string) (c : capsule)
           (registry : gmap string N) : Status * gmap string N :=
  if decide (default "" (capsule_name c) ≠ kName) then
    (InvalidArgument
       "Argument to RegisterCpuCustomCallTargetRegistry was not a xla._CPU_CUSTOM_CALL_TARGET capsule.",
     registry)
  else (Status_OK, Register fn_name (capsule_pointer c) registry).

Record Platform := mkPlatform {
  platform_name_ : string;
  VisibleDeviceCount : Z;
}.

(** [PlatformUtil::GetPlatform] and [ClientLibrary::GetOrCreateLocalClient]. *)
Class ClientLibrary := {
  GetPlatform : string → StatusOr Platform;
  GetOrCreateLocalClient : Platform → StatusOr LocalClient;
}.

Record PyLocalClient := mkPyLocalClient {
  client_ : LocalClient;
  execute_threads_ : list string;
}.

(** [PyLocalClient::PyLocalClient]: one worker thread for every device. *)
Definition PyLocalClient_new (client : LocalClient) : PyLocalClient :=
  mkPyLocalClient client
    ((λ _, "py_xla_execute") <$> seq 0 (Z.to_nat (@device_count client))).

(** [PyLocalClient::Get] *)
Definition Get `{ClientLibrary} (platform_name : string) : StatusOr PyLocalClient :=
  match GetPlatform platform_name with
  | Failure s => Failure s
  | Value platform =>
      if decide (VisibleDeviceCount platform ≤ 0) then
        Failure (InvalidArgument
                   ("Platform " +:+ platform_name +:+ " has no visible devices."))
      else
        match GetOrCreateLocalClient platform with
        | Failure s => Failure s
        | Value client => Value (PyLocalClient_new client)
        end
  end.

(** [PyLocalExecutable::DeviceOrdinals]: the device of computation 0 of
    every replica of the assignment; [None] when the assignment has no
    computation 0 (a read outside the array). *)
Definition DeviceOrdinals (this : PyLocalExecutable) : option (list Z) :=
  mapM (λ i, device_assignment_at (device_assignment_ this) i 0)
       (seq 0 (length (device_assignment_ this))).

(** Every array of the shape has a layout. *)
Fixpoint all_layouts (s : Shape) : bool :=
  match s with
  | ArrayShape _ _ layout => bool_decide (is_Some layout)
  | TupleShape ts => forallb all_layouts ts
  end.

(** The allocator has not handed out an address beyond [next_address]: what
    it hands out next is not allocated. *)
Definition allocator_fresh (w : World) : Prop :=
  ∀ a, a ∈ live w → (a ≤ next_address w)%N.

(** The tree of a buffer has one node for every subshape of the buffer's
    device shape, in pre-order. *)
Definition well_shaped (sb : ShapedBuffer) : Prop :=
  (buffers sb).*1 = indices (on_device_shape sb).

(** The regions that the buffers of a list own. *)
Definition all_owned (bs : list PyLocalBuffer) : list N := bs ≫= owned.

(** Since [w0] the buffers [bs] have been allocated and nothing else has
    changed hands: their regions are distinct, were handed out after [w0],
    and together with what was allocated in [w0] they are what is allocated
    in [w]. *)
Definition holding (w0 : World) (bs : list PyLocalBuffer) (w : World) : Prop :=
  allocator_fresh w0
  ∧ allocator_fresh w
  ∧ (next_address w0 ≤ next_address w)%N
  ∧ NoDup (all_owned bs)
  ∧ (∀ a, a ∈ all_owned bs → (next_address w0 < a ≤ next_address w)%N)
  ∧ live w = list_to_set (all_owned bs) ∪ live w0.

(** A host language in which a value need not be a buffer tree. *)
Definition partial_host : HostLanguage := {|
  PyObject := option PythonBufferTree;
  GetPythonBufferTree o :=
    match o with
    | Some t => Value t
    | None => Failure (InvalidArgument "not an array or a tuple")
    end;
  LiteralToPython l := Value (Some (mkPythonBufferTree (lshape l) (lleaves l)));
|}.



(** A library with the one platform "Host", of four devices. *)
Definition example_library : ClientLibrary := {|
  GetPlatform name :=
    if decide (name = "Host") then Value (mkPlatform "Host" 4)
    else Failure (mkStatus NOT_FOUND ("no platform " +:+ name));
  GetOrCreateLocalClient _ := Value example_client;
|}.

(** A tuple of a vector and a scalar with the leaf of the vector only. *)
Definition short_tree : PythonBufferTree :=
  mkPythonBufferTree
    (TupleShape [vector_shape S32 2; scalar S32])
    [mkBorrowingLiteral (vector_shape S32 2) [7; 8]].

(** Two replicas, on the devices 0 and 2. *)
Definition spread_executable : PyLocalExecutable :=
  mkPyLocalExecutable
    (mkLocalExecutable (mkBuildOptions None 2) example_Run) [[0]; [2]].


(** * Properties *)

(** ** Shapes and shape trees: indices and lookups *)

Lemma subshapes_tuple ts :
  subshapes (TupleShape ts) = ([], TupleShape ts) :: subshapes_from 0 ts.
Proof.
  reflexivity.
Qed.

Lemma Shape_induction (P : Shape → Prop) :
  (∀ ty dims layout, P (ArrayShape ty dims layout)) →
  (∀ ts, Forall P ts → P (TupleShape ts)) →
  ∀ s, P s.
Proof.
  intros Harray Htuple. fix IH 1. intros [ty dims layout | ts].
  - apply Harray.
  - apply Htuple. induction ts as [|t ts IHts]; constructor; [apply IH | apply IHts].
Qed.

Lemma push_front_indices i l : (push_front i <$> l).*1 = cons i <$> l.*1.
Proof. induction l as [|[k s] l IH]; csimpl; [done|]. by rewrite IH. Qed.

Lemma subshapes_from_cons i t ts :
  (subshapes_from i (t :: ts)).*1
  = (cons i <$> indices t) ++ (subshapes_from (S i) ts).*1.
Proof. simpl. by rewrite fmap_app, push_front_indices. Qed.

Lemma subshapes_from_heads ts : ∀ i k,
  k ∈ (subshapes_from i ts).*1 → ∃ j idx, k = j :: idx ∧ (i ≤ j)%nat.
Proof.
  induction ts as [|t ts IH]; intros i k Hk.
  - by apply elem_of_nil in Hk.
  - rewrite subshapes_from_cons in Hk. apply elem_of_app in Hk as [Hk | Hk].
    + apply list_elem_of_fmap in Hk as (idx & -> & _). by exists i, idx.
    + destruct (IH _ _ Hk) as (j & idx & -> & Hj). exists j, idx. split; [done|lia].
Qed.

Lemma NoDup_indices s : NoDup (indices s).
Proof.
  induction s as [ty dims layout | ts IH] using Shape_induction.
  - unfold indices. simpl. apply NoDup_singleton.
  - unfold indices. rewrite subshapes_tuple. simpl. apply NoDup_cons. split.
    + intros Hin. apply subshapes_from_heads in Hin as (j & idx & Hk & _). done.
    + generalize 0%nat. induction IH as [|t ts Ht _ IHts]; intros i.
      * apply NoDup_nil_2.
      * rewrite subshapes_from_cons. apply NoDup_app. split; [|split].
        -- apply NoDup_fmap; [|done]. by intros ?? [=].
        -- intros k Hk Hk'. apply list_elem_of_fmap in Hk as (idx & -> & _).
           apply subshapes_from_heads in Hk' as (j & idx' & [= <- _] & Hj). lia.
        -- apply IHts.
Qed.

Section ShapeTreeFacts.
Context {T : Type}.
Implicit Types t : ShapeTree T.

Lemma element_app_r t1 t2 k :
  k ∉ t1.*1 → element (t1 ++ t2) k = element t2 k.
Proof.
  induction t1 as [|[j x] t1 IH]; intros Hk; simpl; [done|].
  apply not_elem_of_cons in Hk as [Hne Hk]. simpl in Hne.
  rewrite decide_False by done. by apply IH.
Qed.

Lemma element_head t k x : element ((k, x) :: t) k = Some x.
Proof. simpl. by rewrite decide_True. Qed.

Lemma set_element_app_r t1 t2 k x :
  k ∉ t1.*1 → set_element (t1 ++ t2) k x = t1 ++ set_element t2 k x.
Proof.
  induction t1 as [|[j y] t1 IH]; intros Hk; simpl; [done|].
  apply not_elem_of_cons in Hk as [Hne Hk]. simpl in Hne.
  rewrite decide_False by done. by rewrite IH.
Qed.

Lemma set_element_head t k x y : set_element ((k, y) :: t) k x = (k, x) :: t.
Proof. simpl. by rewrite decide_True. Qed.
End ShapeTreeFacts.

Lemma regions_app t1 t2 : regions (t1 ++ t2) = regions t1 ++ regions t2.
Proof. unfold regions. by rewrite fmap_app, filter_app, fmap_app. Qed.

Lemma regions_values t1 t2 : t1.*2 = t2.*2 → regions t1 = regions t2.
Proof. unfold regions. by intros ->. Qed.

Lemma regions_cleared (t : ShapeTree DeviceMemoryBase) :
  regions ((λ p, (p.1, null_memory)) <$> t) = [].
Proof. induction t as [|[k m] t IH]; [done|]. exact IH. Qed.

(** ** The executable: argument checks and the single replica *)

Section ExecutableFacts.
Context `{client : LocalClient}.

Lemma to_size_t_id z : 0 ≤ z < 2 ^ 64 → to_size_t z = z.
Proof. intros Hz. unfold to_size_t. by apply Z.mod_small. Qed.

Lemma to_size_t_negative z : - 2 ^ 31 ≤ z < 0 → 2 ^ 63 ≤ to_size_t z.
Proof.
  intros Hz. unfold to_size_t.
  replace z with (z + 2 ^ 64 + (-1) * 2 ^ 64) by lia.
  rewrite Z.mod_add by lia. rewrite Z.mod_small; lia.
Qed.

(** C7. An argument list whose outer length is not the replica count, or
    exceeds the device count, is refused with InvalidArgument, and the
    world is as it was: nothing was asked of a device. The counts are
    [int]s, the device count is not negative, and the list is a vector. *)
Theorem ExecutePerReplica_checks_counts
        (this : PyLocalExecutable) (argument_handles : list (list PyLocalBuffer))
        (schedule : list nat) (w : World) :
  0 ≤ device_count →
  - 2 ^ 31 ≤ num_replicas this < 2 ^ 31 →
  Z.of_nat (length argument_handles) < 2 ^ 63 →
  Z.of_nat (length argument_handles) ≠ num_replicas this
  ∨ Z.of_nat (length argument_handles) > device_count →
  ∃ message,
    ExecutePerReplica this argument_handles schedule w
    = Returns (Failure (InvalidArgument message), w).
Proof.
  intros Hdev Hint Hsize Hbad. unfold ExecutePerReplica.
  destruct (decide (Z.of_nat (length argument_handles)
                    ≠ to_size_t (num_replicas this))) as [|Heq].
  { by eexists. }
  apply dec_stable in Heq.
  destruct (decide (Z.of_nat (length argument_handles)
                    > to_size_t device_count)) as [|Hle].
  { by eexists. }
  exfalso. destruct Hbad as [Hne | Hgt].
  - destruct (decide (num_replicas this < 0)) as [Hneg | Hpos].
    + pose proof (to_size_t_negative (num_replicas this)). lia.
    + rewrite to_size_t_id in Heq by lia. lia.
  - apply Hle. rewrite to_size_t_id; lia.
Qed.

(** C8, as the code has it. With one replica (and at least one device)
    [ExecutePerReplica] on the one argument list does what [Execute] does,
    on success with the same buffer as the only result; on failure the
    error is the one of [Execute] with the replica context appended to
    its message. With a replica count other than one [Execute] is refused
    with InvalidArgument. *)
Theorem Execute_single_replica
        (this : PyLocalExecutable) (argument_handles : list PyLocalBuffer)
        (schedule : list nat) (w : World) :
  1 ≤ device_count < 2 ^ 31 →
  (num_replicas this = 1 →
   ExecutePerReplica this [argument_handles] schedule w
   = per_replica_of (Execute this argument_handles w))
  ∧ (num_replicas this ≠ 1 →
     ∃ message,
       Execute this argument_handles w
       = Returns (Failure (InvalidArgument message), w)).
Proof.
  intros Hdev. split.
  - intros H1. unfold ExecutePerReplica, Execute. rewrite H1.
    rewrite !to_size_t_id by lia.
    change (length [argument_handles]) with 1%nat.
    destruct (decide (Z.of_nat 1 ≠ 1)) as [|_]; [lia|].
    destruct (decide (Z.of_nat 1 > device_count)) as [|_]; [lia|].
    destruct (decide (1 < 0)) as [|_]; [lia|].
    destruct (decide (1 = 1)) as [_|]; [|lia].
    destruct (decide (1 ≠ 1)) as [|_]; [lia|].
    unfold execute. simpl.
    destruct (device_assignment_at (device_assignment_ this) 0 0) as [ordinal|];
      [|reflexivity].
    unfold bind.
    destruct (shaped_buffers argument_handles w) as [[bs w1]| | | |];
      try reflexivity.
    unfold run_executable. simpl.
    destruct (Run (executable_ this) bs _); reflexivity.
  - intros Hne. unfold Execute.
    destruct (decide (num_replicas this ≠ 1)); [|done]. by eexists.
Qed.
End ExecutableFacts.

Lemma ExecutePerReplica_checks_counts_witness :
  ∃ message,
    @ExecutePerReplica example_client (example_executable 2) [[]; []; []]
                       [0; 1; 2]%nat empty_world
    = Returns (Failure (InvalidArgument message), empty_world).
Proof.
  apply (@ExecutePerReplica_checks_counts example_client (example_executable 2)
           [[]; []; []] [0; 1; 2]%nat empty_world).
  - simpl. lia.
  - unfold num_replicas. simpl. lia.
  - simpl. lia.
  - left. unfold num_replicas. simpl. lia.
Defined.

Lemma Execute_single_replica_witness :
  (num_replicas (example_executable 1) = 1 →
   @ExecutePerReplica example_client (example_executable 1) [[intact_scalar]] []
                      empty_world
   = per_replica_of (Execute (example_executable 1) [intact_scalar] empty_world))
  ∧ (num_replicas (example_executable 2) ≠ 1 →
     ∃ message,
       Execute (example_executable 2) [intact_scalar] empty_world
       = Returns (Failure (InvalidArgument message), empty_world)).
Proof.
  split.
  - apply (@Execute_single_replica example_client (example_executable 1)
             [intact_scalar] [] empty_world). simpl. lia.
  - apply (@Execute_single_replica example_client (example_executable 2)
             [intact_scalar] [] empty_world). simpl. lia.
Defined.

(** C8 as stated fails when the run fails: [Execute] returns the error of
    the run, [ExecutePerReplica] the same error with the replica context
    appended to its message. *)
Lemma single_replica_error_differs :
  num_replicas failing_executable = 1
  ∧ Execute failing_executable [] empty_world
    = Returns (Failure (mkStatus INTERNAL "device 1 failed"),
               log (EvRun 1 []) empty_world)
  ∧ @ExecutePerReplica example_client failing_executable [[]] [] empty_world
    = Returns (Failure (mkStatus INTERNAL
                 "device 1 failed: while running replica 0 of a replicated computation (other replicas may have failed as well)."),
               log (EvRun 1 []) empty_world)
  ∧ ¬ same_result
        (Execute failing_executable [] empty_world)
        (@ExecutePerReplica example_client failing_executable [[]] [] empty_world).
Proof.
  split; [reflexivity|]. split; [reflexivity|]. split; [reflexivity|].
  vm_compute. discriminate.
Qed.

(** ** The device buffer after it was released or destructured *)

Section ConsumedBuffer.
Context `{client : LocalClient} `{host : HostLanguage}.

Lemma Release_empties this w sb this' w' :
  Release this w = Returns ((sb, this'), w') → shaped_buffer_ this' = None.
Proof.
  unfold Release. destruct (shaped_buffer_ this); [|discriminate].
  unfold ret. by intros [= _ <- _].
Qed.

Lemma DestructureTuple_empties this w rs this' w' :
  DestructureTuple this w = Returns ((Value rs, this'), w') →
  shaped_buffer_ this' = None.
Proof.
  unfold DestructureTuple, PyLocalBuffer_shape, shaped_buffer, Release, bind.
  destruct (shaped_buffer_ this) as [sb|]; [|discriminate]. simpl.
  destruct (IsTuple (on_device_shape sb)); simpl; [|discriminate].
  destruct (destructure_from _ _ _ _ _) as [[t results]|]; [|discriminate].
  simpl. by intros [= _ <- _].
Qed.

Lemma consumed_by_empty this this' :
  consumed_by this this' → shaped_buffer_ this' = None.
Proof.
  intros [(w & sb & w' & H) | (w & rs & w' & H)].
  - by eapply Release_empties.
  - by eapply DestructureTuple_empties.
Qed.

(** C3, as the code has it. On a buffer that was released or destructured,
    [ToPython] and [DestructureTuple] do not return: [optional::value]
    throws [bad_optional_access]. [Release] checks nothing: it moves out of
    the empty optional, which is undefined behaviour, and it has no error
    to return. *)
Theorem consumed_buffer_use (this this' : PyLocalBuffer) (w : World) :
  consumed_by this this' →
  ToPython this' w = Throws bad_optional_access
  ∧ DestructureTuple this' w = Throws bad_optional_access
  ∧ Release this' w = Undefined.
Proof.
  intros Hc. apply consumed_by_empty in Hc.
  unfold ToPython, DestructureTuple, PyLocalBuffer_shape, shaped_buffer,
    Release, bind.
  by rewrite Hc.
Qed.
End ConsumedBuffer.

Lemma consumed_buffer_use_witness :
  @ToPython example_client example_host (mkPyLocalBuffer None) empty_world
  = Throws bad_optional_access
  ∧ DestructureTuple (mkPyLocalBuffer None) empty_world = Throws bad_optional_access
  ∧ Release (mkPyLocalBuffer None) empty_world = Undefined.
Proof.
  apply (@consumed_buffer_use example_client example_host intact_scalar
           (mkPyLocalBuffer None) empty_world).
  left. exists empty_world. eexists. eexists. reflexivity.
Defined.

(** C3 as stated fails for [Release]: on a released buffer a second
    [Release] is not an error, its behaviour is undefined. *)
Lemma second_Release_is_unchecked :
  consumed_by intact_scalar (mkPyLocalBuffer None)
  ∧ Release (mkPyLocalBuffer None) empty_world = Undefined
  ∧ ¬ throws (Release (mkPyLocalBuffer None) empty_world).
Proof.
  split.
  { left. exists empty_world. eexists. eexists. reflexivity. }
  split; [reflexivity|]. intros [e He]. discriminate He.
Qed.

(** ** Compilation and the layout service *)

(** C2. The code does not do what the claim says: the layout service refuses
    the argument layout (and the result layout), [assign_layouts] returns
    that error, and [Compile] goes on and returns an executable. *)
Theorem Compile_drops_layout_error :
  ok (@assign_layouts example_client (vector_shape F32 (-1))).1 = false
  ∧ statusor_ok
      (@Compile example_client example_computation [vector_shape F32 (-1)] None)
    = true
  ∧ statusor_ok
      (@Compile example_client example_computation []
         (Some (mkBuildOptions (Some (vector_shape F32 (-1))) 1)))
    = true.
Proof. repeat split; reflexivity. Qed.

(** ** The transfer pipeline *)

Section BatchFacts.
Context `{client : LocalClient} `{host : HostLanguage}.

(** C10. With no arguments [FromPythonValues] returns the empty vector and
    leaves the world as it was: no stream is borrowed and nothing is asked
    of a device. *)
Theorem FromPythonValues_empty (schedule : list nat) (w : World) :
  FromPythonValues [] schedule w = Returns (Value [], w).
Proof. reflexivity. Qed.
End BatchFacts.

(** ** Replicated execution *)

Section ReplicatedFacts.
Context `{client : LocalClient}.

Lemma extends_refl w : extends w w.
Proof. exists []. by rewrite app_nil_r. Qed.

Lemma extends_trans w1 w2 w3 : extends w1 w2 → extends w2 w3 → extends w1 w3.
Proof.
  intros [e1 H1] [e2 H2]. exists (e1 ++ e2). by rewrite H2, H1, app_assoc.
Qed.

Lemma extends_elem e w w' : extends w w' → e ∈ trace w → e ∈ trace w'.
Proof. intros [evs ->] He. apply elem_of_app. by left. Qed.

Lemma ran_on_extends this replica w w' :
  extends w w' → ran_on this replica w → ran_on this replica w'.
Proof.
  intros Hext (ordinal & bs & Hd & He). exists ordinal, bs.
  split; [done|]. by eapply extends_elem.
Qed.

Lemma deallocate_extends w a : extends w (deallocate w a).
Proof. by eexists. Qed.

Lemma destroy_ScopedShapedBuffer_extends b w :
  extends w (destroy_ScopedShapedBuffer b w).
Proof.
  unfold destroy_ScopedShapedBuffer.
  generalize (remove_dups (regions (buffers b))). intros l. revert w.
  induction l as [|a l IH]; intros w; simpl; [apply extends_refl|].
  eapply extends_trans; [apply deallocate_extends | apply IH].
Qed.

Lemma destroy_buffers_extends bs w : extends w (destroy_buffers bs w).
Proof.
  revert w. induction bs as [|b bs IH]; intros w; simpl; [apply extends_refl|].
  eapply extends_trans; [apply destroy_ScopedShapedBuffer_extends | apply IH].
Qed.

Lemma destroy_all_extends bs w : extends w (destroy_all bs w).
Proof.
  revert w. induction bs as [|b bs IH]; intros w; simpl; [apply extends_refl|].
  eapply extends_trans; [|apply IH].
  unfold destroy_PyLocalBuffer. destruct (shaped_buffer_ b);
    [apply destroy_ScopedShapedBuffer_extends | apply extends_refl].
Qed.

Lemma shaped_buffers_intact handles bs w :
  mapM shaped_buffer_ handles = Some bs →
  shaped_buffers handles w = Returns (bs, w).
Proof.
  revert bs. induction handles as [|h handles IH]; intros bs Hm.
  - by injection Hm as <-.
  - simpl in Hm. unfold shaped_buffers; fold shaped_buffers.
    unfold bind, shaped_buffer.
    destruct (shaped_buffer_ h) as [sb|]; [|done]. simpl in *.
    destruct (mapM shaped_buffer_ handles) as [sbs|]; [|done]. simpl in *.
    injection Hm as <-. by rewrite (IH sbs eq_refl).
Qed.

Lemma execute_replica_result this argument_handles replica r w :
  replica_result this argument_handles replica = Some r →
  ∃ w', execute this argument_handles replica w = Returns (r, w')
        ∧ extends w w' ∧ ran_on this replica w'.
Proof.
  unfold replica_result, execute. intros Hr.
  apply bind_Some in Hr as (ordinal & Hd & Hr).
  apply bind_Some in Hr as (handles & Hh & Hr).
  apply bind_Some in Hr as (bs & Hm & Hr).
  injection Hr as <-. rewrite Hd, Hh.
  unfold bind. rewrite (shaped_buffers_intact _ _ _ Hm).
  unfold run_executable. eexists. split; [reflexivity|]. split.
  - by eexists.
  - exists ordinal, bs. split; [done|]. simpl. apply elem_of_app. right.
    apply list_elem_of_singleton. reflexivity.
Qed.

Lemma replica_task_result this argument_handles replica r st w :
  replica_result this argument_handles replica = Some r →
  ∃ w', replica_task this argument_handles replica st w
        = Returns (account st replica r, w')
        ∧ extends w w' ∧ ran_on this replica w'.
Proof.
  intros Hr.
  destruct (execute_replica_result _ _ _ _ w Hr) as (w' & He & Hext & Hran).
  exists w'. unfold replica_task, bind, on_worker. by rewrite He.
Qed.

Lemma run_replicas_finished this argument_handles schedule st w :
  (∀ replica, replica ∈ schedule →
              is_Some (replica_result this argument_handles replica)) →
  ∃ w', run_replicas this argument_handles schedule st w
        = Returns (finished this argument_handles schedule st, w')
        ∧ extends w w'
        ∧ ∀ replica, replica ∈ schedule → ran_on this replica w'.
Proof.
  revert st w. induction schedule as [|i schedule IH]; intros st w Hall.
  - exists w. split; [done|]. split; [apply extends_refl|].
    intros replica Hin. by apply elem_of_nil in Hin.
  - destruct (Hall i) as [r Hr]; [by left|].
    destruct (replica_task_result _ _ _ _ st w Hr) as (w1 & Ht & Hext1 & Hran1).
    destruct (IH (account st i r) w1) as (w2 & Hrun & Hext2 & Hran2).
    { intros replica Hin. apply Hall. by right. }
    exists w2. split; [|split].
    + simpl. unfold bind. rewrite Ht. rewrite Hrun.
      unfold finished. simpl. by rewrite Hr.
    + by eapply extends_trans.
    + intros replica [->|Hin]%elem_of_cons.
      * by eapply ran_on_extends.
      * by apply Hran2.
Qed.

Lemma finished_snoc this argument_handles schedule i st :
  finished this argument_handles (schedule ++ [i]) st
  = account (finished this argument_handles schedule st) i
      (default StatusOr_default (replica_result this argument_handles i)).
Proof. unfold finished. by rewrite foldl_app. Qed.

Lemma finished_running this argument_handles schedule st :
  running (finished this argument_handles schedule st)
  = running st - Z.of_nat (length schedule).
Proof.
  induction schedule as [|i schedule IH] using rev_ind.
  - simpl. lia.
  - rewrite finished_snoc, length_app. simpl. lia.
Qed.

Lemma finished_failed_mono this argument_handles schedule st :
  failed st ≤ failed (finished this argument_handles schedule st).
Proof.
  induction schedule as [|i schedule IH] using rev_ind; [done|].
  rewrite finished_snoc. simpl. case (statusor_ok _); lia.
Qed.

Lemma finished_failed_pos this argument_handles schedule st k s :
  0 ≤ failed st → k ∈ schedule →
  replica_result this argument_handles k = Some (Failure s) →
  0 < failed (finished this argument_handles schedule st).
Proof.
  intros H0. induction schedule as [|i schedule IH] using rev_ind.
  - intros Hin. by apply elem_of_nil in Hin.
  - intros Hin Hk. rewrite finished_snoc. simpl.
    pose proof (finished_failed_mono this argument_handles schedule st).
    apply elem_of_app in Hin as [Hin | ->%list_elem_of_singleton].
    + specialize (IH Hin Hk). case (statusor_ok _); lia.
    + rewrite Hk. simpl. lia.
Qed.

Lemma finished_results_length this argument_handles schedule st :
  length (results (finished this argument_handles schedule st))
  = length (results st).
Proof.
  induction schedule as [|i schedule IH] using rev_ind; [done|].
  rewrite finished_snoc. simpl. by rewrite length_insert.
Qed.

Lemma finished_results_lookup this argument_handles schedule st j r :
  j ∈ schedule → (j < length (results st))%nat →
  replica_result this argument_handles j = Some r →
  results (finished this argument_handles schedule st) !! j = Some r.
Proof.
  intros Hin Hlt Hr. induction schedule as [|i schedule IH] using rev_ind.
  - by apply elem_of_nil in Hin.
  - rewrite finished_snoc. simpl. destruct (decide (i = j)) as [->|Hne].
    + rewrite Hr. simpl. apply list_lookup_insert_eq.
      by rewrite finished_results_length.
    + rewrite list_lookup_insert_ne by done. apply IH.
      apply elem_of_app in Hin as [Hin | Hin%list_elem_of_singleton]; [done|].
      congruence.
Qed.

Lemma foldl_deallocate_trace l w :
  trace (foldl deallocate w l) = trace w ++ (EvDeallocate <$> l).
Proof.
  revert w. induction l as [|a l IH]; intros w; simpl.
  - by rewrite app_nil_r.
  - rewrite IH. simpl. by rewrite <- app_assoc.
Qed.

Lemma destroy_ScopedShapedBuffer_deallocates b w a :
  a ∈ regions (buffers b) →
  EvDeallocate a ∈ trace (destroy_ScopedShapedBuffer b w).
Proof.
  intros Ha. unfold destroy_ScopedShapedBuffer. rewrite foldl_deallocate_trace.
  apply elem_of_app. right. apply list_elem_of_fmap. exists a.
  split; [done|]. by apply elem_of_remove_dups.
Qed.

Lemma destroy_buffers_deallocates bs w sb a :
  sb ∈ bs → a ∈ regions (buffers sb) →
  EvDeallocate a ∈ trace (destroy_buffers bs w).
Proof.
  intros Hin Ha. revert w. induction bs as [|b bs IH]; intros w.
  - by apply elem_of_nil in Hin.
  - simpl. apply elem_of_cons in Hin as [<- | Hin].
    + eapply extends_elem; [apply destroy_buffers_extends|].
      by apply destroy_ScopedShapedBuffer_deallocates.
    + by apply IH.
Qed.

Lemma destroy_all_deallocates bs w sb a :
  mkPyLocalBuffer (Some sb) ∈ bs → a ∈ regions (buffers sb) →
  EvDeallocate a ∈ trace (destroy_all bs w).
Proof.
  intros Hin Ha. revert w. induction bs as [|b bs IH]; intros w.
  - by apply elem_of_nil in Hin.
  - simpl. apply elem_of_cons in Hin as [<- | Hin].
    + eapply extends_elem; [apply destroy_all_extends|].
      by apply destroy_ScopedShapedBuffer_deallocates.
    + by apply IH.
Qed.

Lemma wrap_results_first_failure k :
  ∀ rs replica wrapped w s,
    rs !! k = Some (Failure s) →
    (∀ j, (j < k)%nat → ∃ sb, rs !! j = Some (Value sb)) →
    ∃ w', wrap_results replica wrapped rs w
          = Returns (Failure (AppendStatus s (replica_message (replica + k))), w')
          ∧ extends w w'
          ∧ ∀ sb a, mkPyLocalBuffer (Some sb) ∈ wrapped ∨ Value sb ∈ rs →
                    a ∈ regions (buffers sb) → EvDeallocate a ∈ trace w'.
Proof.
  induction k as [|k IH]; intros rs replica wrapped w s Hk Hbefore.
  - destruct rs as [|r rs]; [done|]. injection Hk as ->.
    rewrite Nat.add_0_r. simpl. unfold bind, modify. simpl.
    eexists. split; [reflexivity|]. split.
    { eapply extends_trans; [apply destroy_all_extends|apply destroy_buffers_extends]. }
    intros sb a [Hin | Hin] Ha.
    + eapply extends_elem; [apply destroy_buffers_extends|].
      by eapply destroy_all_deallocates.
    + apply elem_of_cons in Hin as [? | Hin]; [done|].
      eapply destroy_buffers_deallocates; [|done].
      unfold held_results. apply list_elem_of_omap. by exists (Value sb).
  - destruct (Hbefore 0%nat) as [sb0 Hsb]; [lia|].
    destruct rs as [|r rs]; [done|]. injection Hsb as ->. simpl.
    replace (replica + S k)%nat with (S replica + k)%nat by lia.
    destruct (IH rs (S replica) (wrapped ++ [mkPyLocalBuffer (Some sb0)]) w s)
      as (w' & Hw & Hext & Hfree); [done| |].
    { intros j Hj. apply (Hbefore (S j)). lia. }
    exists w'. split; [done|]. split; [done|].
    intros sb a Hin Ha. apply (Hfree sb a); [|done].
    destruct Hin as [Hin | Hin].
    + left. apply elem_of_app. by left.
    + apply elem_of_cons in Hin as [[= ->] | Hin].
      * left. apply elem_of_app. right. by apply list_elem_of_singleton.
      * by right.
Qed.

(** C5. Several replicas, all of which finish in time, in whatever order:
    the call returns the failure of the failing replica with the lowest
    index: its code, and its message followed by ": while running replica
    k of a replicated computation (other replicas may have failed as
    well).", with k the index of that replica. By then the host has run
    every replica, none is left running; the results of the replicas that
    did not fail were kept until then, and their regions are given back to
    the allocator as the call returns. *)
Theorem ExecutePerReplica_first_failure
        (this : PyLocalExecutable) (argument_handles : list (list PyLocalBuffer))
        (schedule : list nat) (w : World) (n k : nat) (s : Status) :
  num_replicas this = Z.of_nat n →
  (1 < n)%nat →
  length argument_handles = n →
  Z.of_nat n ≤ device_count < 2 ^ 31 →
  Permutation schedule (seq 0 n) →
  (∀ replica, (replica < n)%nat →
              is_Some (replica_result this argument_handles replica)) →
  replica_result this argument_handles k = Some (Failure s) →
  (∀ j, (j < k)%nat →
        ∃ sb, replica_result this argument_handles j = Some (Value sb)) →
  ∃ w',
    ExecutePerReplica this argument_handles schedule w
    = Returns (Failure
                 (mkStatus (code s)
                    (error_message s +:+ ": while running replica " +:+
                     pretty k +:+
                     " of a replicated computation (other replicas may have failed as well).")),
               w')
    ∧ (∀ replica, (replica < n)%nat → ran_on this replica w')
    ∧ (∀ replica sb a,
         replica_result this argument_handles replica = Some (Value sb) →
         a ∈ regions (buffers sb) → EvDeallocate a ∈ trace w').
Proof.
  intros Hn Hmulti Hlen Hdev Hperm Hall Hk Hbefore.
  change (mkStatus (code s) _) with (AppendStatus s (replica_message k)).
  assert (Hbound : ∀ replica r,
             replica_result this argument_handles replica = Some r →
             (replica < n)%nat).
  { intros replica r Hr. unfold replica_result in Hr.
    apply bind_Some in Hr as (? & _ & Hr).
    apply bind_Some in Hr as (? & Hh & _).
    apply lookup_lt_Some in Hh. lia. }
  assert (Hkn : (k < n)%nat) by (by eapply Hbound).
  assert (Hsched : ∀ replica, replica ∈ schedule ↔ (replica < n)%nat).
  { intros replica. rewrite Hperm, elem_of_seq. lia. }
  unfold ExecutePerReplica. rewrite Hn, Hlen.
  rewrite !to_size_t_id by lia.
  rewrite decide_False by lia. rewrite decide_False by lia.
  rewrite decide_False by lia. rewrite decide_False by lia.
  rewrite decide_True by (unfold execute_threads_size; lia).
  rewrite Nat2Z.id.
  set (st0 := mkReplicated _ _ _ _).
  destruct (run_replicas_finished this argument_handles schedule st0 w)
    as (w1 & Hrun & Hext1 & Hran).
  { intros replica Hin. apply Hall. by apply Hsched. }
  unfold bind at 1. unfold bind at 1. rewrite Hrun.
  set (st1 := finished this argument_handles schedule st0).
  assert (Hrunning : running st1 = 0).
  { unfold st1. rewrite finished_running. simpl.
    rewrite (Permutation_length Hperm), length_seq. lia. }
  assert (Hfailed : 0 < failed st1).
  { unfold st1. eapply finished_failed_pos; [simpl; lia| |exact Hk].
    by apply Hsched. }
  unfold bind, await_replicas.
  rewrite decide_True by lia. rewrite decide_True by lia.
  rewrite decide_True by lia. simpl.
  destruct (wrap_results_first_failure k (results st1) 0%nat [] w1 s)
    as (w2 & Hwrap & Hext2 & Hfree).
  { unfold st1. apply finished_results_lookup; [by apply Hsched| |done].
    simpl. by rewrite length_replicate. }
  { intros j Hj. destruct (Hbefore j Hj) as [sb Hsb]. exists sb.
    unfold st1. apply finished_results_lookup; [apply Hsched; lia| |done].
    simpl. rewrite length_replicate. lia. }
  exists w2. split; [exact Hwrap|]. split.
  - intros replica Hlt. eapply ran_on_extends; [exact Hext2|].
    apply Hran. by apply Hsched.
  - intros replica sb a Hr Ha. apply (Hfree sb a); [|done]. right.
    apply list_elem_of_lookup. exists replica. unfold st1.
    apply finished_results_lookup; [|simpl; rewrite length_replicate|done].
    + apply Hsched. by eapply Hbound.
    + by eapply Hbound.
Qed.
End ReplicatedFacts.

Lemma ExecutePerReplica_first_failure_witness :
  ∃ w',
    @ExecutePerReplica example_client (example_executable 4) [[]; []; []; []]
                       [3; 2; 0; 1]%nat empty_world
    = Returns (Failure
                 (mkStatus INTERNAL
                    "device 1 failed: while running replica 1 of a replicated computation (other replicas may have failed as well)."),
               w')
    ∧ (∀ replica, (replica < 4)%nat → ran_on (example_executable 4) replica w')
    ∧ (∀ replica sb a,
         replica_result (example_executable 4) [[]; []; []; []] replica
         = Some (Value sb) →
         a ∈ regions (buffers sb) → EvDeallocate a ∈ trace w').
Proof.
  apply (@ExecutePerReplica_first_failure example_client (example_executable 4)
           [[]; []; []; []] [3; 2; 0; 1]%nat empty_world 4 1
           (mkStatus INTERNAL "device 1 failed")).
  - reflexivity.
  - lia.
  - reflexivity.
  - simpl. lia.
  - apply (bool_decide_unpack _). vm_compute. exact I.
  - intros [|[|[|[|replica]]]] Hlt; [by eexists..|lia].
  - reflexivity.
  - intros [|j] Hlt; [by eexists|lia].
Defined.

(** ** Destructuring a tuple *)

Section Destructure.
Implicit Types t pre post chunk chunks : ShapeTree DeviceMemoryBase.

Lemma move_subtree_go i s p o visits :
  ∀ chunk pre post filled,
    chunk.*1 = cons i <$> visits.*1 →
    NoDup visits.*1 →
    (∀ k, k ∈ pre.*1 → k ∉ cons i <$> visits.*1) →
    (∀ k, k ∈ filled.*1 → k ∉ visits.*1) →
    move_subtree i visits (pre ++ chunk ++ post)
      (mkShapedBuffer s s p o
         (filled ++ ((λ v, (v.1, null_memory)) <$> visits)))
    = Some (pre ++ cleared chunk ++ post,
            mkShapedBuffer s s p o
              (filled ++ ((λ e, (tail e.1, e.2)) <$> chunk))).
Proof.
  induction visits as [|[idx sh] visits IH];
    intros chunk pre post filled Hkeys Hnodup Hpre Hfilled.
  - apply fmap_nil_inv in Hkeys as ->. reflexivity.
  - destruct chunk as [|[k m] chunk]; [done|].
    csimpl in Hkeys. injection Hkeys as -> Hkeys.
    csimpl in Hnodup. apply NoDup_cons in Hnodup as [Hidx Hnodup].
    assert (Hk : i :: idx ∉ pre.*1).
    { intros Hin. apply (Hpre _ Hin). csimpl. by left. }
    assert (Hf : idx ∉ filled.*1).
    { intros Hin. apply (Hfilled _ Hin). csimpl. by left. }
    cbn [move_subtree]. csimpl.
    rewrite (element_app_r pre _ _ Hk), element_head.
    rewrite (set_element_app_r pre _ _ _ Hk), set_element_head.
    unfold set_buffer. cbn [buffers on_host_shape on_device_shape platform
                             device_ordinal].
    rewrite (set_element_app_r filled _ _ _ Hf), set_element_head.
    rewrite (cons_middle _ pre), (cons_middle _ filled), !app_assoc.
    rewrite <- (app_assoc (pre ++ _) chunk post).
    rewrite IH; [|done|done| |].
    + unfold cleared. csimpl. f_equal. f_equal.
      * by rewrite <- !app_assoc.
      * f_equal. by rewrite <- !app_assoc.
    + intros k' Hin Hin'. rewrite fmap_app in Hin.
      apply elem_of_app in Hin as [Hin | Hin].
      * apply (Hpre _ Hin). csimpl. by right.
      * apply list_elem_of_singleton in Hin. simpl in Hin. subst k'.
        apply list_elem_of_fmap in Hin' as (idx' & [= <-] & Hin'). done.
    + intros k' Hin Hin'. rewrite fmap_app in Hin.
      apply elem_of_app in Hin as [Hin | Hin].
      * apply (Hfilled _ Hin). csimpl. by right.
      * apply list_elem_of_singleton in Hin. simpl in Hin. by subst k'.
Qed.

Lemma split_keys i s elements chunks :
  chunks.*1 = (subshapes_from i (s :: elements)).*1 →
  (length (subshapes s) ≤ length chunks)%nat
  ∧ (take (length (subshapes s)) chunks).*1 = cons i <$> (subshapes s).*1
  ∧ (drop (length (subshapes s)) chunks).*1 = (subshapes_from (S i) elements).*1.
Proof.
  intros Hkeys. rewrite subshapes_from_cons in Hkeys. unfold indices in Hkeys.
  assert (Hlen : (length (subshapes s) ≤ length chunks)%nat).
  { apply (f_equal length) in Hkeys.
    rewrite length_app, !length_fmap in Hkeys. lia. }
  split; [done|].
  rewrite <- (take_drop (length (subshapes s)) chunks), fmap_app in Hkeys.
  apply app_inj_1 in Hkeys; [done|].
  rewrite !length_fmap, length_take. lia.
Qed.

Lemma ShapeTree_new_nulls s :
  ShapeTree_new s null_memory = (λ v, (v.1, null_memory)) <$> subshapes s.
Proof. reflexivity. Qed.

Lemma destructure_from_split p o elements :
  ∀ i pre chunks,
    chunks.*1 = (subshapes_from i elements).*1 →
    (∀ k, k ∈ pre.*1 → ∀ j idx, k = j :: idx → (j < i)%nat) →
    destructure_from i elements p o (pre ++ chunks)
    = Some (pre ++ cleared chunks,
            (λ c, mkPyLocalBuffer (Some c)) <$> split_children elements p o chunks).
Proof.
  induction elements as [|s elements IH]; intros i pre chunks Hkeys Hpre.
  - apply fmap_nil_inv in Hkeys as ->. reflexivity.
  - apply split_keys in Hkeys as (Hlen & Hchunk & Hrest).
    cbn [destructure_from split_children].
    rewrite <- (take_drop (length (subshapes s)) chunks) at 1.
    rewrite ShapeTree_new_nulls.
    rewrite (move_subtree_go i s p o (subshapes s) _ pre _ []
               Hchunk (NoDup_indices s)).
    2:{ intros k Hin Hin'. apply list_elem_of_fmap in Hin' as (idx & -> & _).
        specialize (Hpre _ Hin i idx eq_refl). lia. }
    2:{ intros k Hin. by apply elem_of_nil in Hin. }
    rewrite app_assoc. rewrite IH; [| done |].
    + csimpl. f_equal. f_equal.
      rewrite <- app_assoc. f_equal. unfold cleared.
      rewrite <- fmap_app. by rewrite take_drop.
    + intros k Hin j idx ->. rewrite fmap_app in Hin.
      apply elem_of_app in Hin as [Hin | Hin].
      * specialize (Hpre _ Hin j idx eq_refl). lia.
      * unfold cleared in Hin. rewrite <- list_fmap_compose in Hin.
        change (fst ∘ _) with (@fst ShapeIndex DeviceMemoryBase) in Hin.
        rewrite Hchunk in Hin.
        apply list_elem_of_fmap in Hin as (idx' & [= -> _] & _). lia.
Qed.

Lemma split_children_shapes p o elements :
  ∀ chunks, on_device_shape <$> split_children elements p o chunks = elements.
Proof.
  induction elements as [|s elements IH]; intros chunks; csimpl; [done|].
  by rewrite IH.
Qed.

Lemma split_children_regions p o elements :
  ∀ i chunks,
    chunks.*1 = (subshapes_from i elements).*1 →
    concat ((λ c, regions (buffers c)) <$> split_children elements p o chunks)
    = regions chunks.
Proof.
  induction elements as [|s elements IH]; intros i chunks Hkeys.
  - by apply fmap_nil_inv in Hkeys as ->.
  - csimpl. rewrite <- (take_drop (length (subshapes s)) chunks) at 3.
    rewrite regions_app. f_equal.
    + apply regions_values. rewrite <- list_fmap_compose. done.
    + apply (IH (S i)). by apply split_keys in Hkeys as (_ & _ & Hrest).
Qed.
End Destructure.

Section DestructureFacts.

(** C6, as the code has it. An intact buffer of tuple shape whose tree has
    the nodes of its shape is destructured into one buffer per element, of
    the element's shape; the regions of the children, in order, are the
    regions of the parent other than the one at the root of the tuple,
    which is given back to the allocator as [tuple_buffer] is destroyed.
    So nothing leaks, and when the regions of the parent are distinct no
    two children share one. The parent is left consumed. *)
Theorem DestructureTuple_partition
        (this : PyLocalBuffer) (sb : ScopedShapedBuffer) (ts : list Shape)
        (w : World) :
  shaped_buffer_ this = Some sb →
  on_device_shape sb = TupleShape ts →
  (buffers sb).*1 = indices (TupleShape ts) →
  ∃ root chunks children,
    buffers sb = ([], root) :: chunks
    ∧ children = split_children ts (platform sb) (device_ordinal sb) chunks
    ∧ DestructureTuple this w
      = Returns ((Value ((λ c, mkPyLocalBuffer (Some c)) <$> children),
                  mkPyLocalBuffer None),
                 foldl deallocate w (regions [([], root)]))
    ∧ length children = length ts
    ∧ on_device_shape <$> children = ts
    ∧ regions (buffers sb)
      = regions [([], root)] ++ concat ((λ c, regions (buffers c)) <$> children)
    ∧ (NoDup (regions (buffers sb)) →
       NoDup (concat ((λ c, regions (buffers c)) <$> children))).
Proof.
  intros Hsome Hshape Hkeys.
  unfold indices in Hkeys. rewrite subshapes_tuple in Hkeys.
  destruct (buffers sb) as [|[k root] chunks] eqn:Hb; [done|].
  csimpl in Hkeys. injection Hkeys as -> Hkeys.
  exists root, chunks, (split_children ts (platform sb) (device_ordinal sb) chunks).
  assert (Hregions :
            concat ((λ c, regions (buffers c))
                      <$> split_children ts (platform sb) (device_ordinal sb) chunks)
            = regions chunks) by (by eapply split_children_regions).
  split; [done|]. split; [done|]. split; [|split; [|split; [|split]]].
  - unfold DestructureTuple, PyLocalBuffer_shape, shaped_buffer, Release, bind.
    rewrite Hsome. simpl. rewrite Hshape. simpl. rewrite Hb.
    rewrite (destructure_from_split _ _ ts 0 [([], root)] chunks Hkeys).
    2:{ intros k Hin j idx ->. apply list_elem_of_singleton in Hin. done. }
    unfold modify, ret. simpl. do 2 f_equal.
    unfold destroy_ScopedShapedBuffer. simpl. f_equal.
    change (([], root) :: cleared chunks) with ([([], root)] ++ cleared chunks).
    rewrite regions_app. unfold cleared. rewrite regions_cleared, app_nil_r.
    unfold regions. simpl. rewrite filter_cons, filter_nil.
    case_decide; reflexivity.
  - rewrite <- (length_fmap on_device_shape). by rewrite split_children_shapes.
  - apply split_children_shapes.
  - rewrite Hregions. by rewrite <- regions_app.
  - rewrite Hregions.
    change (([], root) :: chunks) with ([([], root)] ++ chunks).
    rewrite regions_app. intros Hnd. by apply NoDup_app in Hnd as (_ & _ & ?).
Qed.
End DestructureFacts.

Lemma DestructureTuple_partition_witness :
  ∃ root chunks children,
    [([], mkDeviceMemory 1 16); ([0%nat], mkDeviceMemory 2 8);
     ([1%nat], mkDeviceMemory 3 4)] = ([], root) :: chunks
    ∧ children = split_children [vector_shape S32 2; scalar S32] "Host" 0 chunks
    ∧ DestructureTuple example_tuple empty_world
      = Returns ((Value ((λ c, mkPyLocalBuffer (Some c)) <$> children),
                  mkPyLocalBuffer None),
                 foldl deallocate empty_world (regions [([], root)]))
    ∧ length children = 2%nat
    ∧ on_device_shape <$> children = [vector_shape S32 2; scalar S32]
    ∧ [1; 2; 3]%N
      = regions [([], root)] ++ concat ((λ c, regions (buffers c)) <$> children)
    ∧ (NoDup [1; 2; 3]%N →
       NoDup (concat ((λ c, regions (buffers c)) <$> children))).
Proof.
  apply (DestructureTuple_partition example_tuple _
           [vector_shape S32 2; scalar S32] empty_world eq_refl eq_refl eq_refl).
Defined.

(** C6 as stated fails at the root of the tuple: the parent owns the region
    of its index table, no child does, and it is given back to the
    allocator. *)
Lemma DestructureTuple_root_region :
  ∃ children this' w',
    DestructureTuple example_tuple empty_world
    = Returns ((Value children, this'), w')
    ∧ owned example_tuple = [1; 2; 3]%N
    ∧ concat (owned <$> children) = [2; 3]%N
    ∧ trace w' = [EvDeallocate 1].
Proof.
  eexists. eexists. eexists. split; [vm_compute; reflexivity|].
  repeat split; reflexivity.
Qed.

(** ** The transfer of one tree *)

Section TransferFacts.
Context `{client : LocalClient} `{host : HostLanguage}.

Lemma submits_refl stream w : submits stream [] w w.
Proof.
  split; [done|]. split; [done|]. split.
  - intros k. case_decide; [subst; by rewrite app_nil_r | done].
  - exists []. by rewrite app_nil_r.
Qed.

Lemma submits_trans stream ops1 ops2 w1 w2 w3 :
  submits stream ops1 w1 w2 → submits stream ops2 w2 w3 →
  submits stream (ops1 ++ ops2) w1 w3.
Proof.
  intros (Hm1 & Hs1 & Hp1 & e1 & Ht1 & Hq1) (Hm2 & Hs2 & Hp2 & e2 & Ht2 & Hq2).
  split; [congruence|]. split; [congruence|]. split.
  - intros k. rewrite Hp2. case_decide.
    + subst k. rewrite Hp1, decide_True by done. by rewrite app_assoc.
    + rewrite Hp1. by rewrite decide_False.
  - exists (e1 ++ e2). rewrite Ht2, Ht1, app_assoc. split; [done|].
    by apply Forall_app.
Qed.

Lemma submits_nothing stream w w' :
  memory w' = memory w → next_stream w' = next_stream w →
  pending w' = pending w →
  (∃ evs, trace w' = trace w ++ evs ∧ Forall (λ e, is_block e = false) evs) →
  submits stream [] w w'.
Proof.
  intros Hm Hs Hp Ht. split; [done|]. split; [done|]. split; [|done].
  intros k. unfold pending_on. rewrite Hp.
  case_decide; [subst; by rewrite app_nil_r | done].
Qed.

Lemma deallocate_submits stream w a : submits stream [] w (deallocate w a).
Proof.
  apply submits_nothing; try done. exists [EvDeallocate a]. split; [done|].
  by repeat constructor.
Qed.

Lemma destroy_ScopedShapedBuffer_submits stream b w :
  submits stream [] w (destroy_ScopedShapedBuffer b w).
Proof.
  unfold destroy_ScopedShapedBuffer.
  generalize (remove_dups (regions (buffers b))). intros l. revert w.
  induction l as [|a l IH]; intros w; simpl; [apply submits_refl|].
  change (@nil StreamOp) with (@nil StreamOp ++ []).
  eapply submits_trans; [apply deallocate_submits | apply IH].
Qed.

Lemma allocate_nodes_submits stream ordinal nodes :
  ∀ w t w', allocate_nodes ordinal nodes w = (t, w') → submits stream [] w w'.
Proof.
  induction nodes as [|[k s] nodes IH]; intros w t w' Ha; simpl in Ha.
  - injection Ha as <- <-. apply submits_refl.
  - destruct (allocate_nodes ordinal nodes _) as [t2 w2] eqn:H2.
    injection Ha as <- <-.
    change (@nil StreamOp) with (@nil StreamOp ++ []).
    eapply submits_trans; [|by eapply IH].
    apply submits_nothing; try done. eexists. split; [done|].
    by repeat constructor.
Qed.

Lemma enqueue_submits stream op w : submits stream [op] w (enqueue stream op w).
Proof.
  split; [done|]. split; [done|]. split.
  - intros k. unfold pending_on at 1. simpl. case_decide.
    + subst k. by rewrite lookup_insert_eq.
    + by rewrite lookup_insert_ne.
  - eexists. split; [done|]. by repeat constructor.
Qed.

Lemma make_leaf_root buffer l ordinal leaf :
  make_leaf buffer l ordinal = Some leaf →
  element (buffers leaf) [] = element (buffers buffer) (index l)
  ∧ is_Some (element (buffers buffer) (index l)).
Proof.
  unfold make_leaf. intros Hl. apply fmap_Some in Hl as (t & Hc & ->).
  unfold ShapeTree_new in Hc. simpl.
  destruct (subshapes (HostShapeToDeviceShape (ishape l))) as [|[k s] rest] eqn:Hs.
  { by destruct (HostShapeToDeviceShape (ishape l)). }
  assert (k = []) as ->.
  { destruct (HostShapeToDeviceShape (ishape l)); simpl in Hs; congruence. }
  csimpl in Hc. rewrite app_nil_r in Hc.
  destruct (element (buffers buffer) (index l)) as [y|]; [|done].
  apply fmap_Some in Hc as (t' & _ & ->). split; [|by eexists].
  reflexivity.
Qed.

Lemma transfer_leaves_submits stream buffer ordinal leaf_shapes :
  ∀ it w st w',
    transfer_leaves stream buffer ordinal leaf_shapes it w = Returns (st, w') →
    ∃ ops, submits stream ops w w'
           ∧ (ok st = true →
              (length leaf_shapes ≤ length it)%nat
              ∧ ops = leaf_writes (buffers buffer) leaf_shapes it
              ∧ Forall (λ l, is_Some (element (buffers buffer) (index l)))
                       leaf_shapes).
Proof.
  induction leaf_shapes as [|l leaf_shapes IH]; intros it w st w' Ht.
  - simpl in Ht. injection Ht as <- <-. exists []. split; [apply submits_refl|].
    intros _. split; [simpl; lia|]. split; [done|]. constructor.
  - destruct it as [|literal it].
    { simpl in Ht. injection Ht as <- <-. exists [].
      split; [apply submits_refl|]. intros Hok. discriminate Hok. }
    cbn [transfer_leaves] in Ht.
    destruct (make_leaf buffer l ordinal) as [leaf|] eqn:Hleaf; [|done].
    destruct (make_leaf_root _ _ _ _ Hleaf) as [Hroot [m Hm]].
    unfold bind, TransferLiteralToDeviceAsync in Ht.
    rewrite Hroot, Hm in Ht.
    destruct (ok (transfer_status stream literal leaf)) eqn:Hok.
    + rewrite Hok in Ht.
      destruct (IH _ _ _ _ Ht) as (ops & Hsub & Hops).
      exists ([WriteLiteral literal m] ++ ops). split.
      * eapply submits_trans; [apply enqueue_submits | exact Hsub].
      * intros Hst. destruct (Hops Hst) as (Hlen & -> & Hall).
        split; [simpl; lia|]. split; [simpl; by rewrite Hm|].
        constructor; [by eexists | done].
    + rewrite Hok in Ht. injection Ht as <- <-. exists [].
      split; [apply submits_refl|]. intros Hst. congruence.
Qed.

Lemma allocate_nodes_distinct ordinal nodes :
  ∀ w t w',
    allocate_nodes ordinal nodes w = (t, w') →
    t.*1 = nodes.*1
    ∧ (next_address w ≤ next_address w')%N
    ∧ (∀ m, m ∈ t.*2 → (next_address w < opaque m ≤ next_address w')%N)
    ∧ NoDup (opaque <$> t.*2).
Proof.
  induction nodes as [|[k s] nodes IH]; intros w t w' Ha; simpl in Ha.
  - injection Ha as <- <-. split; [done|]. split; [done|]. split.
    + intros m Hm. by apply elem_of_nil in Hm.
    + constructor.
  - destruct (allocate_nodes ordinal nodes _) as [t2 w2] eqn:H2.
    injection Ha as <- <-.
    destruct (IH _ _ _ H2) as (Hkeys & Hle & Hin & Hnd). simpl in Hle, Hin.
    split; [csimpl; by rewrite Hkeys|]. split; [lia|]. split.
    + intros m Hm. csimpl in Hm. apply elem_of_cons in Hm as [-> | Hm].
      * simpl. lia.
      * specialize (Hin m Hm). lia.
    + csimpl. apply NoDup_cons. split; [|done].
      intros Hm. apply list_elem_of_fmap in Hm as (m & Heq & Hm).
      specialize (Hin m Hm). lia.
Qed.

(** What the transfer of a tree has done when it returns: work was
    enqueued on the stream and not waited for; on success the buffer is
    the one allocated for the compact shape, its regions are distinct, and
    the work is the index tables and then the leaves. *)
Lemma TransferHostToDeviceAsync_submits tree ordinal stream w r w' :
  TransferHostToDeviceAsync tree ordinal stream w = Returns (r, w') →
  ∃ ops,
    submits stream ops w w'
    ∧ ∀ b, r = Value b →
           ∃ compact sb,
             ChooseCompactLayoutForShape (shape tree) = Value compact
             ∧ b = mkPyLocalBuffer (Some sb)
             ∧ on_host_shape sb = compact
             ∧ NoDup (opaque <$> (buffers sb).*2)
             ∧ (length (GetLeafShapes compact) ≤ length (leaves tree))%nat
             ∧ Forall (λ l, is_Some (element (buffers sb) (index l)))
                      (GetLeafShapes compact)
             ∧ ops = WriteTupleIndexTables sb
                     :: leaf_writes (buffers sb) (GetLeafShapes compact)
                                    (leaves tree).
Proof.
  unfold TransferHostToDeviceAsync.
  destruct (ChooseCompactLayoutForShape (shape tree)) as [compact|s] eqn:Hc.
  2:{ intros [= <- <-]. exists []. split; [apply submits_refl | done]. }
  unfold bind, AllocateScopedShapedBuffer. cbv zeta.
  destruct (ok (allocation_status compact ordinal w)).
  2:{ intros [= <- <-]. exists []. split; [apply submits_refl | done]. }
  destruct (allocate_nodes ordinal _ w) as [t w1] eqn:Ha.
  pose proof (allocate_nodes_submits stream _ _ _ _ _ Ha) as Hs1.
  destruct (allocate_nodes_distinct _ _ _ _ _ Ha) as (_ & _ & _ & Hnd).
  set (sb := mkShapedBuffer compact _ _ ordinal t).
  unfold WriteTupleIndexTablesAsync. cbv zeta.
  destruct (ok (tuple_tables_status stream sb)) eqn:Hok1; cbv iota beta;
    rewrite Hok1.
  2:{ unfold modify, ret. intros [= <- <-]. exists []. split; [|done].
      change (@nil StreamOp) with (@nil StreamOp ++ []).
      eapply submits_trans; [exact Hs1|].
      apply destroy_ScopedShapedBuffer_submits. }
  destruct (transfer_leaves stream sb ordinal (GetLeafShapes compact)
                            (leaves tree) _) as [[st w2]| | | |] eqn:Ht;
    try done.
  destruct (transfer_leaves_submits _ _ _ _ _ _ _ _ Ht) as (ops & Hs2 & Hops).
  pose proof (enqueue_submits stream (WriteTupleIndexTables sb) w1) as Hs0.
  destruct (ok st) eqn:Hok.
  - unfold ret. intros [= <- <-]. exists ([] ++ [WriteTupleIndexTables sb] ++ ops).
    split.
    + eapply submits_trans; [exact Hs1|]. eapply submits_trans; [exact Hs0|done].
    + intros b [= <-]. destruct (Hops eq_refl) as (Hlen & -> & Hall).
      by exists compact, sb.
  - unfold modify, ret. intros [= <- <-].
    exists ([] ++ [WriteTupleIndexTables sb] ++ ops ++ []). split; [|done].
    eapply submits_trans; [exact Hs1|]. eapply submits_trans; [exact Hs0|].
    eapply submits_trans; [exact Hs2|].
    apply destroy_ScopedShapedBuffer_submits.
Qed.

(** *** What a transfer asks of the device, event by event *)

Lemma allocate_nodes_trace ordinal nodes :
  ∀ w t w',
    allocate_nodes ordinal nodes w = (t, w') →
    trace w' = trace w ++ (EvAllocate ordinal <$> t.*2).
Proof.
  induction nodes as [|[k s] nodes IH]; intros w t w' Ha; simpl in Ha.
  - injection Ha as <- <-. by rewrite app_nil_r.
  - destruct (allocate_nodes ordinal nodes _) as [t2 w2] eqn:H2.
    injection Ha as <- <-. rewrite (IH _ _ _ H2). csimpl.
    by rewrite <- app_assoc.
Qed.

Lemma transfer_leaves_trace stream buffer ordinal leaf_shapes :
  ∀ it w st w',
    transfer_leaves stream buffer ordinal leaf_shapes it w = Returns (st, w') →
    ∃ ops, trace w' = trace w ++ (EvEnqueue stream <$> ops)
           ∧ (ok st = true →
              ops = leaf_writes (buffers buffer) leaf_shapes it).
Proof.
  induction leaf_shapes as [|l leaf_shapes IH]; intros it w st w' Ht.
  - simpl in Ht. injection Ht as <- <-. exists []. by rewrite app_nil_r.
  - destruct it as [|literal it].
    { simpl in Ht. injection Ht as <- <-. exists [].
      split; [by rewrite app_nil_r|]. intros Hok. discriminate Hok. }
    cbn [transfer_leaves] in Ht.
    destruct (make_leaf buffer l ordinal) as [leaf|] eqn:Hleaf; [|done].
    destruct (make_leaf_root _ _ _ _ Hleaf) as [Hroot [m Hm]].
    unfold bind, TransferLiteralToDeviceAsync in Ht.
    rewrite Hroot, Hm in Ht.
    destruct (ok (transfer_status stream literal leaf)) eqn:Hok.
    + rewrite Hok in Ht.
      destruct (IH _ _ _ _ Ht) as (ops & Htrace & Hops).
      exists (WriteLiteral literal m :: ops). split.
      * rewrite Htrace. simpl. by rewrite <- app_assoc.
      * intros Hst. rewrite (Hops Hst). simpl. by rewrite Hm.
    + rewrite Hok in Ht. injection Ht as <- <-. exists [].
      split; [by rewrite app_nil_r|]. intros Hst. congruence.
Qed.

(** When the layout of the tree is resolved and the allocator grants the
    buffer, the transfer allocates a region for every node of the device
    shape, then enqueues the index tables and the copies of the leaves, as
    far as the device accepts them, and on an error gives the regions
    back. *)
Lemma TransferHostToDeviceAsync_trace tree ordinal stream w r w' compact :
  TransferHostToDeviceAsync tree ordinal stream w = Returns (r, w') →
  ChooseCompactLayoutForShape (shape tree) = Value compact →
  ok (allocation_status compact ordinal w) = true →
  ∃ t ops frees,
    let sb := mkShapedBuffer compact (HostShapeToDeviceShape compact)
                             client_platform ordinal t in
    t.*1 = indices (HostShapeToDeviceShape compact)
    ∧ trace w' = trace w ++ (EvAllocate ordinal <$> t.*2)
                 ++ (EvEnqueue stream <$> ops) ++ (EvDeallocate <$> frees)
    ∧ (ok (tuple_tables_status stream sb) = true →
       ∃ ops', ops = WriteTupleIndexTables sb :: ops')
    ∧ (∀ b, r = Value b →
            b = mkPyLocalBuffer (Some sb)
            ∧ frees = []
            ∧ ops = WriteTupleIndexTables sb
                    :: leaf_writes t (GetLeafShapes compact) (leaves tree)).
Proof.
  unfold TransferHostToDeviceAsync. intros Ht Hc Hgranted. rewrite Hc in Ht.
  unfold bind, AllocateScopedShapedBuffer in Ht. cbv zeta in Ht.
  rewrite Hgranted in Ht.
  destruct (allocate_nodes ordinal _ w) as [t w1] eqn:Ha.
  pose proof (allocate_nodes_trace _ _ _ _ _ Ha) as Htrace1.
  destruct (allocate_nodes_distinct _ _ _ _ _ Ha) as (Hkeys & _).
  exists t. cbv zeta.
  set (sb := mkShapedBuffer compact _ _ ordinal t) in *.
  unfold WriteTupleIndexTablesAsync in Ht. cbv zeta in Ht.
  destruct (ok (tuple_tables_status stream sb)) eqn:Hok1; cbv iota beta in Ht;
    rewrite Hok1 in Ht.
  2:{ unfold modify, ret in Ht. injection Ht as <- <-.
      exists [], (remove_dups (regions t)). split; [exact Hkeys|]. split.
      - unfold destroy_ScopedShapedBuffer. rewrite foldl_deallocate_trace.
        rewrite Htrace1. simpl. by rewrite <- !app_assoc.
      - split; [done|]. intros b Hb. discriminate Hb. }
  destruct (transfer_leaves stream sb ordinal (GetLeafShapes compact)
                            (leaves tree) _) as [[st w2]| | | |] eqn:Hl;
    try done.
  destruct (transfer_leaves_trace _ _ _ _ _ _ _ _ Hl) as (ops & Htrace2 & Hops).
  simpl in Htrace2.
  destruct (ok st) eqn:Hok.
  - unfold ret in Ht. injection Ht as <- <-.
    exists (WriteTupleIndexTables sb :: ops), []. split; [exact Hkeys|]. split.
    + rewrite Htrace2, Htrace1. simpl. rewrite app_nil_r.
      by rewrite <- !app_assoc.
    + split; [by eexists|]. intros b [= <-]. by rewrite (Hops eq_refl).
  - unfold modify, ret in Ht. injection Ht as <- <-.
    exists (WriteTupleIndexTables sb :: ops), (remove_dups (regions t)).
    split; [exact Hkeys|]. split.
    + unfold destroy_ScopedShapedBuffer. rewrite foldl_deallocate_trace.
      rewrite Htrace2, Htrace1. simpl. by rewrite <- !app_assoc.
    + split; [by eexists|]. intros b Hb. discriminate Hb.
Qed.

(** C4, as the code has it. A transfer of one tree that succeeds borrows a
    stream; allocates the buffer, of the compact layout of the tree's shape
    and on the device asked for; enqueues on the stream the index tables
    and then the copy of every leaf, without waiting; and then waits for
    the stream before it returns that buffer. When the call returns, the
    last thing the host did was to block on the stream, and nothing is
    pending on it. *)
Theorem FromPython_waits (argument : PyObject) (ordinal : Z) (w w' : World)
        (b : PyLocalBuffer) :
  FromPython argument ordinal w = Returns (Value b, w') →
  ∃ tree compact sb evs,
    GetPythonBufferTree argument = Value tree
    ∧ ChooseCompactLayoutForShape (shape tree) = Value compact
    ∧ b = mkPyLocalBuffer (Some sb)
    ∧ on_host_shape sb = compact
    ∧ device_ordinal sb = ordinal
    ∧ trace w' = trace w ++ EvBorrowStream ordinal (next_stream w) :: evs
                 ++ [EvBlockHostUntilDone (next_stream w)]
    ∧ Forall (λ e, is_block e = false) evs
    ∧ evs = (EvAllocate ordinal <$> (buffers sb).*2)
            ++ (EvEnqueue (next_stream w)
                  <$> WriteTupleIndexTables sb
                      :: leaf_writes (buffers sb) (GetLeafShapes compact)
                                     (leaves tree))
    ∧ (length (GetLeafShapes compact) ≤ length (leaves tree))%nat
    ∧ Forall (λ l, is_Some (element (buffers sb) (index l)))
             (GetLeafShapes compact)
    ∧ pending_on w' (next_stream w) = [].
Proof.
  unfold FromPython.
  destruct (GetPythonBufferTree argument) as [tree|]; [|done].
  unfold bind, BorrowStream. case_decide; [|done].
  set (w1 := mkWorld _ _ _ _ _ _).
  destruct (TransferHostToDeviceAsync tree ordinal (next_stream w) w1)
    as [[[buffer|] w2]| | | |] eqn:Ht; try done.
  destruct (TransferHostToDeviceAsync_submits _ _ _ _ _ _ Ht)
    as (ops & (_ & _ & _ & evs & Htrace & Hquiet) & Hvalue).
  destruct (Hvalue buffer eq_refl)
    as (compact & sb & Hc & -> & Hhost & _ & Hlen & Hall & _).
  assert (Hgranted : ok (allocation_status compact ordinal w1) = true).
  { revert Ht. unfold TransferHostToDeviceAsync. rewrite Hc.
    unfold bind, AllocateScopedShapedBuffer. cbv zeta.
    by destruct (ok (allocation_status compact ordinal w1)). }
  destruct (TransferHostToDeviceAsync_trace _ _ _ _ _ _ _ Ht Hc Hgranted)
    as (t & ops' & frees & _ & Htrace' & _ & Hb).
  destruct (Hb _ eq_refl) as ([= ->] & -> & ->).
  intros [= <- <-]. exists tree, compact. eexists. exists evs.
  split; [done|]. split; [done|]. split; [reflexivity|]. split; [done|].
  split; [done|]. split; [|split; [done|split; [|split; [done|split; [done|]]]]].
  - simpl. rewrite Htrace. simpl. by rewrite <- !app_assoc.
  - rewrite Htrace in Htrace'. apply app_inv_head in Htrace'.
    rewrite Htrace'. simpl. by rewrite app_nil_r.
  - unfold pending_on. simpl. by rewrite lookup_insert_eq.
Qed.
End TransferFacts.

Lemma FromPython_waits_witness :
  ∃ tree compact sb evs,
    @GetPythonBufferTree example_host scalar_tree = Value tree
    ∧ @ChooseCompactLayoutForShape example_client (shape tree) = Value compact
    ∧ scalar_buffer = mkPyLocalBuffer (Some sb)
    ∧ on_host_shape sb = compact
    ∧ device_ordinal sb = 0
    ∧ trace scalar_world
      = trace empty_world ++ EvBorrowStream 0 (next_stream empty_world) :: evs
        ++ [EvBlockHostUntilDone (next_stream empty_world)]
    ∧ Forall (λ e, is_block e = false) evs
    ∧ evs = (EvAllocate 0 <$> (buffers sb).*2)
            ++ (EvEnqueue (next_stream empty_world)
                  <$> WriteTupleIndexTables sb
                      :: leaf_writes (buffers sb) (GetLeafShapes compact)
                                     (leaves tree))
    ∧ (length (GetLeafShapes compact) ≤ length (leaves tree))%nat
    ∧ Forall (λ l, is_Some (element (buffers sb) (index l)))
             (GetLeafShapes compact)
    ∧ pending_on scalar_world (next_stream empty_world) = [].
Proof.
  apply (@FromPython_waits example_client example_host scalar_tree 0 empty_world
           scalar_world scalar_buffer).
  vm_compute. reflexivity.
Defined.

(** C4 as stated fails: [FromPython] waits. When it returns, the host has
    blocked on the stream, nothing is pending on it, and the leaves are in
    device memory. *)
Lemma FromPython_blocks_before_returning :
  ∃ b w',
    @FromPython example_client example_host good_tree 0 empty_world
    = Returns (Value b, w')
    ∧ last (trace w') = Some (EvBlockHostUntilDone 0)
    ∧ pending_on w' 0 = []
    ∧ memory w' !! 2%N = Some [7; 8]
    ∧ memory w' !! 3%N = Some [9].
Proof.
  eexists. eexists. split; [vm_compute; reflexivity|].
  repeat split; reflexivity.
Qed.

(** ** The batch transfer: layout failures *)

Lemma static_cast_int_small n : Z.of_nat n < 2 ^ 31 → static_cast_int n = Z.of_nat n.
Proof.
  intros Hn. unfold static_cast_int.
  rewrite Z.mod_small by lia. lia.
Qed.

Lemma indices_leaf s : IsTuple s = false → indices s = [[]].
Proof. by destruct s. Qed.

Lemma GetLeafShapes_elem s l :
  l ∈ GetLeafShapes s → index l ∈ indices s ∧ IsTuple (ishape l) = false.
Proof.
  unfold GetLeafShapes, indices. intros Hl.
  apply list_elem_of_fmap in Hl as ([k s'] & -> & Hin).
  apply list_elem_of_filter in Hin as [Hleaf Hin]. simpl in *. split; [|done].
  apply list_elem_of_fmap. by exists (k, s').
Qed.

Lemma element_is_Some {T} (t : ShapeTree T) k : k ∈ t.*1 → is_Some (element t k).
Proof.
  induction t as [|[j x] t IH]; intros Hk; [by apply elem_of_nil in Hk|].
  simpl. case_decide; [by eexists|]. apply IH.
  csimpl in Hk. apply elem_of_cons in Hk as [->|]; done.
Qed.

Section BatchTransfer.
Context `{client : LocalClient} `{host : HostLanguage}.

(** The device shape of a host shape has its tuple structure. *)
Hypothesis device_shape_indices :
  ∀ s, indices (HostShapeToDeviceShape s) = indices s.

Lemma make_leaf_is_Some buffer l ordinal :
  IsTuple (ishape l) = false →
  is_Some (element (buffers buffer) (index l)) →
  ∃ leaf, make_leaf buffer l ordinal = Some leaf
          ∧ is_Some (element (buffers leaf) []).
Proof.
  intros Hleaf [m Hm]. unfold make_leaf, ShapeTree_new.
  pose proof (device_shape_indices (ishape l)) as Hi.
  rewrite (indices_leaf _ Hleaf) in Hi. unfold indices in Hi.
  destruct (subshapes (HostShapeToDeviceShape (ishape l)))
    as [|[k s] [|? ?]]; [done| |done].
  injection Hi as ->. csimpl. rewrite app_nil_r, Hm. csimpl.
  eexists. split; [done|]. simpl. by eexists.
Qed.



Lemma get_trees_length arguments trees :
  get_trees arguments = Value trees → length trees = length arguments.
Proof.
  revert trees. induction arguments as [|a arguments IH]; intros trees Hg.
  - by injection Hg as <-.
  - simpl in Hg. destruct (GetPythonBufferTree a.1); [|done].
    destruct (get_trees arguments) as [trees'|]; [|done].
    injection Hg as <-. simpl. by rewrite (IH trees').
Qed.




Lemma run_transfers_single arguments transfers w :
  run_transfers arguments [0%nat] transfers w
  = transfer_h2d arguments 0 transfers w.
Proof.
  cbn [run_transfers]. unfold bind.
  by destruct (transfer_h2d arguments 0 transfers w) as [[? ?]| | | |].
Qed.

Lemma block_all_pending transfers :
  ∀ w, ∃ w',
    block_all transfers w = Returns (tt, w')
    ∧ ∀ stream, (stream ∈ h2d_stream <$> transfers ∨ pending_on w stream = []) →
                pending_on w' stream = [].
Proof.
  induction transfers as [|t transfers IH]; intros w.
  - exists w. split; [done|]. intros stream [Hin | Hp]; [|done].
    by apply elem_of_nil in Hin.
  - cbn [block_all]. unfold bind, BlockHostUntilDone.
    set (w1 := mkWorld _ _ _ _ _ _).
    destruct (IH w1) as (w' & Hb & Hp). exists w'. split; [done|].
    intros stream Hs. apply Hp.
    destruct (decide (stream = h2d_stream t)) as [->|Hne].
    + right. unfold pending_on. simpl. by rewrite lookup_insert_eq.
    + destruct Hs as [Hin | Hs].
      * left. csimpl in Hin. apply elem_of_cons in Hin as [?|?]; done.
      * right. unfold pending_on in *. simpl. by rewrite lookup_insert_ne.
Qed.




(** *** Every transfer of the batch takes place *)









End BatchTransfer.



(** ** The round trip *)

Lemma filter_fmap_comm {A B} (f : A → B) (P : B → Prop) (Q : A → Prop)
      `{∀ x, Decision (P x)} `{∀ x, Decision (Q x)} (l : list A) :
  (∀ x, P (f x) ↔ Q x) → filter P (f <$> l) = f <$> filter Q l.
Proof.
  intros HPQ. induction l as [|x l IH]; [done|]. csimpl.
  rewrite !filter_cons. destruct (decide (P (f x))) as [HP | HP].
  - rewrite decide_True by (by apply HPQ). csimpl. by rewrite IH.
  - rewrite decide_False by (by rewrite <- HPQ). done.
Qed.

Lemma IsTuple_ClearLayout s : IsTuple (ClearLayout s) = IsTuple s.
Proof. by destruct s. Qed.

Lemma subshapes_ClearLayout s :
  subshapes (ClearLayout s) = (λ p, (p.1, ClearLayout p.2)) <$> subshapes s.
Proof.
  induction s as [ty dims layout | ts IH] using Shape_induction; [done|].
  change (ClearLayout (TupleShape ts)) with (TupleShape (ClearLayout <$> ts)).
  rewrite !subshapes_tuple. csimpl. f_equal. generalize 0%nat.
  induction IH as [|t ts Ht _ IHts]; intros i; [done|]. csimpl.
  rewrite fmap_app, IHts, Ht. f_equal.
  rewrite <- !list_fmap_compose. by apply list_fmap_ext.
Qed.

Lemma GetLeafShapes_ClearLayout s :
  ishape <$> GetLeafShapes (ClearLayout s)
  = (λ l, ClearLayout (ishape l)) <$> GetLeafShapes s.
Proof.
  unfold GetLeafShapes. rewrite subshapes_ClearLayout.
  rewrite (filter_fmap_comm _ _ (λ p, IsTuple p.2 = false)).
  2:{ intros [k x]. simpl. by rewrite IsTuple_ClearLayout. }
  rewrite <- !list_fmap_compose. by apply list_fmap_ext.
Qed.

Lemma leaf_indices_NoDup s : NoDup (index <$> GetLeafShapes s).
Proof.
  unfold GetLeafShapes. rewrite <- list_fmap_compose.
  apply (sublist_NoDup _ (indices s)); [apply NoDup_indices|].
  unfold indices. apply fmap_sublist. apply sublist_filter.
Qed.

Section ReadBack.
Implicit Types t : list (ShapeIndex * DeviceMemoryBase).

Lemma element_lookup t k m :
  element t k = Some m → ∃ pos, t !! pos = Some (k, m).
Proof.
  induction t as [|[j x] t IH]; [done|]. simpl. case_decide.
  - intros [= ->]. subst j. by exists 0%nat.
  - intros Hm. destruct (IH Hm) as [pos Hpos]. by exists (S pos).
Qed.

Lemma element_distinct t k1 k2 m1 m2 :
  NoDup (opaque <$> t.*2) → k1 ≠ k2 →
  element t k1 = Some m1 → element t k2 = Some m2 → opaque m1 ≠ opaque m2.
Proof.
  intros Hnd Hne H1 H2 Heq.
  apply element_lookup in H1 as [p1 H1]. apply element_lookup in H2 as [p2 H2].
  assert (p1 = p2) as ->.
  { apply (NoDup_lookup _ p1 p2 (opaque m1) Hnd).
    - by rewrite !list_lookup_fmap, H1.
    - rewrite !list_lookup_fmap, H2. simpl. by rewrite Heq. }
  congruence.
Qed.

Lemma foldl_apply_op_other ops : ∀ mem a,
  (∀ literal m, WriteLiteral literal m ∈ ops → opaque m ≠ a) →
  foldl apply_op mem ops !! a = mem !! a.
Proof.
  induction ops as [|op ops IH]; intros mem a Hother; [done|]. simpl.
  rewrite IH by (intros literal m Hin; apply (Hother literal m); by right).
  destruct op as [sb | literal m]; [done|]. simpl.
  apply lookup_insert_ne. apply (Hother literal m). by left.
Qed.

Lemma leaf_writes_dest t leaf_shapes : ∀ it literal m,
  WriteLiteral literal m ∈ leaf_writes t leaf_shapes it →
  ∃ l, l ∈ leaf_shapes ∧ element t (index l) = Some m.
Proof.
  induction leaf_shapes as [|l0 leaf_shapes IH]; intros it literal m Hin.
  - by apply elem_of_nil in Hin.
  - destruct it as [|lit0 it]; [by apply elem_of_nil in Hin|]. simpl in Hin.
    destruct (element t (index l0)) as [m0|] eqn:H0;
      [|by apply elem_of_nil in Hin].
    apply elem_of_cons in Hin as [[= -> ->] | Hin].
    + exists l0. split; [by left | done].
    + destruct (IH _ _ _ Hin) as (l & Hl & Hm). exists l. split; [by right|done].
Qed.

(** Reading the leaves after they were written gives back what was
    written, since the leaves have regions of their own. *)
Lemma read_after_writes t leaf_shapes :
  NoDup (opaque <$> t.*2) →
  NoDup (index <$> leaf_shapes) →
  Forall (λ l, is_Some (element t (index l))) leaf_shapes →
  ∀ it mem,
    (length leaf_shapes ≤ length it)%nat →
    read_leaves (foldl apply_op mem (leaf_writes t leaf_shapes it)) t leaf_shapes
    = Some (read_back leaf_shapes it).
Proof.
  intros Hnd. induction leaf_shapes as [|l0 leaf_shapes IH];
    intros Hidx Hall it mem Hlen; [done|].
  destruct it as [|lit0 it]; [simpl in Hlen; lia|].
  csimpl in Hidx. apply NoDup_cons in Hidx as [Hl0 Hidx].
  apply Forall_cons in Hall as [[m0 Hm0] Hall].
  simpl. rewrite Hm0. simpl.
  rewrite IH by (done || simpl in Hlen; lia).
  rewrite foldl_apply_op_other.
  - by rewrite lookup_insert_eq.
  - intros literal m Hin.
    apply leaf_writes_dest in Hin as (l & Hl & Hm).
    apply (element_distinct t (index l) (index l0) m m0 Hnd); [|done|done].
    intros Heq. apply Hl0. rewrite <- Heq. apply list_elem_of_fmap. by exists l.
Qed.
End ReadBack.

Section RoundTrip.
Context `{client : LocalClient} `{host : HostLanguage}.

Lemma read_back_same_value tree compact :
  well_formed tree →
  ClearLayout compact = ClearLayout (shape tree) →
  same_value tree
    (mkLiteral compact (read_back (GetLeafShapes compact) (leaves tree))).
Proof.
  intros Hwf Hc. split; [done|]. simpl.
  assert (Hshapes :
            (λ l, ClearLayout (ishape l)) <$> GetLeafShapes compact
            = (λ a, ClearLayout (literal_shape a)) <$> leaves tree).
  { rewrite <- GetLeafShapes_ClearLayout, Hc, GetLeafShapes_ClearLayout.
    rewrite (list_fmap_compose literal_shape ClearLayout), Hwf.
    by rewrite <- list_fmap_compose. }
  assert (Hlen : length (GetLeafShapes compact) = length (leaves tree)).
  { apply (f_equal length) in Hshapes. by rewrite !length_fmap in Hshapes. }
  apply Forall2_same_length_lookup. unfold read_back. split.
  - by rewrite length_zip_with_r_eq.
  - intros i a b Ha Hb.
    apply lookup_zip_with_Some in Hb as (l & a' & -> & Hl & Ha').
    assert (a' = a) as -> by congruence. split; [|done]. simpl.
    apply (f_equal (λ x, x !! i)) in Hshapes.
    rewrite !list_lookup_fmap, Hl, Ha in Hshapes. simpl in Hshapes.
    congruence.
Qed.

Lemma read_back_leaves tree :
  well_formed tree →
  read_back (GetLeafShapes (shape tree)) (leaves tree) = leaves tree.
Proof.
  unfold well_formed, read_back. generalize (GetLeafShapes (shape tree)).
  induction (leaves tree) as [|[s d] it IH]; intros ls Hwf.
  - by destruct ls.
  - destruct ls as [|l ls]; [done|]. csimpl in Hwf. injection Hwf as -> Hwf.
    simpl. by rewrite IH.
Qed.

(** Whatever buffer [FromPython] returned for a tree, [ToPython] reads from
    it the leaves of the tree, under the compact shape. *)
Lemma ToPython_after_FromPython
      (argument : PyObject) (tree : PythonBufferTree) (ordinal : Z)
      (w w' : World) (b : PyLocalBuffer) :
  GetPythonBufferTree argument = Value tree →
  (∀ sb, ok (readback_status sb) = true) →
  FromPython argument ordinal w = Returns (Value b, w') →
  ∃ compact,
    ChooseCompactLayoutForShape (shape tree) = Value compact
    ∧ ToPython b w'
      = Returns (LiteralToPython
                   (mkLiteral compact
                              (read_back (GetLeafShapes compact) (leaves tree))),
                 w').
Proof.
  intros Htree Hread. unfold FromPython. rewrite Htree.
  unfold bind, BorrowStream. case_decide; [|done].
  set (w1 := mkWorld _ _ _ _ _ _).
  destruct (TransferHostToDeviceAsync tree ordinal (next_stream w) w1)
    as [[[buffer|] w2]| | | |] eqn:Ht; try done.
  destruct (TransferHostToDeviceAsync_submits _ _ _ _ _ _ Ht)
    as (ops & (Hmem & _ & Hpending & _) & Hvalue).
  destruct (Hvalue buffer eq_refl)
    as (compact & sb & Hc & -> & Hhost & Hnd & Hlen & Hall & ->).
  intros [= <- <-]. exists compact. split; [done|].
  unfold ToPython, shaped_buffer, bind, ret, ShapedBufferToLiteral. simpl.
  rewrite Hread, Hhost. simpl.
  rewrite Hpending, decide_True by done. rewrite Hmem.
  assert (Hw1 : pending_on w1 (next_stream w) = []).
  { unfold pending_on, w1. simpl. by rewrite lookup_insert_eq. }
  rewrite Hw1. simpl.
  rewrite read_after_writes; [done|done|apply leaf_indices_NoDup|done|done].
Qed.

Lemma leaf_count tree compact :
  well_formed tree →
  ClearLayout compact = ClearLayout (shape tree) →
  length (GetLeafShapes compact) = length (leaves tree).
Proof.
  intros Hwf Hc.
  rewrite <- (length_fmap ishape), <- (length_fmap ClearLayout).
  rewrite <- list_fmap_compose.
  change (ClearLayout ∘ ishape) with (λ l, ClearLayout (ishape l)).
  rewrite <- GetLeafShapes_ClearLayout, Hc, GetLeafShapes_ClearLayout.
  rewrite !length_fmap, <- (length_fmap ishape), <- Hwf. by rewrite length_fmap.
Qed.

(** The device shape of a host shape has its tuple structure, and the
    device does what it is asked. *)
Hypothesis device_shape_indices :
  ∀ s, indices (HostShapeToDeviceShape s) = indices s.
Hypothesis allocation_granted : ∀ s ordinal w, ok (allocation_status s ordinal w) = true.
Hypothesis tuple_tables_written : ∀ stream sb, ok (tuple_tables_status stream sb) = true.
Hypothesis transfer_accepted :
  ∀ stream literal leaf, ok (transfer_status stream literal leaf) = true.

Lemma transfer_leaves_ok stream buffer ordinal leaf_shapes :
  Forall (λ l, IsTuple (ishape l) = false
               ∧ is_Some (element (buffers buffer) (index l))) leaf_shapes →
  ∀ it w, (length leaf_shapes ≤ length it)%nat →
          ∃ st w',
            transfer_leaves stream buffer ordinal leaf_shapes it w = Returns (st, w')
            ∧ ok st = true.
Proof.
  induction 1 as [|l leaf_shapes [Hleaf Hel] _ IH]; intros it w Hlen.
  - by eexists _, _.
  - destruct it as [|literal it]; [simpl in Hlen; lia|].
    cbn [transfer_leaves].
    destruct (make_leaf_is_Some device_shape_indices buffer l ordinal Hleaf Hel)
      as (leaf & -> & [m Hm]).
    unfold bind, TransferLiteralToDeviceAsync. cbv zeta.
    rewrite transfer_accepted, Hm. cbv iota beta. rewrite transfer_accepted.
    apply IH. simpl in Hlen. lia.
Qed.

Lemma TransferHostToDeviceAsync_succeeds tree compact ordinal stream w :
  ChooseCompactLayoutForShape (shape tree) = Value compact →
  (length (GetLeafShapes compact) ≤ length (leaves tree))%nat →
  ∃ b w', TransferHostToDeviceAsync tree ordinal stream w = Returns (Value b, w').
Proof.
  intros Hc Hlen. unfold TransferHostToDeviceAsync. rewrite Hc.
  unfold bind, AllocateScopedShapedBuffer. cbv zeta.
  rewrite allocation_granted.
  destruct (allocate_nodes ordinal _ w) as [t w1] eqn:Ha.
  destruct (allocate_nodes_distinct _ _ _ _ _ Ha) as (Hkeys & _).
  set (sb := mkShapedBuffer compact _ _ ordinal t).
  unfold WriteTupleIndexTablesAsync. cbv zeta.
  rewrite tuple_tables_written. cbv iota beta. rewrite tuple_tables_written.
  destruct (transfer_leaves_ok stream sb ordinal (GetLeafShapes compact))
    with (it := leaves tree)
         (w := enqueue stream (WriteTupleIndexTables sb) w1)
    as (st & w2 & -> & ->); [|done|by eexists _, _].
  apply Forall_forall. intros l Hl.
  apply GetLeafShapes_elem in Hl as [Hin Hleaf]. split; [done|].
  apply element_is_Some. simpl. rewrite Hkeys.
  fold (indices (HostShapeToDeviceShape compact)).
  by rewrite device_shape_indices.
Qed.

(** C9. For a well-formed host value tree and a valid device ordinal,
    [FromPython] returns a buffer, and [ToPython] on that buffer reads back
    a literal of equal value: the shape of the tree, in the compact layout
    that the layout service chose for it, with the leaves of the tree; where
    the tree already has that layout, the literal is the tree itself. That
    literal is what [ToPython] hands to the host language. The layout
    service is taken to choose layouts only, and the device to do what it
    is asked. *)
Theorem ToPython_FromPython
        (argument : PyObject) (tree : PythonBufferTree) (ordinal : Z)
        (w : World) :
  GetPythonBufferTree argument = Value tree →
  well_formed tree →
  0 ≤ ordinal < device_count →
  (∃ compact, ChooseCompactLayoutForShape (shape tree) = Value compact
              ∧ ClearLayout compact = ClearLayout (shape tree)) →
  (∀ sb, ok (readback_status sb) = true) →
  ∃ b w' literal,
    FromPython argument ordinal w = Returns (Value b, w')
    ∧ ToPython b w' = Returns (LiteralToPython literal, w')
    ∧ same_value tree literal
    ∧ (ChooseCompactLayoutForShape (shape tree) = Value (shape tree) →
       literal = mkLiteral (shape tree) (leaves tree)).
Proof.
  intros Htree Hwf Hordinal Hlayout Hread.
  destruct Hlayout as (compact & Hc & Hclear).
  assert (∃ b w', FromPython argument ordinal w = Returns (Value b, w'))
    as (b & w' & Hfrom).
  { unfold FromPython. rewrite Htree. unfold bind, BorrowStream.
    rewrite decide_True by done. set (w1 := mkWorld _ _ _ _ _ _).
    destruct (TransferHostToDeviceAsync_succeeds tree compact ordinal
                (next_stream w) w1 Hc) as (b & w2 & ->).
    { by rewrite (leaf_count tree compact). }
    by eexists _, _. }
  destruct (ToPython_after_FromPython argument tree ordinal w w' b)
    as (compact' & Hc' & Hto); try done.
  assert (compact' = compact) as -> by congruence.
  exists b, w', (mkLiteral compact (read_back (GetLeafShapes compact) (leaves tree))).
  split; [done|]. split; [done|]. split.
  - by apply read_back_same_value.
  - intros Hsame. assert (compact = shape tree) as -> by congruence.
    by rewrite read_back_leaves.
Qed.
End RoundTrip.

Lemma ToPython_FromPython_witness :
  ∃ b w' literal,
    @FromPython example_client example_host good_tree 0 empty_world
    = Returns (Value b, w')
    ∧ @ToPython example_client example_host b w'
      = Returns (@LiteralToPython example_host literal, w')
    ∧ same_value good_tree literal
    ∧ (@ChooseCompactLayoutForShape example_client (shape good_tree)
       = Value (shape good_tree) →
       literal = mkLiteral (shape good_tree) (leaves good_tree)).
Proof.
  apply (@ToPython_FromPython example_client example_host
           (λ s, eq_refl) (λ _ _ _, eq_refl) (λ _ _, eq_refl) (λ _ _ _, eq_refl)
           good_tree good_tree 0 empty_world).
  - reflexivity.
  - reflexivity.
  - simpl. lia.
  - eexists. split; reflexivity.
  - reflexivity.
Defined.

(** * Further properties of the file *)

#[local] Set Warnings "-clear-no-such-hyp".

(** ** The custom call registry and the client *)

(** X1. A capsule under another name, or without a name, is refused with
    InvalidArgument and the registry stays as it is; a capsule under the
    expected name is registered: the function name then resolves to the
    capsule's pointer, also when it was registered before, and no other name
    changes. *)
Theorem RegisterCpuCustomCallTarget_checks_name
        (fn_name : string) (c : capsule) (registry : gmap string N) :
  (capsule_name c ≠ Some kName →
   ∃ message,
     RegisterCpuCustomCallTarget fn_name c registry
     = (InvalidArgument message, registry))
  ∧ (capsule_name c = Some kName →
     ∃ registry',
       RegisterCpuCustomCallTarget fn_name c registry = (Status_OK, registry')
       ∧ registry' !! fn_name = Some (capsule_pointer c)
       ∧ ∀ other, other ≠ fn_name → registry' !! other = registry !! other).
Proof.
  unfold RegisterCpuCustomCallTarget. split.
  - intros Hname. rewrite decide_True; [by eexists|].
    destruct (capsule_name c) as [name|]; simpl; [congruence|done].
  - intros ->. eexists. split; [reflexivity|]. unfold Register. split.
    + apply lookup_insert_eq.
    + intros other Hne. by apply lookup_insert_ne.
Qed.

(** X2. [Get] returns a client only for a platform that was found and has
    at least one visible device, and the client has one worker thread for
    every device of the local client. *)
Theorem Get_visible_devices `{ClientLibrary} (platform_name : string)
        (c : PyLocalClient) :
  Get platform_name = Value c →
  ∃ platform,
    GetPlatform platform_name = Value platform
    ∧ 0 < VisibleDeviceCount platform
    ∧ GetOrCreateLocalClient platform = Value (client_ c)
    ∧ length (execute_threads_ c) = @execute_threads_size (client_ c).
Proof.
  unfold Get. destruct (GetPlatform platform_name) as [platform|]; [|done].
  case_decide; [done|].
  destruct (GetOrCreateLocalClient platform) as [client|] eqn:Hc; [|done].
  intros [= <-]. exists platform. split; [done|]. split; [lia|].
  split; [exact Hc|].
  unfold execute_threads_size. simpl. by rewrite length_fmap, length_seq.
Qed.

(** ** Error paths of the buffer and the executable *)

(** X11. Destructuring an intact buffer that is not of tuple shape is refused
    with InvalidArgument; the buffer is still intact and nothing was asked
    of the device. *)
Theorem DestructureTuple_not_a_tuple
        (this : PyLocalBuffer) (sb : ScopedShapedBuffer) (w : World) :
  shaped_buffer_ this = Some sb →
  IsTuple (on_device_shape sb) = false →
  ∃ message,
    DestructureTuple this w = Returns ((Failure (InvalidArgument message), this), w).
Proof.
  intros Hsb Hshape.
  unfold DestructureTuple, PyLocalBuffer_shape, shaped_buffer, bind.
  rewrite Hsb. simpl. rewrite Hshape. simpl. by eexists.
Qed.

Lemma shaped_buffers_consumed handles w :
  (∃ h, h ∈ handles ∧ shaped_buffer_ h = None) →
  shaped_buffers handles w = Throws bad_optional_access.
Proof.
  intros (h & Hin & Hnone). induction handles as [|h0 handles IH].
  - by apply elem_of_nil in Hin.
  - simpl. unfold bind, shaped_buffer.
    destruct (shaped_buffer_ h0) as [sb|] eqn:H0; [|done]. simpl.
    rewrite IH; [done|]. apply elem_of_cons in Hin as [-> | Hin]; [congruence|done].
Qed.

Lemma shaped_buffers_outcome handles w :
  (∃ bs, shaped_buffers handles w = Returns (bs, w))
  ∨ shaped_buffers handles w = Throws bad_optional_access.
Proof.
  induction handles as [|h handles IH]; [left; by eexists|].
  simpl. unfold bind, shaped_buffer.
  destruct (shaped_buffer_ h) as [sb|]; [|by right]. simpl.
  destruct IH as [[bs ->] | ->]; [left; by eexists | by right].
Qed.

(** X14. [Execute] with an argument that was released or destructured throws
    [bad_optional_access] when it collects the argument buffers, before the
    executable is run. *)
Theorem Execute_consumed_argument
        (this : PyLocalExecutable) (argument_handles : list PyLocalBuffer)
        (w : World) :
  num_replicas this = 1 →
  is_Some (device_assignment_at (device_assignment_ this) 0 0) →
  (∃ h, h ∈ argument_handles ∧ shaped_buffer_ h = None) →
  Execute this argument_handles w = Throws bad_optional_access.
Proof.
  intros H1 [ordinal Hd] Hconsumed. unfold Execute.
  rewrite decide_False by lia. rewrite Hd. unfold bind.
  by rewrite shaped_buffers_consumed.
Qed.

Section NoThrow.
Context `{client : LocalClient}.

Lemma execute_throws this argument_handles replica w e :
  execute this argument_handles replica w = Throws e → e = bad_optional_access.
Proof.
  unfold execute.
  destruct (device_assignment_at _ _ _); [|done].
  destruct (argument_handles !! replica) as [handles|]; [|done].
  unfold bind. destruct (shaped_buffers_outcome handles w) as [[bs ->] | ->].
  - done.
  - by intros [= <-].
Qed.

Lemma run_replicas_no_throw this argument_handles schedule :
  ∀ st w e, run_replicas this argument_handles schedule st w ≠ Throws e.
Proof.
  induction schedule as [|i schedule IH]; intros st w e; [done|].
  simpl. unfold bind at 1. unfold replica_task, bind, on_worker.
  destruct (execute this argument_handles i w) as [[r w1]| | | |]; try done.
  apply IH.
Qed.

Lemma wrap_results_no_throw rs :
  ∀ replica wrapped w e, wrap_results replica wrapped rs w ≠ Throws e.
Proof.
  induction rs as [|[sb|s] rs IH]; intros replica wrapped w e; try done.
  simpl. apply IH.
Qed.

(** X16. With a device count that is not negative, the only exception that
    leaves [ExecutePerReplica] is [bad_optional_access], thrown for a
    consumed argument on the one-replica path: once the checks have passed,
    [results] can be sized and every replica has a worker thread, so
    [execute_threads().at(replica)] is in range. *)
Theorem ExecutePerReplica_exceptions
        (this : PyLocalExecutable) (argument_handles : list (list PyLocalBuffer))
        (schedule : list nat) (w : World) (e : Exception) :
  0 ≤ device_count →
  - 2 ^ 31 ≤ num_replicas this < 2 ^ 31 →
  Z.of_nat (length argument_handles) < 2 ^ 63 →
  ExecutePerReplica this argument_handles schedule w = Throws e →
  e = bad_optional_access ∧ num_replicas this = 1.
Proof.
  intros Hdev Hint Hsize. unfold ExecutePerReplica.
  case_decide as Hne; [done|].
  case_decide as Hgt; [done|].
  assert (0 ≤ num_replicas this) as Hpos.
  { destruct (decide (num_replicas this < 0)); [|lia].
    pose proof (to_size_t_negative (num_replicas this)). lia. }
  rewrite to_size_t_id in Hne by lia.
  rewrite decide_False by lia.
  case_decide as H1.
  - unfold bind at 1. unfold bind at 1.
    destruct (execute this argument_handles 0 w) as [[r w1]| | | |] eqn:He;
      try done.
    + intros Hw. by apply wrap_results_no_throw in Hw.
    + intros [= <-]. by apply execute_throws in He.
  - rewrite decide_True.
    2:{ unfold execute_threads_size.
        assert (to_size_t device_count ≤ device_count)
          by (apply Z.mod_le; lia).
        lia. }
    unfold bind at 1. unfold bind at 1.
    destruct (run_replicas this argument_handles schedule _ w)
      as [[st w1]| | | |] eqn:Hr; try done.
    + unfold bind, await_replicas.
      repeat case_decide; try done;
        intros Hw; by apply wrap_results_no_throw in Hw.
    + by apply run_replicas_no_throw in Hr.
Qed.
End NoThrow.

(** ** The device ordinals *)

Lemma DeviceOrdinals_lookup this ds :
  DeviceOrdinals this = Some ds →
  length ds = length (device_assignment_ this)
  ∧ ∀ replica ordinal,
      ds !! replica = Some ordinal
      ↔ device_assignment_at (device_assignment_ this) replica 0 = Some ordinal.
Proof.
  unfold DeviceOrdinals. intros Hm. apply mapM_Some_1 in Hm.
  pose proof (Forall2_length _ _ _ Hm) as Hlen. rewrite length_seq in Hlen.
  split; [done|]. intros replica ordinal. split.
  - intros Hds.
    assert (seq 0 (length (device_assignment_ this)) !! replica = Some replica)
      as Hseq.
    { apply lookup_seq. split; [done|]. apply lookup_lt_Some in Hds. lia. }
    by apply (Forall2_lookup_lr _ _ _ _ _ _ Hm Hseq Hds).
  - intros Hd.
    assert (replica < length (device_assignment_ this))%nat as Hlt.
    { unfold device_assignment_at in Hd. apply bind_Some in Hd as (row & Hrow & _).
      by apply lookup_lt_Some in Hrow. }
    destruct (lookup_lt_is_Some_2 ds replica) as [ordinal' Hds]; [lia|].
    assert (seq 0 (length (device_assignment_ this)) !! replica = Some replica)
      as Hseq by (apply lookup_seq; split; [done|lia]).
    pose proof (Forall2_lookup_lr _ _ _ _ _ _ Hm Hseq Hds). congruence.
Qed.

(** X15. [DeviceOrdinals] has one entry for every replica of the device
    assignment, and for an executable of one replica its entry of replica 0
    is the device on which [Execute] runs the executable: a call of
    [Execute] on such an executable that returns has asked for exactly one
    run, on that device, with the buffers of the argument handles. *)
Theorem Execute_runs_on_DeviceOrdinals
        (this : PyLocalExecutable) (argument_handles : list PyLocalBuffer)
        (ds : list Z) (w w' : World) (r : StatusOr PyLocalBuffer) :
  num_replicas this = 1 →
  DeviceOrdinals this = Some ds →
  Execute this argument_handles w = Returns (r, w') →
  length ds = length (device_assignment_ this)
  ∧ ∃ ordinal argument_buffers,
      ds !! 0%nat = Some ordinal
      ∧ mapM shaped_buffer_ argument_handles = Some argument_buffers
      ∧ trace w' = trace w ++ [EvRun ordinal argument_buffers].
Proof.
  intros H1 Hds. destruct (DeviceOrdinals_lookup _ _ Hds) as [Hlen Hlookup].
  unfold Execute. rewrite decide_False by lia.
  destruct (device_assignment_at (device_assignment_ this) 0 0) as [ordinal|] eqn:Hd;
    [|done].
  unfold bind. intros He. split; [done|].
  destruct (mapM shaped_buffer_ argument_handles) as [bs|] eqn:Hm.
  - rewrite (shaped_buffers_intact _ _ _ Hm) in He. unfold run_executable in He.
    exists ordinal, bs. split; [by apply Hlookup|]. split; [done|].
    destruct (Run _ _ _); by injection He as <- <-.
  - rewrite shaped_buffers_consumed in He; [done|].
    apply mapM_None_1 in Hm. apply Exists_exists in Hm as (h & Hin & Hnone).
    by exists h.
Qed.

(** ** Compilation with layouts that are given *)

Section GivenLayouts.
Context `{client : LocalClient}.

Lemma assign_layouts_given s :
  all_layouts s = true → assign_layouts s = (Status_OK, s).
Proof.
  induction s as [ty dims layout | ts IH] using Shape_induction.
  - simpl. intros Hl. apply bool_decide_eq_true in Hl as [l ->]. done.
  - intros Hall. simpl in Hall. cbn [assign_layouts].
    match goal with
    | |- (?r.1, TupleShape ?r.2) = _ =>
        assert (r = (Status_OK, ts)) as ->; [|done]
    end.
    induction IH as [|t ts Ht _ IHts]; [done|].
    simpl in Hall. apply andb_true_iff in Hall as [Hthis Hrest].
    rewrite (Ht Hthis). simpl. by rewrite (IHts Hrest).
Qed.

(** X20. Shapes that come with layouts are not touched: when every argument
    layout and the result layout of the build options have layouts on all
    their arrays, the layout service is not asked, and [Compile] hands the
    shapes and the options to the compiler as they are and the replica count
    of the options to the placer. *)
Theorem Compile_given_layouts
        (computation : XlaComputation) (argument_layouts : list Shape)
        (options : ExecutableBuildOptions) (l : Shape) :
  Forall (λ s, all_layouts s = true) argument_layouts →
  result_layout options = Some l →
  all_layouts l = true →
  Compile computation argument_layouts (Some options)
  = match client_Compile computation argument_layouts options with
    | Failure s => Failure s
    | Value local_executable =>
        match AssignDevices (num_replicas_option options) 1 with
        | Failure s => Failure s
        | Value device_assignment =>
            Value (mkPyLocalExecutable local_executable device_assignment)
        end
    end.
Proof.
  intros Hargs Hresult Hl. unfold Compile. simpl. rewrite Hresult.
  rewrite (assign_layouts_given l Hl). simpl.
  assert ((λ layout, (assign_layouts layout).2) <$> argument_layouts
          = argument_layouts) as ->.
  { induction Hargs as [|s ss Hs _ IH]; [done|]. csimpl.
    by rewrite (assign_layouts_given s Hs), IH. }
  assert (set_result_layout options l = options) as ->.
  { destruct options as [rl n]. simpl in Hresult. by subst rl. }
  done.
Qed.
End GivenLayouts.

(** ** The leaves of a tree and the leaves of its shape *)

Section LeafCount.
Context `{client : LocalClient}.

Lemma transfer_leaves_extra stream buffer ordinal leaf_shapes :
  ∀ it extra w,
    (length leaf_shapes ≤ length it)%nat →
    transfer_leaves stream buffer ordinal leaf_shapes (it ++ extra) w
    = transfer_leaves stream buffer ordinal leaf_shapes it w.
Proof.
  induction leaf_shapes as [|l leaf_shapes IH]; intros it extra w Hlen; [done|].
  destruct it as [|literal it]; [simpl in Hlen; lia|].
  cbn [transfer_leaves app].
  destruct (make_leaf buffer l ordinal) as [leaf|]; [|done].
  unfold bind.
  destruct (TransferLiteralToDeviceAsync stream literal leaf w)
    as [[st w1]| | | |]; try done.
  destruct (ok st); [|done]. apply IH. simpl in Hlen. lia.
Qed.

(** X3. The transfer takes as many leaves as the compact shape has array
    leaves and does not look at the rest: a tree with more leaves is
    transferred like the tree without them, the leaves beyond the shape's
    are dropped without an error. *)
Theorem TransferHostToDeviceAsync_drops_extra_leaves
        (tree : PythonBufferTree) (extra : list BorrowingLiteral)
        (compact : Shape) (ordinal : Z) (stream : nat) (w : World) :
  ChooseCompactLayoutForShape (shape tree) = Value compact →
  (length (GetLeafShapes compact) ≤ length (leaves tree))%nat →
  TransferHostToDeviceAsync
    (mkPythonBufferTree (shape tree) (leaves tree ++ extra)) ordinal stream w
  = TransferHostToDeviceAsync tree ordinal stream w.
Proof.
  intros Hc Hlen. unfold TransferHostToDeviceAsync. simpl. rewrite Hc.
  unfold bind.
  destruct (AllocateScopedShapedBuffer compact ordinal w)
    as [[[buffer|] w1]| | | |]; try done.
  destruct (WriteTupleIndexTablesAsync stream buffer w1)
    as [[st w2]| | | |]; try done.
  destruct (ok st); [|done].
  by rewrite transfer_leaves_extra.
Qed.

Hypothesis device_shape_indices :
  ∀ s, indices (HostShapeToDeviceShape s) = indices s.
Hypothesis allocation_granted : ∀ s ordinal w, ok (allocation_status s ordinal w) = true.
Hypothesis tuple_tables_written : ∀ stream sb, ok (tuple_tables_status stream sb) = true.
Hypothesis transfer_accepted :
  ∀ stream literal leaf, ok (transfer_status stream literal leaf) = true.

Lemma transfer_leaves_too_few stream buffer ordinal leaf_shapes :
  Forall (λ l, IsTuple (ishape l) = false
               ∧ is_Some (element (buffers buffer) (index l))) leaf_shapes →
  ∀ it w, (length it < length leaf_shapes)%nat →
          ∃ st w',
            transfer_leaves stream buffer ordinal leaf_shapes it w = Returns (st, w')
            ∧ code st = INTERNAL.
Proof.
  induction 1 as [|l leaf_shapes [Hleaf Hel] _ IH]; intros it w Hlen.
  - simpl in Hlen. lia.
  - destruct it as [|literal it]; [by eexists _, _|].
    cbn [transfer_leaves].
    destruct (make_leaf_is_Some device_shape_indices buffer l ordinal Hleaf Hel)
      as (leaf & -> & [m Hm]).
    unfold bind, TransferLiteralToDeviceAsync. cbv zeta.
    rewrite transfer_accepted, Hm. cbv iota beta. rewrite transfer_accepted.
    apply IH. simpl in Hlen. lia.
Qed.

(** X4. A tree with fewer leaves than its compact shape has array leaves is
    refused with an INTERNAL error (the RET_CHECK of the loop), on a device
    that does what it is asked. *)
Theorem TransferHostToDeviceAsync_too_few_leaves
        (tree : PythonBufferTree) (compact : Shape) (ordinal : Z) (stream : nat)
        (w : World) :
  ChooseCompactLayoutForShape (shape tree) = Value compact →
  (length (leaves tree) < length (GetLeafShapes compact))%nat →
  ∃ s w',
    TransferHostToDeviceAsync tree ordinal stream w = Returns (Failure s, w')
    ∧ code s = INTERNAL.
Proof.
  intros Hc Hlen. unfold TransferHostToDeviceAsync. rewrite Hc.
  unfold bind, AllocateScopedShapedBuffer. cbv zeta.
  rewrite allocation_granted.
  destruct (allocate_nodes ordinal _ w) as [t w1] eqn:Ha.
  destruct (allocate_nodes_distinct _ _ _ _ _ Ha) as (Hkeys & _).
  set (sb := mkShapedBuffer compact _ _ ordinal t).
  unfold WriteTupleIndexTablesAsync. cbv zeta.
  rewrite tuple_tables_written. cbv iota beta. rewrite tuple_tables_written.
  destruct (transfer_leaves_too_few stream sb ordinal (GetLeafShapes compact))
    with (it := leaves tree)
         (w := enqueue stream (WriteTupleIndexTables sb) w1)
    as (st & w2 & -> & Hcode); [|done|].
  { apply Forall_forall. intros l Hl.
    apply GetLeafShapes_elem in Hl as [Hin Hleaf]. split; [done|].
    apply element_is_Some. simpl. rewrite Hkeys.
    fold (indices (HostShapeToDeviceShape compact)).
    by rewrite device_shape_indices. }
  assert (ok st = false) as -> by (unfold ok; by rewrite Hcode).
  unfold modify, ret. simpl. by eexists _, _.
Qed.
End LeafCount.

(** *** Instances *)

Lemma Get_visible_devices_witness :
  ∃ platform,
    @GetPlatform example_library "Host" = Value platform
    ∧ 0 < VisibleDeviceCount platform
    ∧ @GetOrCreateLocalClient example_library platform = Value example_client
    ∧ length (execute_threads_ (PyLocalClient_new example_client))
      = @execute_threads_size example_client.
Proof.
  apply (@Get_visible_devices example_library "Host"
           (PyLocalClient_new example_client)).
  reflexivity.
Defined.

Lemma DestructureTuple_not_a_tuple_witness :
  ∃ message,
    DestructureTuple scalar_buffer empty_world
    = Returns ((Failure (InvalidArgument message), scalar_buffer), empty_world).
Proof.
  apply (DestructureTuple_not_a_tuple scalar_buffer _ empty_world eq_refl eq_refl).
Defined.

Lemma Execute_consumed_argument_witness :
  @Execute (example_executable 1) [scalar_buffer; mkPyLocalBuffer None]
           empty_world
  = Throws bad_optional_access.
Proof.
  apply (Execute_consumed_argument (example_executable 1)
           [scalar_buffer; mkPyLocalBuffer None] empty_world).
  - reflexivity.
  - by eexists.
  - exists (mkPyLocalBuffer None). split; [|reflexivity].
    apply list_elem_of_further, list_elem_of_here.
Defined.

Lemma ExecutePerReplica_exceptions_witness :
  @ExecutePerReplica example_client (example_executable 1)
    [[mkPyLocalBuffer None]] [0%nat] empty_world
  = Throws bad_optional_access
  ∧ bad_optional_access = bad_optional_access
  ∧ num_replicas (example_executable 1) = 1.
Proof.
  assert (@ExecutePerReplica example_client (example_executable 1)
            [[mkPyLocalBuffer None]] [0%nat] empty_world
          = Throws bad_optional_access) as Hcall
    by (vm_compute; reflexivity).
  split; [exact Hcall|].
  apply (@ExecutePerReplica_exceptions example_client (example_executable 1)
           [[mkPyLocalBuffer None]] [0%nat] empty_world bad_optional_access);
    [simpl; lia | unfold num_replicas; simpl; lia | simpl; lia | exact Hcall].
Defined.

Lemma Execute_runs_on_DeviceOrdinals_witness :
  ∃ r w',
    Execute (example_executable 1) [scalar_buffer] empty_world = Returns (r, w')
    ∧ length [0] = length (device_assignment_ (example_executable 1))
    ∧ ∃ ordinal argument_buffers,
        [0] !! 0%nat = Some ordinal
        ∧ mapM shaped_buffer_ [scalar_buffer] = Some argument_buffers
        ∧ trace w' = trace empty_world ++ [EvRun ordinal argument_buffers].
Proof.
  assert (∃ r w', Execute (example_executable 1) [scalar_buffer] empty_world
                  = Returns (r, w')) as (r & w' & Hcall)
    by (eexists _, _; vm_compute; reflexivity).
  exists r, w'. split; [exact Hcall|].
  exact (Execute_runs_on_DeviceOrdinals (example_executable 1) [scalar_buffer]
           [0] empty_world w' r eq_refl eq_refl Hcall).
Defined.

Lemma Compile_given_layouts_witness :
  @Compile example_client example_computation
    [ArrayShape F32 [2; 3] (Some [0; 1])]
    (Some (mkBuildOptions (Some (ArrayShape F32 [] (Some []))) 2))
  = match @client_Compile example_client example_computation
            [ArrayShape F32 [2; 3] (Some [0; 1])]
            (mkBuildOptions (Some (ArrayShape F32 [] (Some []))) 2) with
    | Failure s => Failure s
    | Value local_executable =>
        match @AssignDevices example_client 2 1 with
        | Failure s => Failure s
        | Value device_assignment =>
            Value (mkPyLocalExecutable local_executable device_assignment)
        end
    end.
Proof.
  apply (@Compile_given_layouts example_client example_computation
           [ArrayShape F32 [2; 3] (Some [0; 1])]
           (mkBuildOptions (Some (ArrayShape F32 [] (Some []))) 2)
           (ArrayShape F32 [] (Some []))).
  - repeat constructor.
  - reflexivity.
  - reflexivity.
Defined.

Lemma TransferHostToDeviceAsync_drops_extra_leaves_witness :
  @TransferHostToDeviceAsync example_client
    (mkPythonBufferTree (shape good_tree)
       (leaves good_tree ++ [mkBorrowingLiteral (scalar S32) [1]]))
    0 0 empty_world
  = @TransferHostToDeviceAsync example_client good_tree 0 0 empty_world.
Proof.
  apply (@TransferHostToDeviceAsync_drops_extra_leaves example_client good_tree
           [mkBorrowingLiteral (scalar S32) [1]] (compact_layout (shape good_tree))
           0 0 empty_world).
  - reflexivity.
  - simpl. lia.
Defined.

Lemma TransferHostToDeviceAsync_too_few_leaves_witness :
  ∃ s w',
    @TransferHostToDeviceAsync example_client short_tree 0 0 empty_world
    = Returns (Failure s, w')
    ∧ code s = INTERNAL.
Proof.
  apply (@TransferHostToDeviceAsync_too_few_leaves example_client
           (λ s, eq_refl) (λ _ _ _, eq_refl) (λ _ _, eq_refl) (λ _ _ _, eq_refl)
           short_tree (compact_layout (shape short_tree)) 0 0 empty_world).
  - reflexivity.
  - simpl. lia.
Defined.

(** ** Device memory: what a transfer allocates and gives back *)

Section Ownership.
Context `{client : LocalClient} `{host : HostLanguage}.

Lemma foldl_deallocate_live l w :
  live (foldl deallocate w l) = live w ∖ list_to_set l
  ∧ next_address (foldl deallocate w l) = next_address w.
Proof.
  revert w. induction l as [|a l IH]; intros w; simpl.
  - split; [set_solver | done].
  - destruct (IH (deallocate w a)) as [-> ->]. simpl. split; [set_solver | done].
Qed.

Lemma destroy_ScopedShapedBuffer_live b w :
  live (destroy_ScopedShapedBuffer b w) = live w ∖ list_to_set (regions (buffers b))
  ∧ next_address (destroy_ScopedShapedBuffer b w) = next_address w.
Proof.
  unfold destroy_ScopedShapedBuffer.
  destruct (foldl_deallocate_live (remove_dups (regions (buffers b))) w)
    as [-> ->].
  split; [|done]. f_equal. apply set_eq. intros a.
  rewrite !elem_of_list_to_set. apply elem_of_remove_dups.
Qed.

Lemma allocate_nodes_regions ordinal nodes :
  ∀ w t w',
    allocate_nodes ordinal nodes w = (t, w') →
    regions t = opaque <$> t.*2
    ∧ live w' = list_to_set (regions t) ∪ live w.
Proof.
  induction nodes as [|[k s] nodes IH]; intros w t w' Ha; simpl in Ha.
  - injection Ha as <- <-. split; [done | set_solver].
  - destruct (allocate_nodes ordinal nodes _) as [t2 w2] eqn:H2.
    injection Ha as <- <-. destruct (IH _ _ _ H2) as [Hr Hl].
    assert (regions ((k, mkDeviceMemory (N.succ (next_address w))
                            (GetByteSizeRequirement s)) :: t2)
            = N.succ (next_address w) :: regions t2) as Hcons.
    { unfold regions. csimpl. rewrite filter_cons, decide_True; [done|].
      unfold is_null. simpl. apply N.eqb_neq. lia. }
    rewrite Hcons. split.
    + csimpl. by rewrite Hr.
    + rewrite Hl. simpl. set_solver.
Qed.

Lemma transfer_leaves_allocation stream buffer ordinal leaf_shapes :
  ∀ it w st w',
    transfer_leaves stream buffer ordinal leaf_shapes it w = Returns (st, w') →
    live w' = live w ∧ next_address w' = next_address w.
Proof.
  induction leaf_shapes as [|l leaf_shapes IH]; intros it w st w' Ht.
  - by injection Ht as <- <-.
  - destruct it as [|literal it]; [by injection Ht as <- <-|].
    cbn [transfer_leaves] in Ht.
    destruct (make_leaf buffer l ordinal) as [leaf|]; [|done].
    unfold bind, TransferLiteralToDeviceAsync in Ht. cbv zeta in Ht.
    destruct (ok (transfer_status stream literal leaf)) eqn:Hok.
    + destruct (element (buffers leaf) []); [|done]. cbv iota beta in Ht.
      rewrite Hok in Ht. by destruct (IH _ _ _ _ Ht) as [-> ->].
    + cbv iota beta in Ht. rewrite Hok in Ht. by injection Ht as <- <-.
Qed.

(** What the transfer of a tree does to the allocator. *)
Lemma TransferHostToDeviceAsync_ownership tree ordinal stream w r w' :
  allocator_fresh w →
  TransferHostToDeviceAsync tree ordinal stream w = Returns (r, w') →
  allocator_fresh w'
  ∧ (next_address w ≤ next_address w')%N
  ∧ match r with
    | Failure _ => live w' = live w
    | Value b =>
        ∃ sb, b = mkPyLocalBuffer (Some sb)
              ∧ well_shaped sb
              ∧ device_ordinal sb = ordinal
              ∧ NoDup (regions (buffers sb))
              ∧ (∀ a, a ∈ regions (buffers sb) →
                      (next_address w < a ≤ next_address w')%N)
              ∧ live w' = list_to_set (regions (buffers sb)) ∪ live w
    end.
Proof.
  intros Hfresh. unfold TransferHostToDeviceAsync.
  destruct (ChooseCompactLayoutForShape (shape tree)) as [compact|s].
  2:{ by intros [= <- <-]. }
  unfold bind, AllocateScopedShapedBuffer. cbv zeta.
  destruct (ok (allocation_status compact ordinal w)).
  2:{ by intros [= <- <-]. }
  destruct (allocate_nodes ordinal _ w) as [t w1] eqn:Ha.
  destruct (allocate_nodes_distinct _ _ _ _ _ Ha) as (Hkeys & Hle & Hin & Hnd).
  destruct (allocate_nodes_regions _ _ _ _ _ Ha) as (Hregions & Hlive).
  set (sb := mkShapedBuffer compact _ _ ordinal t).
  assert (Hrange : ∀ a, a ∈ regions t → (next_address w < a ≤ next_address w1)%N).
  { intros a Hr. rewrite Hregions in Hr.
    apply list_elem_of_fmap in Hr as (m & -> & Hm). by apply Hin. }
  assert (Hback : allocator_fresh (destroy_ScopedShapedBuffer sb w1)
                  ∧ live (destroy_ScopedShapedBuffer sb w1) = live w).
  { destruct (destroy_ScopedShapedBuffer_live sb w1) as [Hl Hn]. split.
    - intros a. rewrite Hl, Hn, Hlive. intros Ha'.
      apply elem_of_difference in Ha' as [Ha' Hnot].
      apply elem_of_union in Ha' as [?|Ha']; [done|].
      specialize (Hfresh a Ha'). lia.
    - rewrite Hl, Hlive. simpl. apply set_eq. intros a.
      rewrite elem_of_difference, elem_of_union, elem_of_list_to_set.
      split; [by intros [[?|?] ?] | intros Ha'].
      split; [by right|]. intros Hr. specialize (Hrange a Hr).
      specialize (Hfresh a Ha'). lia. }
  assert (Hnext_destroy : ∀ w0, next_address (destroy_ScopedShapedBuffer sb w0)
                                = next_address w0).
  { intros w0. apply destroy_ScopedShapedBuffer_live. }
  unfold WriteTupleIndexTablesAsync. cbv zeta.
  destruct (ok (tuple_tables_status stream sb)) eqn:Hok1; cbv iota beta;
    rewrite Hok1.
  2:{ unfold modify, ret. intros [= <- <-]. destruct Hback as [? ?].
      split; [done|]. split; [by rewrite Hnext_destroy | done]. }
  destruct (transfer_leaves stream sb ordinal (GetLeafShapes compact)
                            (leaves tree) _) as [[st w2]| | | |] eqn:Ht;
    try done.
  destruct (transfer_leaves_allocation _ _ _ _ _ _ _ _ Ht) as [Hl2 Hn2].
  simpl in Hl2, Hn2.
  destruct (ok st).
  - unfold ret. intros [= <- <-]. split; [|split].
    + intros a. rewrite Hl2, Hn2, Hlive. intros Ha'.
      apply elem_of_union in Ha' as [Ha'|Ha'].
      * apply elem_of_list_to_set in Ha'. specialize (Hrange a Ha'). lia.
      * specialize (Hfresh a Ha'). lia.
    + lia.
    + exists sb. split; [done|]. split; [exact Hkeys|]. split; [done|].
      split; [|split].
      * simpl. rewrite Hregions. exact Hnd.
      * intros a Ha'. rewrite Hn2. by apply Hrange.
      * by rewrite Hl2, Hlive.
  - unfold modify, ret. intros [= <- <-].
    destruct (destroy_ScopedShapedBuffer_live sb w2) as [Hl Hn].
    destruct (destroy_ScopedShapedBuffer_live sb w1) as [Hl1 Hn1].
    destruct Hback as [Hf Hb]. split; [|split].
    + intros a. rewrite Hl, Hn, Hl2, Hn2, <- Hl1, <- Hn1. apply Hf.
    + rewrite Hn, Hn2. lia.
    + by rewrite Hl, Hl2, <- Hl1.
Qed.


(** X6. A transfer of one tree that succeeds returns an intact buffer on the
    device asked for, whose tree has the nodes of its shape and whose
    regions are distinct, were not allocated before, and are allocated now;
    nothing else was allocated or given back. *)
Theorem FromPython_ownership
        (argument : PyObject) (ordinal : Z) (w w' : World) (b : PyLocalBuffer) :
  allocator_fresh w →
  FromPython argument ordinal w = Returns (Value b, w') →
  ∃ sb,
    shaped_buffer_ b = Some sb
    ∧ well_shaped sb
    ∧ device_ordinal sb = ordinal
    ∧ NoDup (regions (buffers sb))
    ∧ (∀ a, a ∈ regions (buffers sb) → a ∉ live w)
    ∧ live w' = list_to_set (regions (buffers sb)) ∪ live w
    ∧ allocator_fresh w'.
Proof.
  intros Hfresh. unfold FromPython.
  destruct (GetPythonBufferTree argument) as [tree|]; [|done].
  unfold bind, BorrowStream. case_decide; [|done].
  set (w1 := mkWorld _ _ _ _ _ _).
  destruct (TransferHostToDeviceAsync tree ordinal (next_stream w) w1)
    as [[[buffer|] w2]| | | |] eqn:Ht; try done.
  intros [= <- <-].
  destruct (TransferHostToDeviceAsync_ownership _ _ _ w1 _ _ Hfresh Ht)
    as (Hfresh2 & _ & sb & -> & Hshape & Hord & Hnd & Hrange & Hlive).
  exists sb. split; [done|]. split; [done|]. split; [done|]. split; [done|].
  split; [|split; [done|]].
  - intros a Ha Hlive0. specialize (Hrange a Ha). specialize (Hfresh a Hlive0).
    simpl in Hrange. lia.
  - intros a Ha. by apply Hfresh2.
Qed.
End Ownership.

(** *** Instances *)

Lemma allocator_fresh_empty : allocator_fresh empty_world.
Proof. intros a Ha. by apply elem_of_empty in Ha. Defined.


Lemma FromPython_ownership_witness :
  ∃ b w' sb,
    @FromPython example_client example_host good_tree 0 empty_world
    = Returns (Value b, w')
    ∧ shaped_buffer_ b = Some sb
    ∧ well_shaped sb
    ∧ device_ordinal sb = 0
    ∧ NoDup (regions (buffers sb))
    ∧ (∀ a, a ∈ regions (buffers sb) → a ∉ live empty_world)
    ∧ live w' = list_to_set (regions (buffers sb)) ∪ live empty_world
    ∧ allocator_fresh w'.
Proof.
  assert (∃ b w', @FromPython example_client example_host good_tree 0 empty_world
                  = Returns (Value b, w')) as (b & w' & Hcall)
    by (eexists _, _; vm_compute; reflexivity).
  destruct (@FromPython_ownership example_client example_host good_tree 0
              empty_world w' b allocator_fresh_empty Hcall) as (sb & Hsb).
  by exists b, w', sb.
Defined.

(** ** Batches of transfers *)

Section Batch.
Context `{client : LocalClient} `{host : HostLanguage}.

Lemma get_trees_first_failure arguments before a after s :
  arguments = before ++ a :: after →
  (∀ b, b ∈ before → statusor_ok (GetPythonBufferTree b.1) = true) →
  GetPythonBufferTree a.1 = Failure s →
  get_trees arguments = Failure s.
Proof.
  intros -> Hbefore Ha. induction before as [|b before IH]; simpl.
  - by rewrite Ha.
  - destruct (GetPythonBufferTree b.1) eqn:Hb.
    + rewrite IH; [done|]. intros b' Hb'. apply Hbefore. by right.
    + specialize (Hbefore b (list_elem_of_here _ _)). by rewrite Hb in Hbefore.
Qed.

(** X7. When an argument of a batch is not a buffer tree, [FromPythonValues]
    returns the error of the first such argument and has done nothing: no
    stream was borrowed, nothing was allocated or enqueued. *)
Theorem FromPythonValues_flatten_failure
        (before after : list (PyObject * Z)) (a : PyObject * Z)
        (schedule : list nat) (s : Status) (w : World) :
  Z.of_nat (length (before ++ a :: after)) < 2 ^ 31 →
  (∀ b, b ∈ before → statusor_ok (GetPythonBufferTree b.1) = true) →
  GetPythonBufferTree a.1 = Failure s →
  FromPythonValues (before ++ a :: after) schedule w = Returns (Failure s, w).
Proof.
  intros Hlen Hbefore Ha. unfold FromPythonValues.
  rewrite static_cast_int_small by done.
  rewrite decide_False by lia.
  rewrite decide_False by (rewrite length_app; simpl; lia).
  rewrite Nat2Z.id, firstn_all.
  by rewrite (get_trees_first_failure _ before a after s).
Qed.

Lemma get_trees_is_Value arguments :
  (∀ b, b ∈ arguments → statusor_ok (GetPythonBufferTree b.1) = true) →
  ∃ trees, get_trees arguments = Value trees.
Proof.
  induction arguments as [|b arguments IH]; intros Hall; [by eexists|].
  simpl. pose proof (Hall b (list_elem_of_here _ _)) as Hb.
  destruct (GetPythonBufferTree b.1); [|done].
  destruct IH as [trees ->]; [|by eexists].
  intros b' Hb'. apply Hall. by right.
Qed.

Lemma borrow_streams_first_failure before a after :
  (∀ b, b ∈ before → 0 ≤ b.2 < device_count) →
  ¬ (0 ≤ a.2 < device_count) →
  ∀ w, ∃ w',
    borrow_streams (before ++ a :: after) w
    = Returns (Failure (InvalidArgument ("Invalid device ordinal " +:+ pretty a.2)), w')
    ∧ live w' = live w ∧ memory w' = memory w
    ∧ next_address w' = next_address w
    ∧ next_stream w' = (next_stream w + length before)%nat
    ∧ trace w'
      = trace w ++ zip_with (λ b stream, EvBorrowStream b.2 stream) before
                            (seq (next_stream w) (length before)).
Proof.
  intros Hbefore Ha. induction before as [|b before IH]; intros w.
  - exists w. simpl. unfold bind at 1. unfold BorrowStream.
    rewrite decide_False by done. split; [done|].
    rewrite app_nil_r. repeat split; lia.
  - cbn [app borrow_streams]. unfold bind at 1. unfold BorrowStream at 1.
    rewrite decide_True by (apply Hbefore; by left).
    set (w1 := mkWorld _ _ _ _ _ _).
    destruct (IH (λ b' Hb', Hbefore b' (list_elem_of_further _ _ _ Hb')) w1)
      as (w2 & Hb & Hlive & Hmem & Haddr & Hstream & Htrace).
    exists w2. unfold bind at 1. rewrite Hb. split; [done|].
    split; [done|]. split; [done|]. split; [done|]. split.
    + rewrite Hstream. simpl. lia.
    + rewrite Htrace. simpl. by rewrite <- app_assoc.
Qed.

(** X8. When the arguments of a batch are buffer trees and one of them names
    a device that the client does not have, [FromPythonValues] returns the
    error of the first such argument after borrowing a stream for each
    argument before it, and nothing else: nothing was allocated, enqueued
    or waited for. *)
Theorem FromPythonValues_invalid_ordinal
        (before after : list (PyObject * Z)) (a : PyObject * Z)
        (schedule : list nat) (w : World) :
  Z.of_nat (length (before ++ a :: after)) < 2 ^ 31 →
  (∀ b, b ∈ before ++ a :: after →
        statusor_ok (GetPythonBufferTree b.1) = true) →
  (∀ b, b ∈ before → 0 ≤ b.2 < device_count) →
  ¬ (0 ≤ a.2 < device_count) →
  ∃ w',
    FromPythonValues (before ++ a :: after) schedule w
    = Returns (Failure (InvalidArgument ("Invalid device ordinal " +:+ pretty a.2)),
               w')
    ∧ live w' = live w
    ∧ memory w' = memory w
    ∧ trace w'
      = trace w ++ zip_with (λ b stream, EvBorrowStream b.2 stream) before
                            (seq (next_stream w) (length before)).
Proof.
  intros Hlen Htrees Hbefore Ha. unfold FromPythonValues.
  rewrite static_cast_int_small by done.
  rewrite decide_False by lia.
  rewrite decide_False by (rewrite length_app; simpl; lia).
  rewrite Nat2Z.id, firstn_all.
  destruct (get_trees_is_Value _ Htrees) as [trees ->].
  destruct (borrow_streams_first_failure before a after Hbefore Ha w)
    as (w' & Hb & Hlive & Hmem & _ & _ & Htrace).
  exists w'. unfold bind. by rewrite Hb.
Qed.

(** *** What a batch holds *)

Lemma all_owned_cons b bs : all_owned (b :: bs) = owned b ++ all_owned bs.
Proof. reflexivity. Qed.

Lemma all_owned_app bs1 bs2 :
  all_owned (bs1 ++ bs2) = all_owned bs1 ++ all_owned bs2.
Proof. unfold all_owned. by rewrite bind_app. Qed.

Lemma all_owned_perm bs1 bs2 :
  bs1 ≡ₚ bs2 → all_owned bs1 ≡ₚ all_owned bs2.
Proof. intros Hp. unfold all_owned. by rewrite Hp. Qed.

Lemma holding_refl w : allocator_fresh w → holding w [] w.
Proof.
  intros Hf. split; [done|]. split; [done|]. split; [lia|].
  split; [constructor|]. split.
  - intros a Ha. by apply elem_of_nil in Ha.
  - simpl. set_solver.
Qed.

Lemma holding_perm w0 bs1 bs2 w :
  bs1 ≡ₚ bs2 → holding w0 bs1 w → holding w0 bs2 w.
Proof.
  intros Hp%all_owned_perm (Hf0 & Hf & Hle & Hnd & Hrange & Hlive).
  split; [done|]. split; [done|]. split; [done|]. split; [by rewrite <- Hp|].
  split.
  - intros a Ha. apply Hrange. by rewrite Hp.
  - rewrite Hlive. apply set_eq. intros a.
    rewrite !elem_of_union, !elem_of_list_to_set. by rewrite Hp.
Qed.

Lemma holding_frame w0 bs w w' :
  live w' = live w → next_address w' = next_address w →
  holding w0 bs w → holding w0 bs w'.
Proof.
  intros Hl Hn (Hf0 & Hf & Hle & Hnd & Hrange & Hlive).
  split; [done|]. split.
  { intros a. rewrite Hl, Hn. apply Hf. }
  split; [by rewrite Hn|]. split; [done|]. split.
  - intros a Ha. rewrite Hn. by apply Hrange.
  - by rewrite Hl.
Qed.

Lemma holding_transfer w0 bs tree ordinal stream w r w' :
  holding w0 bs w →
  TransferHostToDeviceAsync tree ordinal stream w = Returns (r, w') →
  holding w0 (match r with Value b => b :: bs | Failure _ => bs end) w'
  ∧ match r with
    | Value b => ∃ sb, b = mkPyLocalBuffer (Some sb) ∧ well_shaped sb
                       ∧ device_ordinal sb = ordinal
    | Failure _ => True
    end.
Proof.
  intros (Hf0 & Hf & Hle & Hnd & Hrange & Hlive) Ht.
  destruct (TransferHostToDeviceAsync_ownership _ _ _ _ _ _ Hf Ht)
    as (Hf' & Hle' & Hr).
  destruct r as [b|s].
  - destruct Hr as (sb & -> & Hshape & Hord & Hnd' & Hrange' & Hlive').
    split; [|by exists sb].
    split; [done|]. split; [done|]. split; [lia|].
    rewrite all_owned_cons. simpl. split; [|split].
    + apply NoDup_app. split; [done|]. split; [|done].
      intros a Ha Ha'. specialize (Hrange a Ha'). specialize (Hrange' a Ha).
      lia.
    + intros a [Ha|Ha]%elem_of_app.
      * specialize (Hrange' a Ha). lia.
      * specialize (Hrange a Ha). lia.
    + rewrite Hlive', Hlive. rewrite list_to_set_app_L. set_solver.
  - split; [|done]. split; [done|]. split; [done|]. split; [lia|].
    split; [done|]. split.
    + intros a Ha. specialize (Hrange a Ha). lia.
    + by rewrite Hr.
Qed.

Lemma destroy_all_app bs1 bs2 w :
  destroy_all (bs1 ++ bs2) w = destroy_all bs2 (destroy_all bs1 w).
Proof. unfold destroy_all. by rewrite foldl_app. Qed.

Lemma destroy_all_live bs :
  ∀ w, live (destroy_all bs w) = live w ∖ list_to_set (all_owned bs)
       ∧ next_address (destroy_all bs w) = next_address w.
Proof.
  induction bs as [|b bs IH]; intros w.
  - simpl. split; [set_solver|done].
  - change (destroy_all (b :: bs) w)
      with (destroy_all bs (destroy_PyLocalBuffer b w)).
    destruct (IH (destroy_PyLocalBuffer b w)) as [-> ->].
    rewrite all_owned_cons, list_to_set_app_L.
    unfold destroy_PyLocalBuffer, owned.
    destruct (shaped_buffer_ b) as [sb|].
    + destruct (destroy_ScopedShapedBuffer_live sb w) as [-> ->].
      split; [set_solver|done].
    + split; [set_solver|done].
Qed.

Lemma holding_destroy w0 bs w :
  holding w0 bs w →
  live (destroy_all bs w) = live w0
  ∧ allocator_fresh (destroy_all bs w).
Proof.
  intros (Hf0 & Hf & Hle & Hnd & Hrange & Hlive).
  destruct (destroy_all_live bs w) as [Hl Hn].
  assert (Heq : live (destroy_all bs w) = live w0).
  { rewrite Hl, Hlive. apply set_eq. intros a.
    rewrite elem_of_difference, elem_of_union, elem_of_list_to_set.
    split; [by intros [[?|?] ?]|]. intros Ha. split; [by right|].
    intros Ha'. specialize (Hrange a Ha'). specialize (Hf0 a Ha). lia. }
  split; [done|]. intros a. rewrite Heq, Hn. intros Ha.
  specialize (Hf0 a Ha). lia.
Qed.

Lemma held_insert transfers i t r :
  transfers !! i = Some t → statusor_ok (h2d_buffer t) = false →
  held (<[i := mkH2DTransfer (h2d_tree t) (h2d_stream t) r]> transfers)
  ≡ₚ match r with Value b => [b] | Failure _ => [] end ++ held transfers.
Proof.
  intros Ht Hfail. unfold held.
  rewrite <- (take_drop_middle _ _ _ Ht) at 2.
  rewrite insert_take_drop by (by eapply lookup_lt_Some).
  rewrite !omap_app. csimpl.
  destruct (h2d_buffer t); [done|].
  destruct r as [b|s']; simpl; [|done].
  by rewrite Permutation_middle.
Qed.

(** The slots of [done] are the ones that may hold a buffer; a slot that
    holds one holds an intact buffer with the nodes of its shape on the
    device of its argument. *)
Lemma run_transfers_holding arguments w0 schedule :
  NoDup schedule →
  ∀ (done : list nat) transfers w transfers' w',
    (∀ j, j ∈ schedule → j ∉ done) →
    (∀ j t, transfers !! j = Some t → j ∉ done →
            statusor_ok (h2d_buffer t) = false) →
    (∀ j t b, transfers !! j = Some t → h2d_buffer t = Value b →
              ∃ sb a, b = mkPyLocalBuffer (Some sb) ∧ arguments !! j = Some a
                      ∧ well_shaped sb ∧ device_ordinal sb = a.2) →
    holding w0 (held transfers) w →
    run_transfers arguments schedule transfers w = Returns (transfers', w') →
    holding w0 (held transfers') w'
    ∧ length transfers' = length transfers
    ∧ ∀ j t b, transfers' !! j = Some t → h2d_buffer t = Value b →
               ∃ sb a, b = mkPyLocalBuffer (Some sb) ∧ arguments !! j = Some a
                       ∧ well_shaped sb ∧ device_ordinal sb = a.2.
Proof.
  induction 1 as [|i schedule Hi Hnd IH];
    intros done transfers w transfers' w' Hfresh Hempty Hslots Hhold Hrun.
  - by injection Hrun as <- <-.
  - cbn [run_transfers] in Hrun. unfold bind in Hrun.
    destruct (transfer_h2d arguments i transfers w)
      as [[transfers1 w1]| | | |] eqn:Hstep; try done.
    assert (Hstep' :
      holding w0 (held transfers1) w1
      ∧ length transfers1 = length transfers
      ∧ (∀ j t, transfers1 !! j = Some t → j ∉ i :: done →
                statusor_ok (h2d_buffer t) = false)
      ∧ (∀ j t b, transfers1 !! j = Some t → h2d_buffer t = Value b →
              ∃ sb a, b = mkPyLocalBuffer (Some sb) ∧ arguments !! j = Some a
                      ∧ well_shaped sb ∧ device_ordinal sb = a.2)).
    { unfold transfer_h2d in Hstep.
      destruct (transfers !! i) as [t|] eqn:Ht.
      2:{ injection Hstep as <- <-. split; [done|]. split; [done|].
          split; [|done]. intros j t Hj Hnot. apply (Hempty j t Hj).
          set_solver. }
      destruct (arguments !! i) as [a|] eqn:Ha.
      2:{ injection Hstep as <- <-. split; [done|]. split; [done|].
          split; [|done]. intros j t' Hj Hnot. apply (Hempty j t' Hj).
          set_solver. }
      unfold bind in Hstep.
      destruct (TransferHostToDeviceAsync (h2d_tree t) a.2 (h2d_stream t) w)
        as [[r w2]| | | |] eqn:Htr; try done.
      injection Hstep as <- <-.
      destruct (holding_transfer _ _ _ _ _ _ _ _ Hhold Htr) as [Hh Hb].
      assert (Hti : statusor_ok (h2d_buffer t) = false).
      { apply (Hempty i t Ht). apply Hfresh. by left. }
      split; [|split; [|split]].
      - eapply holding_perm; [|exact Hh].
        symmetry. rewrite (held_insert _ _ _ _ Ht Hti). by destruct r.
      - by rewrite length_insert.
      - intros j t' Hj Hnot. rewrite list_lookup_insert_ne in Hj by set_solver.
        apply (Hempty j t' Hj). set_solver.
      - intros j t' b Hj Hv. destruct (decide (j = i)) as [->|Hne].
        + rewrite list_lookup_insert_eq in Hj by (by eapply lookup_lt_Some).
          injection Hj as <-. simpl in Hv. subst r.
          destruct Hb as (sb & -> & Hshape & Hord). by exists sb, a.
        + rewrite list_lookup_insert_ne in Hj by done. by eapply Hslots. }
    destruct Hstep' as (Hh1 & Hlen1 & Hempty1 & Hslots1).
    destruct (IH (i :: done) transfers1 w1 transfers' w') as (? & ? & ?);
      try done.
    + intros j Hj [->|Hd]%elem_of_cons; [done|].
      apply (Hfresh j); [by right|done].
    + split; [done|]. split; [congruence|done].
Qed.

Lemma block_all_allocation transfers :
  ∀ w w', block_all transfers w = Returns (tt, w') →
          live w' = live w ∧ next_address w' = next_address w.
Proof.
  induction transfers as [|t transfers IH]; intros w w' Hb.
  - by injection Hb as <-.
  - cbn [block_all] in Hb. unfold bind, BlockHostUntilDone in Hb.
    by destruct (IH _ _ Hb) as [-> ->].
Qed.

Lemma block_all_returns transfers w :
  ∃ w', block_all transfers w = Returns (tt, w').
Proof.
  destruct (block_all_pending transfers w) as (w' & Hb & _). by exists w'.
Qed.

Lemma borrow_streams_allocation arguments :
  ∀ w r w', borrow_streams arguments w = Returns (r, w') →
            live w' = live w ∧ next_address w' = next_address w.
Proof.
  induction arguments as [|a arguments IH]; intros w r w' Hb.
  - by injection Hb as <- <-.
  - cbn [borrow_streams] in Hb. unfold bind at 1 in Hb.
    unfold BorrowStream at 1 in Hb. case_decide.
    2:{ by injection Hb as <- <-. }
    unfold bind in Hb.
    destruct (borrow_streams arguments _) as [[[streams|s] w1]| | | |] eqn:Hrest;
      try done; injection Hb as <- <-;
      by destruct (IH _ _ _ Hrest) as [-> ->].
Qed.

Lemma move_outputs_holding w0 transfers :
  ∀ outputs w r w',
    holding w0 (outputs ++ held transfers) w →
    move_outputs outputs transfers w = Returns (r, w') →
    match r with
    | Failure _ => live w' = live w0 ∧ allocator_fresh w'
    | Value bs =>
        w' = w
        ∧ Value <$> bs = (Value <$> outputs) ++ (h2d_buffer <$> transfers)
    end.
Proof.
  induction transfers as [|t transfers IH]; intros outputs w r w' Hh Hm.
  - injection Hm as <- <-. by rewrite app_nil_r.
  - cbn [move_outputs] in Hm. destruct (h2d_buffer t) as [b|s] eqn:Hb.
    + specialize (IH (outputs ++ [b]) w r w').
      destruct r as [bs|s].
      * destruct IH as [-> Heq]; [|done|].
        { rewrite <- app_assoc. simpl. unfold held in *. simpl in Hh.
          by rewrite Hb in Hh. }
        split; [done|]. rewrite Heq, fmap_app, <- app_assoc. simpl.
        by rewrite Hb.
      * apply IH; [|done]. rewrite <- app_assoc. simpl. unfold held in *.
        simpl in Hh. by rewrite Hb in Hh.
    + unfold bind, modify, ret in Hm. injection Hm as <- <-.
      rewrite <- destroy_all_app. apply holding_destroy.
      eapply holding_perm; [|exact Hh].
      unfold held. simpl. rewrite Hb. apply Permutation_app_comm.
Qed.

Lemma borrow_streams_length arguments :
  ∀ w streams w', borrow_streams arguments w = Returns (Value streams, w') →
                  length streams = length arguments.
Proof.
  induction arguments as [|a arguments IH]; intros w streams w' Hb.
  - by injection Hb as <- <-.
  - cbn [borrow_streams] in Hb. unfold bind at 1 in Hb.
    unfold BorrowStream at 1 in Hb. case_decide; [|done].
    unfold bind in Hb.
    destruct (borrow_streams arguments _) as [[[streams'|s] w1]| | | |] eqn:Hrest;
      try done.
    injection Hb as <- <-. simpl. f_equal. by eapply IH.
Qed.

Lemma held_empty_slots trees streams :
  held (zip_with (λ tree stream, mkH2DTransfer tree stream StatusOr_default)
                 trees streams) = [].
Proof.
  revert streams. induction trees as [|tree trees IH]; intros [|stream streams];
    try done.
  unfold held in *. csimpl. apply IH.
Qed.

Lemma held_values transfers bs :
  Value <$> bs = h2d_buffer <$> transfers → held transfers = bs.
Proof.
  revert bs. induction transfers as [|t transfers IH]; intros [|b bs] Heq;
    try done.
  injection Heq as Hb Heq. unfold held in *. csimpl. rewrite <- Hb.
  f_equal. by apply IH.
Qed.

(** What the transfers of a batch leave, once the streams are borrowed. *)
Lemma batch_holding arguments schedule trees streams w transfers w' :
  let transfers0 :=
    zip_with (λ tree stream, mkH2DTransfer tree stream StatusOr_default)
             trees streams in
  allocator_fresh w → NoDup schedule →
  transfer_h2d arguments 0 transfers0 w = Returns (transfers, w')
  ∨ run_transfers arguments schedule transfers0 w = Returns (transfers, w') →
  holding w (held transfers) w'
  ∧ length transfers = length transfers0
  ∧ ∀ j t b, transfers !! j = Some t → h2d_buffer t = Value b →
             ∃ sb a, b = mkPyLocalBuffer (Some sb) ∧ arguments !! j = Some a
                     ∧ well_shaped sb ∧ device_ordinal sb = a.2.
Proof.
  intros transfers0 Hfresh Hnd Hrun.
  assert (Hgo : ∃ schedule', NoDup schedule'
                  ∧ run_transfers arguments schedule' transfers0 w
                    = Returns (transfers, w')).
  { destruct Hrun as [Hrun|Hrun].
    - exists [0%nat]. split; [apply NoDup_singleton|].
      by rewrite run_transfers_single.
    - by exists schedule. }
  destruct Hgo as (schedule' & Hnd' & Hrun').
  eapply (run_transfers_holding arguments w schedule' Hnd' []); [| | | |done].
  - intros j _. apply not_elem_of_nil.
  - intros j t Hj _. unfold transfers0 in Hj.
    apply lookup_zip_with_Some in Hj as (tree & stream & -> & _). done.
  - intros j t b Hj Hb. unfold transfers0 in Hj.
    apply lookup_zip_with_Some in Hj as (tree & stream & -> & _). done.
  - unfold transfers0. rewrite held_empty_slots. by apply holding_refl.
Qed.

(** X9. A batch that fails keeps nothing: when [FromPythonValues] returns an
    error, whatever was allocated for the arguments that were transferred
    has been given back, and the regions allocated are the ones that were
    allocated before the call. *)
Theorem FromPythonValues_failure_frees
        (arguments : list (PyObject * Z)) (schedule : list nat)
        (w w' : World) (s : Status) :
  allocator_fresh w →
  NoDup schedule →
  FromPythonValues arguments schedule w = Returns (Failure s, w') →
  live w' = live w ∧ allocator_fresh w'.
Proof.
  intros Hfresh Hnd. unfold FromPythonValues.
  case_decide; [done|]. case_decide; [done|].
  set (arguments' := take _ arguments).
  destruct (get_trees arguments') as [trees|s0].
  2:{ by intros [= <- <-]. }
  unfold bind at 1.
  destruct (borrow_streams arguments' w) as [[[streams|s0] w1]| | | |] eqn:Hb;
    try done.
  2:{ intros [= <- <-].
      destruct (borrow_streams_allocation _ _ _ _ Hb) as [Hl Hn]. split; [done|].
      intros a. rewrite Hl, Hn. apply Hfresh. }
  destruct (borrow_streams_allocation _ _ _ _ Hb) as [Hl Hn].
  assert (Hfresh1 : allocator_fresh w1).
  { intros a. rewrite Hl, Hn. apply Hfresh. }
  unfold bind at 1.
  match goal with
  | |- match ?m w1 with _ => _ end = _ → _ =>
      destruct (m w1) as [[transfers w2]| | | |] eqn:Hrun; try done
  end.
  assert (Hrun' :
    transfer_h2d arguments' 0
      (zip_with (λ tree stream, mkH2DTransfer tree stream StatusOr_default)
                trees streams) w1 = Returns (transfers, w2)
    ∨ run_transfers arguments' schedule
        (zip_with (λ tree stream, mkH2DTransfer tree stream StatusOr_default)
                  trees streams) w1 = Returns (transfers, w2)).
  { revert Hrun. case_decide; [by left|by right]. }
  destruct (batch_holding _ _ _ _ _ _ _ Hfresh1 Hnd Hrun') as (Hh & _ & _).
  unfold bind at 1.
  destruct (block_all_returns transfers w2) as [w3 Hblock]. rewrite Hblock.
  destruct (block_all_allocation _ _ _ Hblock) as [Hl3 Hn3].
  intros Hm.
  assert (Hh3 : holding w1 ([] ++ held transfers) w3).
  { simpl. by eapply holding_frame. }
  pose proof (move_outputs_holding _ _ _ _ _ _ Hh3 Hm) as [Hlive Hf].
  split; [congruence|done].
Qed.

(** X10. A batch that succeeds returns one intact buffer for every argument,
    in the order of the arguments: buffer [i] is on the device that
    argument [i] names and its tree has the nodes of its shape. The
    regions of the buffers are distinct, were not allocated before the
    call, and are what the call has added to the allocated regions. *)
Theorem FromPythonValues_ownership
        (arguments : list (PyObject * Z)) (schedule : list nat)
        (w w' : World) (bs : list PyLocalBuffer) :
  Z.of_nat (length arguments) < 2 ^ 31 →
  allocator_fresh w →
  NoDup schedule →
  FromPythonValues arguments schedule w = Returns (Value bs, w') →
  length bs = length arguments
  ∧ (∀ i b, bs !! i = Some b →
            ∃ sb a, shaped_buffer_ b = Some sb ∧ arguments !! i = Some a
                    ∧ device_ordinal sb = a.2 ∧ well_shaped sb)
  ∧ NoDup (all_owned bs)
  ∧ (∀ a, a ∈ all_owned bs → a ∉ live w)
  ∧ live w' = list_to_set (all_owned bs) ∪ live w
  ∧ allocator_fresh w'.
Proof.
  intros Hlen Hfresh Hnd. unfold FromPythonValues.
  rewrite static_cast_int_small by done.
  case_decide; [done|]. case_decide as Hzero.
  { intros [= <- <-]. split; [simpl; lia|]. split; [done|].
    split; [constructor|]. split; [by intros a Ha%elem_of_nil|].
    split; [simpl; set_solver|done]. }
  rewrite Nat2Z.id, firstn_all.
  destruct (get_trees arguments) as [trees|s0] eqn:Htrees; [|done].
  unfold bind at 1.
  destruct (borrow_streams arguments w) as [[[streams|s0] w1]| | | |] eqn:Hb;
    try done.
  destruct (borrow_streams_allocation _ _ _ _ Hb) as [Hl Hn].
  assert (Hfresh1 : allocator_fresh w1).
  { intros a. rewrite Hl, Hn. apply Hfresh. }
  unfold bind at 1.
  match goal with
  | |- match ?m w1 with _ => _ end = _ → _ =>
      destruct (m w1) as [[transfers w2]| | | |] eqn:Hrun; try done
  end.
  assert (Hrun' :
    transfer_h2d arguments 0
      (zip_with (λ tree stream, mkH2DTransfer tree stream StatusOr_default)
                trees streams) w1 = Returns (transfers, w2)
    ∨ run_transfers arguments schedule
        (zip_with (λ tree stream, mkH2DTransfer tree stream StatusOr_default)
                  trees streams) w1 = Returns (transfers, w2)).
  { revert Hrun. case_decide; [by left|by right]. }
  destruct (batch_holding _ _ _ _ _ _ _ Hfresh1 Hnd Hrun')
    as (Hh & Hlength & Hslots).
  unfold bind at 1.
  destruct (block_all_returns transfers w2) as [w3 Hblock]. rewrite Hblock.
  destruct (block_all_allocation _ _ _ Hblock) as [Hl3 Hn3].
  intros Hm.
  assert (Hh3 : holding w1 ([] ++ held transfers) w3).
  { simpl. by eapply holding_frame. }
  pose proof (move_outputs_holding _ _ _ _ _ _ Hh3 Hm) as [-> Heq].
  simpl in Heq. rewrite (held_values _ _ Heq) in Hh3. simpl in Hh3.
  destruct Hh3 as (_ & Hf3 & _ & Hnd3 & Hrange & Hlive).
  split.
  { rewrite <- (length_fmap Value), Heq, length_fmap, Hlength.
    rewrite length_zip_with, (get_trees_length _ _ Htrees),
      (borrow_streams_length _ _ _ _ Hb). lia. }
  split.
  { intros i b Hi.
    assert (Ht : (h2d_buffer <$> transfers) !! i = Some (Value b)).
    { rewrite <- Heq. by rewrite list_lookup_fmap, Hi. }
    rewrite list_lookup_fmap in Ht.
    destruct (transfers !! i) as [t|] eqn:Hti; [|done].
    injection Ht as Ht.
    destruct (Hslots i t b Hti Ht) as (sb & a & -> & Ha & Hshape & Hord).
    by exists sb, a. }
  split; [done|]. split.
  { intros a Ha Hlive0. specialize (Hrange a Ha). specialize (Hfresh a Hlive0).
    lia. }
  split; [by rewrite Hlive, Hl | done].
Qed.
End Batch.

(** *** Instances *)

Lemma FromPythonValues_flatten_failure_witness :
  @FromPythonValues example_client partial_host
    [(Some good_tree, 0); (None, 1); (Some scalar_tree, 2)] [2; 0; 1]%nat
    empty_world
  = Returns (Failure (InvalidArgument "not an array or a tuple"), empty_world).
Proof.
  apply (@FromPythonValues_flatten_failure example_client partial_host
           [(Some good_tree, 0)] [(Some scalar_tree, 2)] (None, 1)
           [2; 0; 1]%nat (InvalidArgument "not an array or a tuple") empty_world).
  - simpl. lia.
  - intros b Hb. apply list_elem_of_singleton in Hb as ->. reflexivity.
  - reflexivity.
Defined.

Lemma FromPythonValues_invalid_ordinal_witness :
  ∃ w',
    @FromPythonValues example_client example_host
      [(good_tree, 0); (scalar_tree, 7); (scalar_tree, 1)] [2; 0; 1]%nat
      empty_world
    = Returns (Failure (InvalidArgument ("Invalid device ordinal " +:+ pretty 7)),
               w')
    ∧ live w' = live empty_world
    ∧ memory w' = memory empty_world
    ∧ trace w' = trace empty_world ++ [EvBorrowStream 0 0].
Proof.
  apply (@FromPythonValues_invalid_ordinal example_client example_host
           [(good_tree, 0)] [(scalar_tree, 1)] (scalar_tree, 7)
           [2; 0; 1]%nat empty_world).
  - simpl. lia.
  - intros b Hb. reflexivity.
  - intros b Hb. apply list_elem_of_singleton in Hb as ->. simpl. lia.
  - simpl. lia.
Defined.

Lemma FromPythonValues_failure_frees_witness :
  ∃ s w',
    @FromPythonValues example_client example_host
      [(good_tree, 0); (bad_tree, 1); (scalar_tree, 2)] [2; 0; 1]%nat
      empty_world
    = Returns (Failure s, w')
    ∧ live w' = live empty_world ∧ allocator_fresh w'.
Proof.
  assert (∃ s w', @FromPythonValues example_client example_host
                    [(good_tree, 0); (bad_tree, 1); (scalar_tree, 2)]
                    [2; 0; 1]%nat empty_world
                  = Returns (Failure s, w')) as (s & w' & Hcall)
    by (eexists _, _; vm_compute; reflexivity).
  exists s, w'. split; [exact Hcall|].
  apply (@FromPythonValues_failure_frees example_client example_host
           [(good_tree, 0); (bad_tree, 1); (scalar_tree, 2)] [2; 0; 1]%nat
           empty_world w' s allocator_fresh_empty); [|exact Hcall].
  apply (bool_decide_unpack _). vm_compute. exact I.
Defined.

Lemma FromPythonValues_ownership_witness :
  ∃ bs w',
    @FromPythonValues example_client example_host
      [(good_tree, 0); (scalar_tree, 2)] [1; 0]%nat empty_world
    = Returns (Value bs, w')
    ∧ length bs = 2%nat
    ∧ (∀ i b, bs !! i = Some b →
              ∃ sb a, shaped_buffer_ b = Some sb
                      ∧ [(good_tree, 0); (scalar_tree, 2)] !! i = Some a
                      ∧ device_ordinal sb = a.2 ∧ well_shaped sb)
    ∧ NoDup (all_owned bs)
    ∧ (∀ a, a ∈ all_owned bs → a ∉ live empty_world)
    ∧ live w' = list_to_set (all_owned bs) ∪ live empty_world
    ∧ allocator_fresh w'.
Proof.
  assert (∃ bs w', @FromPythonValues example_client example_host
                     [(good_tree, 0); (scalar_tree, 2)] [1; 0]%nat empty_world
                   = Returns (Value bs, w')) as (bs & w' & Hcall)
    by (eexists _, _; vm_compute; reflexivity).
  exists bs, w'. split; [exact Hcall|].
  apply (@FromPythonValues_ownership example_client example_host
           [(good_tree, 0); (scalar_tree, 2)] [1; 0]%nat empty_world w' bs);
    [simpl; lia | exact allocator_fresh_empty | | exact Hcall].
  apply (bool_decide_unpack _). vm_compute. exact I.
Defined.

(** ** The buffers that [DestructureTuple] returns *)

Section Children.
Implicit Types t chunks : list (ShapeIndex * DeviceMemoryBase).

Lemma element_app_l t1 t2 k :
  k ∈ t1.*1 → element (t1 ++ t2) k = element t1 k.
Proof.
  induction t1 as [|[j x] t1 IH]; intros Hk; [by apply elem_of_nil in Hk|].
  simpl. case_decide; [done|]. apply IH.
  csimpl in Hk. apply elem_of_cons in Hk as [->|]; done.
Qed.

Lemma element_tails i t idx :
  (∀ k, k ∈ t.*1 → ∃ idx', k = i :: idx') →
  element ((λ e, (tail e.1, e.2)) <$> t) idx = element t (i :: idx).
Proof.
  induction t as [|[k x] t IH]; intros Hheads; [done|].
  destruct (Hheads k) as [idx' ->]; [by left|].
  csimpl. destruct (decide (idx' = idx)) as [->|Hne].
  - by rewrite !decide_True.
  - rewrite !decide_False by congruence. apply IH.
    intros k Hk. apply Hheads. by right.
Qed.

Lemma split_children_lookup p o elements :
  ∀ i0 chunks,
    chunks.*1 = (subshapes_from i0 elements).*1 →
    ∀ i s, elements !! i = Some s →
      ∃ child,
        split_children elements p o chunks !! i = Some child
        ∧ on_host_shape child = s ∧ on_device_shape child = s
        ∧ platform child = p ∧ device_ordinal child = o
        ∧ well_shaped child
        ∧ ∀ idx, idx ∈ indices s →
                 element (buffers child) idx
                 = element chunks ((i0 + i)%nat :: idx).
Proof.
  induction elements as [|s0 elements IH]; intros i0 chunks Hkeys i s Hi;
    [done|].
  destruct (split_keys _ _ _ _ Hkeys) as (Hlen & Htake & Hdrop).
  destruct i as [|i].
  - injection Hi as <-. eexists. split; [reflexivity|]. simpl.
    split; [done|]. split; [done|]. split; [done|]. split; [done|]. split.
    + unfold well_shaped. simpl. rewrite <- list_fmap_compose.
      transitivity (tail <$> (take (length (subshapes s0)) chunks).*1).
      { by rewrite <- list_fmap_compose. }
      rewrite Htake, <- list_fmap_compose. apply list_fmap_id.
    + intros idx Hidx. rewrite (element_tails i0).
      2:{ intros k Hk. rewrite Htake in Hk.
          apply list_elem_of_fmap in Hk as (idx' & -> & _). by exists idx'. }
      rewrite Nat.add_0_r.
      rewrite <- (take_drop (length (subshapes s0)) chunks) at 2.
      rewrite element_app_l; [done|]. rewrite Htake.
      apply list_elem_of_fmap. by exists idx.
  - destruct (IH (S i0) (drop (length (subshapes s0)) chunks) Hdrop i s Hi)
      as (child & Hc & ? & ? & ? & ? & ? & Helem).
    exists child. split; [done|]. repeat (split; [done|]).
    intros idx Hidx. rewrite (Helem idx Hidx).
    rewrite <- (take_drop (length (subshapes s0)) chunks) at 2.
    rewrite element_app_r; [by rewrite Nat.add_succ_r|].
    rewrite Htake. intros (idx' & Heq & _)%list_elem_of_fmap.
    injection Heq as Heq _. lia.
Qed.
End Children.

Section Destructure.
Context `{client : LocalClient} `{host : HostLanguage}.

Lemma DestructureTuple_splits
      (this : PyLocalBuffer) (sb : ScopedShapedBuffer) (ts : list Shape)
      (w : World) :
  shaped_buffer_ this = Some sb →
  on_device_shape sb = TupleShape ts →
  well_shaped sb →
  ∃ root chunks,
    buffers sb = ([], root) :: chunks
    ∧ chunks.*1 = (subshapes_from 0 ts).*1
    ∧ DestructureTuple this w
      = Returns ((Value ((λ c, mkPyLocalBuffer (Some c))
                           <$> split_children ts (platform sb) (device_ordinal sb)
                                              chunks),
                  mkPyLocalBuffer None),
                 destroy_ScopedShapedBuffer
                   (mkShapedBuffer (on_host_shape sb) (on_device_shape sb)
                                   (platform sb) (device_ordinal sb)
                                   (([], root) :: cleared chunks)) w).
Proof.
  intros Hsome Hshape Hkeys. unfold well_shaped in Hkeys.
  rewrite Hshape in Hkeys. unfold indices in Hkeys.
  rewrite subshapes_tuple in Hkeys.
  destruct (buffers sb) as [|[k root] chunks] eqn:Hb; [done|].
  csimpl in Hkeys. injection Hkeys as -> Hkeys.
  exists root, chunks. split; [done|]. split; [done|].
  unfold DestructureTuple, PyLocalBuffer_shape, shaped_buffer, Release, bind.
  rewrite Hsome. simpl. rewrite Hshape. simpl. rewrite Hb.
  rewrite (destructure_from_split _ _ ts 0 [([], root)] chunks Hkeys).
  2:{ intros k Hin j idx ->. apply list_elem_of_singleton in Hin. done. }
  reflexivity.
Qed.

(** X12. Destructuring an intact tuple buffer whose tree has the nodes of its
    shape returns one buffer for every element of the tuple, in order.
    Buffer [i] has element [i] of the tuple's device shape both as its host
    shape and as its device shape, is on the tuple's platform and device,
    has the nodes of its shape, and holds at every index [idx] the region
    that the tuple held at [i :: idx]. *)
Theorem DestructureTuple_children
        (this : PyLocalBuffer) (sb : ScopedShapedBuffer) (ts : list Shape)
        (w : World) :
  shaped_buffer_ this = Some sb →
  on_device_shape sb = TupleShape ts →
  well_shaped sb →
  ∃ bs w',
    DestructureTuple this w = Returns ((Value bs, mkPyLocalBuffer None), w')
    ∧ length bs = length ts
    ∧ ∀ i s, ts !! i = Some s →
        ∃ child,
          bs !! i = Some (mkPyLocalBuffer (Some child))
          ∧ on_host_shape child = s ∧ on_device_shape child = s
          ∧ platform child = platform sb
          ∧ device_ordinal child = device_ordinal sb
          ∧ well_shaped child
          ∧ ∀ idx, idx ∈ indices s →
                   element (buffers child) idx = element (buffers sb) (i :: idx).
Proof.
  intros Hsome Hshape Hkeys.
  destruct (DestructureTuple_splits this sb ts w Hsome Hshape Hkeys)
    as (root & chunks & Hb & Hchunks & Hcall).
  eexists _, _. split; [exact Hcall|]. split.
  - rewrite length_fmap, <- (length_fmap on_device_shape).
    by rewrite split_children_shapes.
  - intros i s Hi.
    destruct (split_children_lookup (platform sb) (device_ordinal sb) ts 0 chunks
                Hchunks i s Hi)
      as (child & Hc & ? & ? & ? & ? & ? & Helem).
    exists child. split; [apply list_lookup_fmap_Some; by exists child|].
    repeat (split; [done|]).
    intros idx Hidx. rewrite (Helem idx Hidx), Hb.
    cbn [element Nat.add]. by case_decide.
Qed.

(** *** What the children hold is what the tuple held *)









End Destructure.

(** *** Instances *)

Lemma DestructureTuple_children_witness :
  ∃ bs w',
    DestructureTuple example_tuple empty_world
    = Returns ((Value bs, mkPyLocalBuffer None), w')
    ∧ length bs = 2%nat
    ∧ ∀ i s, [vector_shape S32 2; scalar S32] !! i = Some s →
        ∃ child,
          bs !! i = Some (mkPyLocalBuffer (Some child))
          ∧ on_host_shape child = s ∧ on_device_shape child = s
          ∧ platform child = "Host"
          ∧ device_ordinal child = 0
          ∧ well_shaped child
          ∧ ∀ idx, idx ∈ indices s →
                   element (buffers child) idx
                   = element [([], mkDeviceMemory 1 16);
                              ([0%nat], mkDeviceMemory 2 8);
                              ([1%nat], mkDeviceMemory 3 4)] (i :: idx).
Proof.
  apply (DestructureTuple_children example_tuple _
           [vector_shape S32 2; scalar S32] empty_world eq_refl eq_refl eq_refl).
Defined.


(** ** Replicated execution: success, and replicas that do not finish *)

Section ReplicatedOutcomes.
Context `{client : LocalClient}.

Lemma all_values (rs : list (StatusOr ScopedShapedBuffer)) :
  Forall (λ r, statusor_ok r = true) rs → rs = Value <$> held_results rs.
Proof.
  induction 1 as [|[sb|s] rs Hr _ IH]; [done| |done].
  unfold held_results. csimpl. by rewrite IH at 1.
Qed.

Lemma wrap_results_values sbs :
  ∀ replica wrapped w,
    wrap_results replica wrapped (Value <$> sbs) w
    = Returns (Value (wrapped ++ ((λ sb, mkPyLocalBuffer (Some sb)) <$> sbs)), w).
Proof.
  induction sbs as [|sb sbs IH]; intros replica wrapped w; simpl.
  - by rewrite app_nil_r.
  - rewrite IH. by rewrite <- app_assoc.
Qed.

Lemma finished_succeeded this argument_handles schedule st :
  (∀ j, j ∈ schedule →
        ∃ sb, replica_result this argument_handles j = Some (Value sb)) →
  failed (finished this argument_handles schedule st) = failed st
  ∧ first_failure_status (finished this argument_handles schedule st)
    = first_failure_status st.
Proof.
  induction schedule as [|i schedule IH] using rev_ind; intros Hall; [done|].
  rewrite finished_snoc.
  destruct (Hall i) as [sb ->]; [apply elem_of_app; right; by left|]. simpl.
  apply IH. intros j Hj. apply Hall. apply elem_of_app. by left.
Qed.

Lemma finished_first_failure this argument_handles schedule st :
  0 < failed st →
  first_failure_status (finished this argument_handles schedule st)
  = first_failure_status st.
Proof.
  intros Hpos. induction schedule as [|i schedule IH] using rev_ind; [done|].
  rewrite finished_snoc. simpl.
  pose proof (finished_failed_mono this argument_handles schedule st).
  destruct (default _ _); [done|]. rewrite decide_False by lia. done.
Qed.

(** X17. When every replica succeeds and finishes, in whatever order, the
    call returns one buffer for every replica, in replica order: the buffer
    at index [replica] wraps the result of that replica's run; and every
    replica was run, on the device assigned to it. *)
Theorem ExecutePerReplica_all_succeed
        (this : PyLocalExecutable) (argument_handles : list (list PyLocalBuffer))
        (schedule : list nat) (w : World) (n : nat) :
  num_replicas this = Z.of_nat n →
  length argument_handles = n →
  Z.of_nat n ≤ device_count < 2 ^ 31 →
  Permutation schedule (seq 0 n) →
  (∀ replica, (replica < n)%nat →
              ∃ sb, replica_result this argument_handles replica = Some (Value sb)) →
  ∃ bs w',
    ExecutePerReplica this argument_handles schedule w = Returns (Value bs, w')
    ∧ length bs = n
    ∧ (∀ replica sb,
         replica_result this argument_handles replica = Some (Value sb) →
         bs !! replica = Some (mkPyLocalBuffer (Some sb)))
    ∧ (∀ replica, (replica < n)%nat → ran_on this replica w').
Proof.
  intros Hn Hlen Hdev Hperm Hall.
  assert (Hsched : ∀ replica, replica ∈ schedule ↔ (replica < n)%nat).
  { intros replica. rewrite Hperm, elem_of_seq. lia. }
  assert (Hbound : ∀ replica r,
             replica_result this argument_handles replica = Some r →
             (replica < n)%nat).
  { intros replica r Hr. unfold replica_result in Hr.
    apply bind_Some in Hr as (? & _ & Hr).
    apply bind_Some in Hr as (? & Hh & _).
    apply lookup_lt_Some in Hh. lia. }
  (* what [results] holds once the replicas have run *)
  assert (Hfinal : ∀ rs w1,
             length rs = n →
             (∀ replica r,
                replica_result this argument_handles replica = Some r →
                rs !! replica = Some r) →
             (∀ replica, (replica < n)%nat → ran_on this replica w1) →
             ∃ bs w',
               wrap_results 0 [] rs w1 = Returns (Value bs, w')
               ∧ w' = w1
               ∧ length bs = n
               ∧ (∀ replica sb,
                    replica_result this argument_handles replica = Some (Value sb) →
                    bs !! replica = Some (mkPyLocalBuffer (Some sb)))).
  { intros rs w1 Hrs Hlook Hran.
    assert (Forall (λ r, statusor_ok r = true) rs) as Hvalues.
    { apply Forall_lookup. intros j r Hj.
      destruct (Hall j) as [sb Hsb]; [apply lookup_lt_Some in Hj; lia|].
      rewrite (Hlook _ _ Hsb) in Hj. by injection Hj as <-. }
    pose proof (f_equal length (all_values rs Hvalues)) as Hheld.
    rewrite length_fmap in Hheld.
    rewrite (all_values rs Hvalues), wrap_results_values. simpl.
    eexists _, _. split; [done|]. split; [done|]. split.
    - rewrite length_fmap. congruence.
    - intros replica sb Hsb. apply Hlook in Hsb.
      rewrite (all_values rs Hvalues), list_lookup_fmap in Hsb.
      rewrite list_lookup_fmap.
      destruct (held_results rs !! replica); simpl in *; congruence. }
  unfold ExecutePerReplica. rewrite Hn, Hlen.
  rewrite !to_size_t_id by lia.
  rewrite decide_False by lia. rewrite decide_False by lia.
  rewrite decide_False by lia. rewrite Nat2Z.id.
  destruct (decide (Z.of_nat n = 1)) as [H1|H1].
  - assert (n = 1%nat) as -> by lia.
    destruct (Hall 0%nat) as [sb Hsb]; [lia|].
    destruct (execute_replica_result this argument_handles 0 _ w Hsb)
      as (w1 & He & _ & Hran).
    unfold bind at 1. unfold bind at 1. rewrite He. unfold ret.
    destruct (Hfinal [Value sb] w1) as (bs & w' & Hw & -> & Hbs); [done| |  |].
    + intros replica r Hr. pose proof (Hbound _ _ Hr).
      assert (replica = 0%nat) as -> by lia. simpl. congruence.
    + intros replica Hlt. by assert (replica = 0%nat) as -> by lia.
    + exists bs, w1. split; [done|]. destruct Hbs as [? ?]. split; [done|].
      split; [done|]. intros replica Hlt. by assert (replica = 0%nat) as -> by lia.
  - rewrite decide_True by (unfold execute_threads_size; lia).
    set (st0 := mkReplicated _ _ _ _).
    destruct (run_replicas_finished this argument_handles schedule st0 w)
      as (w1 & Hrun & _ & Hran).
    { intros replica Hin. destruct (Hall replica) as [sb ->]; [by apply Hsched|].
      by eexists. }
    unfold bind at 1. unfold bind at 1. rewrite Hrun.
    set (st1 := finished this argument_handles schedule st0).
    assert (running st1 = 0) as Hrunning.
    { unfold st1. rewrite finished_running. simpl.
      rewrite (Permutation_length Hperm), length_seq. lia. }
    assert (failed st1 = 0) as Hfailed.
    { unfold st1. apply finished_succeeded. intros j Hj. apply Hall.
      by apply Hsched. }
    unfold bind, await_replicas.
    rewrite decide_True by lia. rewrite decide_False by lia. simpl.
    destruct (Hfinal (results st1) w1) as (bs & w' & Hw & -> & Hbs).
    + unfold st1. rewrite finished_results_length. simpl.
      by rewrite length_replicate.
    + intros replica r Hr. unfold st1.
      apply finished_results_lookup; [|simpl; rewrite length_replicate|done].
      * apply Hsched. by eapply Hbound.
      * by eapply Hbound.
    + intros replica Hlt. apply Hran. by apply Hsched.
    + exists bs, w1. split; [done|]. destruct Hbs as [? ?]. split; [done|].
      split; [done|]. intros replica Hlt. apply Hran. by apply Hsched.
Qed.

(** X18. The escape from a deadlock. Several replicas, of which one has
    failed and at least one does not finish in time: the call does not
    return, the process is aborted, and the message ends with the error
    message of the failure that came first in time, not of the one with the
    lowest index. [schedule] is the order in which the replicas that finish
    do so; [k] is the first of them that fails. *)
Theorem ExecutePerReplica_aborts_on_stuck_replica
        (this : PyLocalExecutable) (argument_handles : list (list PyLocalBuffer))
        (before after : list nat) (k : nat) (w : World) (n : nat) (s : Status) :
  num_replicas this = Z.of_nat n →
  (1 < n)%nat →
  length argument_handles = n →
  Z.of_nat n ≤ device_count < 2 ^ 31 →
  (length (before ++ k :: after) < n)%nat →
  (∀ j, j ∈ before →
        ∃ sb, replica_result this argument_handles j = Some (Value sb)) →
  replica_result this argument_handles k = Some (Failure s) →
  (∀ j, j ∈ after → is_Some (replica_result this argument_handles j)) →
  ∃ prefix,
    ExecutePerReplica this argument_handles (before ++ k :: after) w
    = Aborts (prefix +:+ error_message s).
Proof.
  intros Hn Hmulti Hlen Hdev Hshort Hbefore Hk Hafter.
  unfold ExecutePerReplica. rewrite Hn, Hlen.
  rewrite !to_size_t_id by lia.
  rewrite decide_False by lia. rewrite decide_False by lia.
  rewrite decide_False by lia. rewrite decide_False by lia.
  rewrite decide_True by (unfold execute_threads_size; lia).
  rewrite Nat2Z.id.
  set (st0 := mkReplicated _ _ _ _).
  destruct (run_replicas_finished this argument_handles (before ++ k :: after) st0 w)
    as (w1 & Hrun & _ & _).
  { intros replica Hin. apply elem_of_app in Hin as [Hin | Hin].
    - destruct (Hbefore _ Hin) as [sb ->]. by eexists.
    - apply elem_of_cons in Hin as [-> | Hin]; [by eexists | by apply Hafter]. }
  unfold bind at 1. unfold bind at 1. rewrite Hrun.
  set (st1 := finished this argument_handles (before ++ k :: after) st0).
  assert (running st1 ≠ 0) as Hrunning.
  { unfold st1. rewrite finished_running. simpl. lia. }
  assert (0 < failed st1 ∧ first_failure_status st1 = s) as [Hfailed Hfirst].
  { unfold st1, finished. rewrite foldl_app. simpl.
    fold (finished this argument_handles before st0).
    destruct (finished_succeeded this argument_handles before st0 Hbefore)
      as [Hf0 Hs0].
    rewrite Hk. simpl.
    set (stk := account _ k (Failure s)).
    fold (finished this argument_handles after stk).
    assert (failed stk = 1) as Hfk by (unfold stk; simpl; rewrite Hf0; done).
    assert (first_failure_status stk = s) as Hsk.
    { unfold stk. simpl. rewrite Hf0. done. }
    pose proof (finished_failed_mono this argument_handles after stk).
    split; [lia|]. rewrite finished_first_failure by lia. done. }
  unfold bind, await_replicas.
  rewrite decide_True by lia. rewrite decide_True by lia.
  rewrite decide_False by done. rewrite Hfirst.
  exists ("Replicated computation launch failed, but not all replicas " +:+
          "terminated. Aborting process to work around deadlock. Failure " +:+
          "message (there may have been multiple failures, see the " +:+
          "error log for all failures): 

").
  reflexivity.
Qed.

(** X19. Without a failure there is no timeout: when the replicas that finish
    all succeed and at least one replica does not finish, the call waits
    for ever. *)
Theorem ExecutePerReplica_waits_without_failure
        (this : PyLocalExecutable) (argument_handles : list (list PyLocalBuffer))
        (schedule : list nat) (w : World) (n : nat) :
  num_replicas this = Z.of_nat n →
  (1 < n)%nat →
  length argument_handles = n →
  Z.of_nat n ≤ device_count < 2 ^ 31 →
  (length schedule < n)%nat →
  (∀ j, j ∈ schedule →
        ∃ sb, replica_result this argument_handles j = Some (Value sb)) →
  ExecutePerReplica this argument_handles schedule w = Blocks.
Proof.
  intros Hn Hmulti Hlen Hdev Hshort Hall.
  unfold ExecutePerReplica. rewrite Hn, Hlen.
  rewrite !to_size_t_id by lia.
  rewrite decide_False by lia. rewrite decide_False by lia.
  rewrite decide_False by lia. rewrite decide_False by lia.
  rewrite decide_True by (unfold execute_threads_size; lia).
  rewrite Nat2Z.id.
  set (st0 := mkReplicated _ _ _ _).
  destruct (run_replicas_finished this argument_handles schedule st0 w)
    as (w1 & Hrun & _ & _).
  { intros replica Hin. destruct (Hall _ Hin) as [sb ->]. by eexists. }
  unfold bind at 1. unfold bind at 1. rewrite Hrun.
  set (st1 := finished this argument_handles schedule st0).
  assert (running st1 ≠ 0) as Hrunning.
  { unfold st1. rewrite finished_running. simpl. lia. }
  destruct (finished_succeeded this argument_handles schedule st0 Hall)
    as [Hfailed _].
  unfold bind, await_replicas. fold st1 in Hfailed. simpl in Hfailed.
  rewrite decide_False; [done|]. lia.
Qed.
End ReplicatedOutcomes.

(** *** Instances *)

Lemma ExecutePerReplica_all_succeed_witness :
  ∃ bs w',
    @ExecutePerReplica example_client spread_executable [[]; []] [1; 0]%nat
                       empty_world
    = Returns (Value bs, w')
    ∧ length bs = 2%nat
    ∧ (∀ replica sb,
         replica_result spread_executable [[]; []] replica = Some (Value sb) →
         bs !! replica = Some (mkPyLocalBuffer (Some sb)))
    ∧ (∀ replica, (replica < 2)%nat → ran_on spread_executable replica w').
Proof.
  apply (@ExecutePerReplica_all_succeed example_client spread_executable
           [[]; []] [1; 0]%nat empty_world 2).
  - reflexivity.
  - reflexivity.
  - simpl. lia.
  - apply (bool_decide_unpack _). vm_compute. exact I.
  - intros [|[|replica]] Hlt; [by eexists..|lia].
Defined.

Lemma ExecutePerReplica_aborts_on_stuck_replica_witness :
  ∃ prefix,
    @ExecutePerReplica example_client (example_executable 4) [[]; []; []; []]
                       ([2%nat] ++ 3%nat :: [1%nat]) empty_world
    = Aborts (prefix +:+ "device 3 failed").
Proof.
  apply (@ExecutePerReplica_aborts_on_stuck_replica example_client
           (example_executable 4) [[]; []; []; []] [2%nat] [1%nat] 3%nat
           empty_world 4 (mkStatus INTERNAL "device 3 failed")).
  - reflexivity.
  - lia.
  - reflexivity.
  - simpl. lia.
  - simpl. lia.
  - intros j Hj. apply list_elem_of_singleton in Hj as ->. by eexists.
  - reflexivity.
  - intros j Hj. apply list_elem_of_singleton in Hj as ->. by eexists.
Defined.

Lemma ExecutePerReplica_waits_without_failure_witness :
  @ExecutePerReplica example_client (example_executable 4) [[]; []; []; []]
                     [2; 0]%nat empty_world
  = Blocks.
Proof.
  apply (@ExecutePerReplica_waits_without_failure example_client
           (example_executable 4) [[]; []; []; []] [2; 0]%nat empty_world 4).
  - reflexivity.
  - lia.
  - reflexivity.
  - simpl. lia.
  - simpl. lia.
  - intros j [->|[->|Hj%elem_of_nil]%elem_of_cons]%elem_of_cons;
      [by eexists..|done].
Defined.
